(** * YamanoteLineGame: the turn engine and the answer catalog

    A shallow embedding of [src/utils/text_norm.py], [src/model/answer_list.py],
    [src/model/player.py] and [src/controller/game_controller.py], followed by
    the properties of the specification that concern them.

    Python strings are sequences of Unicode code points, so a string is a
    [list N] here: [len], [rfind], slicing and [in] count code points, not
    bytes.  Dictionaries are [gmap]s, the [used] set is a [gset], lists that
    are indexed or appended to are [list]s.  Objects mutated in place (the
    players held by the controller) are updated at their index in the roster.
    Callbacks registered by the UI are modelled by an event log.  A Python
    [float] is an IEEE 754 binary64 number; the readings of
    [time.monotonic()] and the arithmetic [tick] does on them are those of
    the Standard Library's specification of binary64 ([SpecFloat]). *)

From Stdlib Require Import ZArith NArith Lia SpecFloat.
From stdpp Require Import base strings gmap sets list.

#[local] Set Warnings "-clear-no-such-hyp".

Abbreviation str := (list N).

(** ** Text primitives *)

Module Text.

(** Code points for which [str.isspace] holds; [str.strip] removes them
    from both ends. *)
Definition isspace (c : N) : bool :=
  ((9 <=? c) && (c <=? 13) || (28 <=? c) && (c <=? 32) || (c =? 133)
   || (c =? 160) || (c =? 5760) || (8192 <=? c) && (c <=? 8202)
   || (c =? 8232) || (c =? 8233) || (c =? 8239) || (c =? 8287)
   || (c =? 12288))%N.

Fixpoint lstrip (s : str) : str :=
  match s with
  | [] => []
  | c :: s' => if isspace c then lstrip s' else s
  end.

Definition rstrip (s : str) : str := rev (lstrip (rev s)).

(** [s.strip()] *)
Definition strip (s : str) : str := rstrip (lstrip s).

(** [sep.join(parts)] *)
Fixpoint join (sep : str) (parts : list str) : str :=
  match parts with
  | [] => []
  | [p] => p
  | p :: rest => p ++ sep ++ join sep rest
  end.

(** [s.startswith(prefix)] *)
Fixpoint startswith (s prefix : str) : bool :=
  match prefix, s with
  | [], _ => true
  | _ :: _, [] => false
  | a :: prefix', b :: s' => (a =? b)%N && startswith s' prefix'
  end.

(** [c in s] for a one-character [c]. *)
Definition contains (c : N) (s : str) : bool := existsb (N.eqb c) s.

Fixpoint rfind_from (c : N) (s : str) (i last : Z) : Z :=
  match s with
  | [] => last
  | x :: s' => rfind_from c s' (i + 1)%Z (if (x =? c)%N then i else last)
  end.

(** [s.rfind(c)] for a one-character [c]: the highest index holding [c],
    or [-1]. *)
Definition rfind (c : N) (s : str) : Z := rfind_from c s 0 (-1).

(** [s[a:b]] for [0 <= a]; empty when [b <= a]. *)
Definition slice (s : str) (a b : Z) : str :=
  take (Z.to_nat (b - a)) (drop (Z.to_nat a) s).

(** Truthiness of a string: non-empty. *)
Definition truthy (s : str) : bool :=
  match s with [] => false | _ => true end.

(** ASCII text written as a Rocq string literal. *)
Fixpoint lit (s : String.string) : str :=
  match s with
  | String.EmptyString => []
  | String.String a s' => Ascii.N_of_ascii a :: lit s'
  end.

(** [normalize_text] restricted to ASCII input, where NFKC is the
    identity: trim, then lower-case.  The properties below are stated for
    an arbitrary normalizer; this one instantiates them on examples. *)
Definition lower_ascii (c : N) : N :=
  if ((65 <=? c) && (c <=? 90))%N then (c + 32)%N else c.

Definition normalize_ascii (s : str) : str := map lower_ascii (strip s).

End Text.

(** ** Floating-point numbers *)

Module Float.

(** The values of Python's [float]: binary64, 53 bits of precision. *)
Definition t := spec_float.
Definition prec : Z := 53.
Definition emax : Z := 1024.

(** [float(n)], as in [elapsed * 1000], where the [int] operand is
    converted first; the conversion rounds to the nearest float and is
    exact for 1000. *)
Definition of_int (n : Z) : t := binary_normalize prec emax n 0 false.

(** [x - y] and [x * y], rounded to the nearest float, ties to even. *)
Definition sub (x y : t) : t := SFsub prec emax x y.
Definition mul (x y : t) : t := SFmul prec emax x y.

(** [int(x)] truncates towards zero; it raises [ValueError] on a NaN and
    [OverflowError] on an infinity. *)
Inductive int_result :=
| Int (n : Z)
| ValueError
| OverflowError.

Definition to_int (x : t) : int_result :=
  match x with
  | S754_nan => ValueError
  | S754_infinity _ => OverflowError
  | S754_zero _ => Int 0
  | S754_finite s m e => Int (cond_Zopp s (Z.shiftl (Zpos m) e))
  end.

(** [x <= y] *)
Definition leb (x y : t) : bool := SFleb x y.

(** [math.isfinite(x)], for the values a binary64 float can hold: a
    zero, or a mantissa and an exponent in canonical form and in
    range. *)
Definition is_finite (x : t) : bool :=
  match x with
  | S754_zero _ => true
  | S754_finite _ m e => bounded prec emax m e
  | _ => false
  end.

End Float.

(** ** The answer catalog ([model/answer_list.py]) *)

Module AnswerList.

Record t := mk {
  items : list str;
  used : gset str;
  _match_map : gmap str str;
  _class_map : gmap str str;
  _element_map : gmap str str;
  _display_map : gmap str (list str * list str)
}.

Definition empty : t := mk [] ∅ ∅ ∅ ∅ ∅.

(** [row[i]] for [i] in [range(0, len(row), 2)]. *)
Fixpoint every_other (row : list str) : list str :=
  match row with
  | [] => []
  | [c] => [c]
  | c :: _ :: rest => c :: every_other rest
  end.

(** [[row[i].strip() for i in range(k, len(row), 2) if row[i].strip()]],
    for [k = 0] (displays) and [k = 1] (matches). *)
Definition displays_of (row : list str) : list str :=
  filter (fun c => Is_true (Text.truthy c)) (Text.strip <$> every_other row).

Definition matches_of (row : list str) : list str :=
  filter (fun c => Is_true (Text.truthy c)) (Text.strip <$> every_other (tail row)).

(** [not row or all(not cell.strip() for cell in row)] *)
Definition is_separator (row : list str) : bool :=
  forallb (fun cell => negb (Text.truthy (Text.strip cell))) row.

(** [row.extend([d, m])] for [d, m] in [zip(displays, matches)]. *)
Fixpoint rebuild_row (displays matches : list str) : list str :=
  match displays, matches with
  | d :: ds, m :: ms => d :: m :: rebuild_row ds ms
  | _, _ => []
  end.

Section WithNormalizer.

Variable normalize_text : str -> str.

(** The part of the loop body shared by both sections of the file: the
    row is skipped ([None]) when it is empty, when it has no display or
    no match fragment, or when its normalized display is empty. *)
Definition parse_row (row : list str) : option (str * (list str * list str)) :=
  match row with
  | [] => None
  | _ =>
    let displays := displays_of row in
    let matches := matches_of row in
    match displays, matches with
    | [], _ | _, [] => None
    | _, _ =>
      let norm_disp := normalize_text (Text.join [45%N] displays) in
      if Text.truthy norm_disp then Some (norm_disp, (displays, matches))
      else None
    end
  end.

(** Body of the loop over the rows before the separator. *)
Definition add_unanswered (acc : t) (row : list str) : t :=
  match parse_row row with
  | None => acc
  | Some (norm_disp, (displays, matches)) =>
    mk (items acc ++ [norm_disp])
       (used acc)
       (<[norm_disp := normalize_text (concat matches)]> (_match_map acc))
       (<[norm_disp := normalize_text (hd [] matches)]> (_class_map acc))
       (<[norm_disp := normalize_text (List.last matches [])]> (_element_map acc))
       (<[norm_disp := (displays, matches)]> (_display_map acc))
  end.

(** Body of the loop over the rows after the separator. *)
Definition add_answered (acc : t) (row : list str) : t :=
  match parse_row row with
  | None => acc
  | Some (norm_disp, (displays, matches)) =>
    let present := bool_decide (norm_disp ∈ items acc) in
    mk (if present then items acc else items acc ++ [norm_disp])
       ({[norm_disp]} ∪ used acc)
       (if present then _match_map acc
        else <[norm_disp := normalize_text (concat matches)]> (_match_map acc))
       (if present then _class_map acc
        else <[norm_disp := normalize_text (hd [] matches)]> (_class_map acc))
       (if present then _element_map acc
        else <[norm_disp := normalize_text (List.last matches [])]> (_element_map acc))
       (match _display_map acc !! norm_disp with
        | Some _ => _display_map acc
        | None => <[norm_disp := (displays, matches)]> (_display_map acc)
        end)
  end.

(** Index of the first separator row, if any. *)
Definition separator_idx (rows : list (list str)) : option nat :=
  fst <$> list_find (fun row => Is_true (is_separator row)) rows.

(** [AnswerList.load_from_csv], from the rows [csv.reader] yields. *)
Definition load_from_csv (rows : list (list str)) : t :=
  let sep := separator_idx rows in
  let end_idx := default (length rows) sep in
  let acc := foldl add_unanswered empty (take end_idx rows) in
  match sep with
  | Some i => foldl add_answered acc (drop (S i) rows)
  | None => acc
  end.

Fixpoint find_match_loop (a : t) (t_norm : str) (previous_class : option str)
    (l : list str) : option str :=
  match l with
  | [] => None
  | disp :: rest =>
    if bool_decide (disp ∈ used a) then find_match_loop a t_norm previous_class rest
    else if bool_decide (Some t_norm = _match_map a !! disp) then Some disp
    else if match previous_class with
            | Some pc =>
              Text.truthy pc
              && bool_decide (Some t_norm = _element_map a !! disp)
              && bool_decide (Some pc = _class_map a !! disp)
            | None => false
            end
    then Some disp
    else find_match_loop a t_norm previous_class rest
  end.

(** [AnswerList.find_match] *)
Definition find_match (a : t) (text : str) (previous_class : option str) : option str :=
  find_match_loop a (normalize_text text) previous_class (items a).

(** [AnswerList.contains] *)
Definition contains (a : t) (text : str) (previous_class : option str) : bool :=
  bool_decide (is_Some (find_match a text previous_class)).

(** [AnswerList.mark_used]: the result and the catalog afterwards.  The
    test [if matched:] is a truthiness test, so an empty display key is
    reported as no match. *)
Definition mark_used (a : t) (text : str) (previous_class : option str) : option str * t :=
  match find_match a text previous_class with
  | Some matched =>
    if Text.truthy matched
    then (Some matched,
          mk (items a) ({[matched]} ∪ used a) (_match_map a) (_class_map a)
             (_element_map a) (_display_map a))
    else (None, a)
  | None => (None, a)
  end.

(** [self.answer_list.used.discard(key)], as [unmark_answer] does it. *)
Definition discard_used (a : t) (key : str) : t :=
  mk (items a) (used a ∖ {[key]}) (_match_map a) (_class_map a)
     (_element_map a) (_display_map a).

(** [[i for i in self.items if i not in self.used]] *)
Definition remaining (a : t) : list str :=
  filter (fun i => i ∉ used a) (items a).

(** [[i for i in self.items if i in self.used]] *)
Definition answered (a : t) : list str :=
  filter (fun i => i ∈ used a) (items a).

Definition remaining_count (a : t) : Z := Z.of_nat (length (remaining a)).

(** [AnswerList.all_items]: a copy of [items]. *)
Definition all_items (a : t) : list str := items a.

(** The row written for one display key. *)
Definition row_of (a : t) (norm_disp : str) : list str :=
  match _display_map a !! norm_disp with
  | Some (displays, matches) => rebuild_row displays matches
  | None => [norm_disp; default [] (_match_map a !! norm_disp)]
  end.

(** [AnswerList.save_to_csv], as the rows handed to [csv.writer]. *)
Definition save_to_csv (a : t) : list (list str) :=
  (row_of a <$> remaining a) ++ [[]] ++ (row_of a <$> answered a).

End WithNormalizer.

End AnswerList.

(** ** Players ([model/player.py]) *)

Module Player.

(** One entry of a player's history.  The two timestamps of the source
    record are clock readings that nothing reads back; they are left out. *)
Record AnswerRecord := mk_record {
  text : str;
  is_correct : bool
}.

(** [_remaining_ms] is an attribute the controller attaches at run time:
    it is absent ([None]) until [start_game] or a turn start sets it, and
    is read with [getattr(p, '_remaining_ms', 0)]. *)
Record t := mk {
  id : str;
  name : str;
  base_seconds : Z;
  pass_limit : Z;
  wrong_answer_limit : Z;
  remaining_passes : Z;
  remaining_wrong_answers : Z;
  eliminated : bool;
  correct_answers : list AnswerRecord;
  wrong_answers : list AnswerRecord;
  _remaining_ms : option Z
}.

(** [Player(id=..., name=..., base_seconds=..., pass_limit=...,
    wrong_answer_limit=...)]: the other fields take their defaults. *)
Definition new (pid name : str) (base pass_lim wrong_lim : Z) : t :=
  mk pid name base pass_lim wrong_lim 0 0 false [] [] None.

Definition reset_runtime (p : t) : t :=
  mk (id p) (name p) (base_seconds p) (pass_limit p) (wrong_answer_limit p)
     (pass_limit p) (wrong_answer_limit p) false [] [] (_remaining_ms p).

Definition consume_wrong_answer (p : t) : bool * t :=
  if (0 <? remaining_wrong_answers p)%Z
  then (true,
        mk (id p) (name p) (base_seconds p) (pass_limit p) (wrong_answer_limit p)
           (remaining_passes p) (remaining_wrong_answers p - 1) (eliminated p)
           (correct_answers p) (wrong_answers p) (_remaining_ms p))
  else (false, p).

Definition reset_wrong_answers (p : t) : t :=
  mk (id p) (name p) (base_seconds p) (pass_limit p) (wrong_answer_limit p)
     (remaining_passes p) (wrong_answer_limit p) (eliminated p)
     (correct_answers p) (wrong_answers p) (_remaining_ms p).

Definition can_pass (p : t) : bool := (0 <? remaining_passes p)%Z.

Definition consume_pass (p : t) : bool * t :=
  if can_pass p
  then (true,
        mk (id p) (name p) (base_seconds p) (pass_limit p) (wrong_answer_limit p)
           (remaining_passes p - 1) (remaining_wrong_answers p) (eliminated p)
           (correct_answers p) (wrong_answers p) (_remaining_ms p))
  else (false, p).

Definition record_answer (normalize_text : str -> str) (txt : str) (ok : bool)
    (p : t) : t :=
  let rec := mk_record (normalize_text txt) ok in
  mk (id p) (name p) (base_seconds p) (pass_limit p) (wrong_answer_limit p)
     (remaining_passes p) (remaining_wrong_answers p) (eliminated p)
     (if ok then correct_answers p ++ [rec] else correct_answers p)
     (if ok then wrong_answers p else wrong_answers p ++ [rec])
     (_remaining_ms p).

(** [p.eliminated = True] *)
Definition eliminate (p : t) : t :=
  mk (id p) (name p) (base_seconds p) (pass_limit p) (wrong_answer_limit p)
     (remaining_passes p) (remaining_wrong_answers p) true
     (correct_answers p) (wrong_answers p) (_remaining_ms p).

(** [p._remaining_ms = ms] *)
Definition set_remaining_ms (ms : Z) (p : t) : t :=
  mk (id p) (name p) (base_seconds p) (pass_limit p) (wrong_answer_limit p)
     (remaining_passes p) (remaining_wrong_answers p) (eliminated p)
     (correct_answers p) (wrong_answers p) (Some ms).

(** [getattr(p, '_remaining_ms', 0)] *)
Definition remaining_ms (p : t) : Z := default 0%Z (_remaining_ms p).

End Player.

(** ** The turn engine ([controller/game_controller.py]) *)

Module GameController.

Inductive level := info | error.

(** The texts handed to [_notify], one constructor per format string. *)
Inductive message :=
| msg_name_length
| msg_name_exists (name : str)
| msg_player_added (name : str)
| msg_players_removed (removed : Z)
| msg_player_not_found (name : str)
| msg_load_answer_list_first
| msg_no_players
| msg_game_started
| msg_game_stopped
| msg_no_current_player
| msg_answer_list_not_loaded
| msg_correct (name text : str)
| msg_wrong_limit (name : str)
| msg_wrong (name text : str) (remaining : Z)
| msg_pass_used (name : str) (remaining : Z)
| msg_no_pass_left
| msg_unmarked (key : str)
| msg_not_answered (key : str)
| msg_no_active_player
| msg_timeout (name : str)
| msg_forfeit (name : str)
| msg_skip_not_current
| msg_skipped (name : str)
| msg_loaded (total : Z)
| msg_load_error.

Inductive sound := sound_correct | sound_wrong.

(** The argument of [_advance_turn_after_event]. *)
Inductive reason :=
| correct | wrong_limit | timeout | pass | forfeit | skip.

(** What the controller hands to the callbacks the UI registered. *)
Inductive event :=
| Notification (lvl : level) (msg : message)
| PlayerAdded (p : Player.t)
| PlayerState (name : str) (remaining_ms remaining_passes remaining_wrong : Z)
              (eliminated : bool)
| GameEnded
| AnswerListLoaded (total : Z)
| AnswersUpdated (remaining answered : list str)
| SoundEvent (kind : sound)
| AllPlayers (ps : list Player.t)
| CurrentPlayer (name : option str)
| RunningState (running : bool).

(** [_last_tick_monotonic] holds a reading of [time.monotonic()], a
    [float] of seconds. *)
Record t := mk {
  players : list Player.t;
  answer_list : option AnswerList.t;
  current_idx : Z;
  is_running : bool;
  _last_tick_monotonic : option Float.t;
  _answered_order : list str;
  _last_answered_class : option str;
  events : list event
}.

(** [GameController()] *)
Definition init : t := mk [] None 0 false None [] None [].

Definition with_players (ps : list Player.t) (s : t) : t :=
  mk ps (answer_list s) (current_idx s) (is_running s) (_last_tick_monotonic s)
     (_answered_order s) (_last_answered_class s) (events s).

Definition with_answer_list (a : option AnswerList.t) (s : t) : t :=
  mk (players s) a (current_idx s) (is_running s) (_last_tick_monotonic s)
     (_answered_order s) (_last_answered_class s) (events s).

Definition with_current_idx (i : Z) (s : t) : t :=
  mk (players s) (answer_list s) i (is_running s) (_last_tick_monotonic s)
     (_answered_order s) (_last_answered_class s) (events s).

Definition with_is_running (b : bool) (s : t) : t :=
  mk (players s) (answer_list s) (current_idx s) b (_last_tick_monotonic s)
     (_answered_order s) (_last_answered_class s) (events s).

Definition with_last_tick (c : option Float.t) (s : t) : t :=
  mk (players s) (answer_list s) (current_idx s) (is_running s) c
     (_answered_order s) (_last_answered_class s) (events s).

Definition with_answered_order (o : list str) (s : t) : t :=
  mk (players s) (answer_list s) (current_idx s) (is_running s)
     (_last_tick_monotonic s) o (_last_answered_class s) (events s).

Definition with_last_answered_class (c : option str) (s : t) : t :=
  mk (players s) (answer_list s) (current_idx s) (is_running s)
     (_last_tick_monotonic s) (_answered_order s) c (events s).

Definition emit (e : event) (s : t) : t :=
  mk (players s) (answer_list s) (current_idx s) (is_running s)
     (_last_tick_monotonic s) (_answered_order s) (_last_answered_class s)
     (events s ++ [e]).

(** In-place mutation of the player object at roster position [i]. *)
Definition update_player (i : nat) (f : Player.t -> Player.t) (s : t) : t :=
  with_players (alter f i (players s)) s.

(** [max(0, min(self.current_idx, max(0, len(self.players)-1)))] *)
Definition clamp_idx (cur : Z) (n : nat) : Z :=
  Z.max 0 (Z.min cur (Z.max 0 (Z.of_nat n - 1))).

(** [s.rfind] based extraction at the head of [host_submit_answer]: the
    full-width pair is tried when both of its characters occur, the ASCII
    pair only otherwise. *)
Definition fw_open : N := 65288.
Definition fw_close : N := 65289.
Definition ascii_open : N := 40.
Definition ascii_close : N := 41.

Definition between (opener closer : N) (text : str) : str :=
  let start := Text.rfind opener text in
  let end_ := Text.rfind closer text in
  if (start <? end_)%Z then Text.slice text (start + 1) end_ else text.

Definition extract_answer_text (text : str) : str :=
  if Text.contains fw_open text && Text.contains fw_close text
  then between fw_open fw_close text
  else if Text.contains ascii_open text && Text.contains ascii_close text
  then between ascii_open ascii_close text
  else text.

(** [class_values.sort(key=len, reverse=True)]: a stable sort, longest
    first. *)
Fixpoint insert_by_len (x : str) (l : list str) : list str :=
  match l with
  | [] => [x]
  | y :: l' =>
    if (length y <=? length x)%nat then x :: l else y :: insert_by_len x l'
  end.

Definition sort_by_len_desc (l : list str) : list str :=
  foldr insert_by_len [] l.

Section WithNormalizer.

Variable normalize_text : str -> str.

Definition _notify (lvl : level) (msg : message) (s : t) : t :=
  emit (Notification lvl msg) s.

(** [_emit_player_state(p)] for the player object at roster position
    [i]. *)
Definition _emit_player_state (i : nat) (s : t) : t :=
  match players s !! i with
  | Some p =>
    emit (PlayerState (Player.name p) (Player.remaining_ms p)
            (Player.remaining_passes p) (Player.remaining_wrong_answers p)
            (Player.eliminated p)) s
  | None => s
  end.

Definition _emit_all_players (s : t) : t := emit (AllPlayers (players s)) s.

Definition _emit_running_state (s : t) : t :=
  emit (RunningState (is_running s)) s.

Definition _name_exists (name : str) (s : t) : bool :=
  existsb (fun p => bool_decide (normalize_text (Player.name p) = normalize_text name))
          (players s).

(** Roster position examined at step [i] of the scan from [cur]. *)
Definition scan_idx (cur : Z) (n : nat) (i : Z) : Z :=
  ((cur + i) mod Z.of_nat n)%Z.

Definition active_at (ps : list Player.t) (idx : Z) : bool :=
  match ps !! Z.to_nat idx with
  | Some p => negb (Player.eliminated p)
  | None => false
  end.

(** [current_player]: the player returned and the controller afterwards
    ([current_idx] is overwritten when a player is found). *)
Definition current_player (s : t) : option Player.t * t :=
  let n := length (players s) in
  match n with
  | O => (None, s)
  | _ =>
    match List.find (fun i => active_at (players s) (scan_idx (current_idx s) n i))
                    (seqZ 0 (Z.of_nat n)) with
    | Some i =>
      let idx := scan_idx (current_idx s) n i in
      (players s !! Z.to_nat idx, with_current_idx idx s)
    | None => (None, s)
    end
  end.

Definition _emit_current_player (s : t) : t :=
  let '(cp, s) := current_player s in
  emit (CurrentPlayer (Player.name <$> cp)) s.

Definition stop_game (s : t) : t :=
  let s := with_is_running false s in
  let s := _notify info msg_game_stopped s in
  let s := emit GameEnded s in
  let s := _emit_all_players s in
  let s := _emit_current_player s in
  _emit_running_state s.

Definition _end_if_finished (s : t) : bool * t :=
  if negb (bool_decide (players s = []))
     && forallb Player.eliminated (players s)
  then (true, stop_game s)
  else
    match answer_list s with
    | Some al =>
      if (AnswerList.remaining_count al =? 0)%Z then (true, stop_game s)
      else (false, s)
    | None => (false, s)
    end.

Definition _advance_turn_after_event (r : reason) (s : t) : t :=
  let '(finished, s) := _end_if_finished s in
  if finished then s
  else
    let n := length (players s) in
    match n with
    | O => _notify info msg_no_players s
    | _ =>
      let s :=
        match List.find (fun i => active_at (players s) (scan_idx (current_idx s) n i))
                        (seqZ 1 (Z.of_nat n)) with
        | Some i => with_current_idx (scan_idx (current_idx s) n i) s
        | None => s
        end in
      let '(np, s) := current_player s in
      let s :=
        match np with
        | Some np0 =>
          let i := Z.to_nat (current_idx s) in
          let s := update_player i
                     (Player.set_remaining_ms (Player.base_seconds np0 * 1000)) s in
          _emit_player_state i s
        | None => s
        end in
      let s := _emit_all_players s in
      _emit_current_player s
    end.

(** [[i for i in al.items if i not in al.used]] and
    [list(reversed(self._answered_order))], handed to
    [on_answers_updated]. *)
Definition _emit_answers_updated (s : t) : t :=
  match answer_list s with
  | Some al =>
    emit (AnswersUpdated (AnswerList.remaining al) (reverse (_answered_order s))) s
  | None => s
  end.

(** [load_csv].  [rows] is what [csv.reader] yields for the file, [None]
    when reading it raises: the [except] clause then only notifies. *)
Definition load_csv (rows : option (list (list str))) (s : t) : t :=
  match rows with
  | None => _notify error msg_load_error s
  | Some rows =>
    let al := AnswerList.load_from_csv normalize_text rows in
    let s := with_answer_list (Some al) s in
    let s := with_answered_order (AnswerList.answered al) s in
    let total := Z.of_nat (length (AnswerList.items al)) in
    let s := emit (AnswerListLoaded total) s in
    let s := _emit_answers_updated s in
    let s := _notify info (msg_loaded total) s in
    _emit_all_players s
  end.

(** [add_player]; [pid] is the identifier drawn from [uuid.uuid4()]. *)
Definition add_player (pid name : str) (base_seconds pass_limit wrong_answer_limit : Z)
    (s : t) : t :=
  if negb (Text.truthy name) || (60 <? length name)%nat
  then _notify error msg_name_length s
  else if _name_exists name s
  then _notify error (msg_name_exists name) s
  else
    let p := Player.reset_runtime
               (Player.new pid name base_seconds pass_limit wrong_answer_limit) in
    let s := with_players (players s ++ [p]) s in
    let s := emit (PlayerAdded p) s in
    let s := _notify info (msg_player_added name) s in
    let s := _emit_all_players s in
    _emit_current_player s.

Definition remove_player (name : str) (s : t) : t :=
  let norm := normalize_text name in
  let before := length (players s) in
  let s := with_players
             (filter (fun p => normalize_text (Player.name p) ≠ norm) (players s)) s in
  let removed := (Z.of_nat before - Z.of_nat (length (players s)))%Z in
  let s := if (0 <? removed)%Z then _notify info (msg_players_removed removed) s
           else _notify error (msg_player_not_found name) s in
  let s := with_current_idx (clamp_idx (current_idx s) (length (players s))) s in
  let s := _emit_all_players s in
  _emit_current_player s.

Definition start_game (now : Float.t) (s : t) : t :=
  match answer_list s with
  | None => _notify error msg_load_answer_list_first s
  | Some _ =>
    match players s with
    | [] => _notify error msg_no_players s
    | _ =>
      let s := with_players
                 ((fun p => Player.set_remaining_ms (Player.base_seconds p * 1000)
                              (Player.reset_runtime p)) <$> players s) s in
      let s := with_current_idx 0 s in
      let s := with_is_running true s in
      let s := with_last_tick (Some now) s in
      let s := _notify info msg_game_started s in
      let s := _emit_all_players s in
      let s := _emit_current_player s in
      let s := _emit_running_state s in
      let '(cp, s) := current_player s in
      match cp with
      | Some _ => _emit_player_state (Z.to_nat (current_idx s)) s
      | None => s
      end
    end
  end.

(** [list(set(class_map.values()))], sorted longest first.  The order
    in which a Python set is enumerated is unspecified; the loop below
    stops at the first non-empty value that prefixes the text, and two
    distinct values of one length cannot both prefix it, so the outcome
    does not depend on that order. *)
Definition class_values (al : AnswerList.t) : list str :=
  sort_by_len_desc (elements (map_img (AnswerList._class_map al) : gset str)).

(** The block of [host_submit_answer] that remembers a classification
    key, whether or not the answer was correct. *)
Definition remember_class (al : AnswerList.t) (matched_disp : option str)
    (t_norm : str) (s : t) : t :=
  match matched_disp with
  | Some ((_ :: _) as d) =>
    match AnswerList._class_map al !! d with
    | Some ((_ :: _) as cls_key) => with_last_answered_class (Some cls_key) s
    | _ => s
    end
  | _ =>
    match List.find (fun cv => Text.truthy cv && Text.startswith t_norm cv)
                    (class_values al) with
    | Some cv => with_last_answered_class (Some cv) s
    | None => s
    end
  end.

(** The branch of [host_submit_answer] taken when a match was found. *)
Definition accept_answer (i : nat) (al : AnswerList.t) (text answer_text : str)
    (prev_class matched_disp : option str) (s : t) : t :=
  let '(used_disp, al') := AnswerList.mark_used normalize_text al answer_text prev_class in
  let s := with_answer_list (Some al') s in
  let used_disp := match used_disp with
                   | Some d => Some d
                   | None => matched_disp
                   end in
  let s := match used_disp with
           | Some ((_ :: _) as d) =>
             if bool_decide (d ∈ _answered_order s) then s
             else with_answered_order (_answered_order s ++ [d]) s
           | _ => s
           end in
  let s := _emit_answers_updated s in
  let s := emit (SoundEvent sound_correct) s in
  let s := update_player i Player.reset_wrong_answers s in
  let s := match last (_answered_order s) with
           | Some d =>
             match AnswerList._class_map al' !! d with
             | Some ((_ :: _) as cls_key) => with_last_answered_class (Some cls_key) s
             | _ => s
             end
           | None => s
           end in
  let name := default [] (Player.name <$> players s !! i) in
  let s := _notify info (msg_correct name text) s in
  let s := _emit_player_state i s in
  _advance_turn_after_event correct s.

(** The branch of [host_submit_answer] taken when no match was found. *)
Definition reject_answer (i : nat) (text : str) (s : t) : t :=
  match players s !! i with
  | None => s
  | Some p =>
    let '(ok, p') := Player.consume_wrong_answer p in
    if ok then
      let s := update_player i (fun _ => p') s in
      let s := _notify info
                 (msg_wrong (Player.name p') text (Player.remaining_wrong_answers p')) s in
      let s := _emit_player_state i s in
      emit (SoundEvent sound_wrong) s
    else
      let s := update_player i Player.eliminate s in
      let s := _notify info (msg_wrong_limit (Player.name p)) s in
      let s := _emit_player_state i s in
      _advance_turn_after_event wrong_limit s
  end.

Definition host_submit_answer (text : str) (s : t) : t :=
  let '(p, s) := current_player s in
  match p with
  | None => _notify error msg_no_current_player s
  | Some _ =>
    match answer_list s with
    | None => _notify error msg_answer_list_not_loaded s
    | Some al =>
      let i := Z.to_nat (current_idx s) in
      let answer_text := extract_answer_text text in
      let prev_class := _last_answered_class s in
      let matched_disp := AnswerList.find_match normalize_text al answer_text prev_class in
      let is_correct := bool_decide (is_Some matched_disp) in
      let s := update_player i (Player.record_answer normalize_text text is_correct) s in
      let s := remember_class al matched_disp (normalize_text answer_text) s in
      let s := if is_correct
               then accept_answer i al text answer_text prev_class matched_disp s
               else reject_answer i text s in
      let s := _emit_all_players s in
      _emit_current_player s
    end
  end.

Definition host_pass (s : t) : t :=
  let '(p, s) := current_player s in
  match p with
  | None => _notify error msg_no_current_player s
  | Some p =>
    let i := Z.to_nat (current_idx s) in
    let '(ok, p') := Player.consume_pass p in
    let s :=
      if ok then
        let s := update_player i (fun _ => p') s in
        let s := _notify info
                   (msg_pass_used (Player.name p') (Player.remaining_passes p')) s in
        let s := _emit_player_state i s in
        _advance_turn_after_event pass s
      else _notify info msg_no_pass_left s in
    let s := _emit_all_players s in
    _emit_current_player s
  end.

(** Python's [list.remove]: drops the first occurrence only. *)
Fixpoint remove_first (x : str) (l : list str) : list str :=
  match l with
  | [] => []
  | y :: l' => if bool_decide (y = x) then l' else y :: remove_first x l'
  end.

Definition unmark_answer (display_key : str) (s : t) : bool * t :=
  match answer_list s with
  | None => (false, _notify error msg_answer_list_not_loaded s)
  | Some al =>
    if bool_decide (display_key ∈ AnswerList.used al) then
      let s := with_answer_list (Some (AnswerList.discard_used al display_key)) s in
      let s := if bool_decide (display_key ∈ _answered_order s)
               then with_answered_order (remove_first display_key (_answered_order s)) s
               else s in
      let s := _emit_answers_updated s in
      (true, _notify info (msg_unmarked display_key) s)
    else (false, _notify info (msg_not_answered display_key) s)
  end.

(** How a call ends: normally, or with an exception nothing in the
    controller catches; either way with the controller as the call
    leaves it. *)
Inductive outcome :=
| Returned (s : t)
| Raised_TypeError (s : t)
| Raised_ValueError (s : t)
| Raised_OverflowError (s : t).

Definition state_of (o : outcome) : t :=
  match o with
  | Returned s | Raised_TypeError s | Raised_ValueError s
  | Raised_OverflowError s => s
  end.

(** [tick]; [now] is what [time.monotonic()] returns.  The elapsed time
    is taken off the countdown as [int(elapsed * 1000)] milliseconds;
    [int] raises when the product is a NaN or an infinity, after the
    clock reference has been overwritten and [current_player] has
    run. *)
Definition tick (now : Float.t) (s : t) : outcome :=
  if negb (is_running s) then Returned s
  else
    match _last_tick_monotonic s with
    | None => Returned (with_last_tick (Some now) s)
    | Some last_tick =>
      let elapsed := Float.sub now last_tick in
      let s := with_last_tick (Some now) s in
      let '(p, s) := current_player s in
      match p with
      | None =>
        let s := _notify info msg_no_active_player s in
        let '(_, s) := _end_if_finished s in
        let s := _emit_all_players s in
        Returned (_emit_current_player s)
      | Some p =>
        let i := Z.to_nat (current_idx s) in
        match Float.to_int (Float.mul elapsed (Float.of_int 1000)) with
        | Float.ValueError => Raised_ValueError s
        | Float.OverflowError => Raised_OverflowError s
        | Float.Int elapsed_ms =>
          let ms := Z.max 0 (Player.remaining_ms p - elapsed_ms) in
          let s := update_player i (Player.set_remaining_ms ms) s in
          let s :=
            if (ms =? 0)%Z then
              let s := update_player i Player.eliminate s in
              let s := _notify info (msg_timeout (Player.name p)) s in
              let s := _emit_player_state i s in
              _advance_turn_after_event timeout s
            else _emit_player_state i s in
          let s := _emit_all_players s in
          Returned (_emit_current_player s)
        end
      end
    end.

(** [reorder_players_by_name].  [Player] is a plain [@dataclass]: it
    defines [__eq__] and is not frozen, so its instances are
    unhashable.  Past the first guard, the first membership test
    [p not in used] on the set [used] (in the loop over [names] at the
    first name that is found, else in the loop over [self.players] at
    its first player) raises [TypeError], before [self.players] is
    assigned. *)
Definition reorder_players_by_name (names : list str) (s : t) : outcome :=
  match names, players s with
  | [], _ | _, [] => Returned s
  | _, _ => Raised_TypeError s
  end.

Definition insert_at (k : nat) (p : Player.t) (ps : list Player.t) : list Player.t :=
  take k ps ++ p :: drop k ps.

Definition move_player (name : str) (target_index : Z) (s : t) : t :=
  let norm := normalize_text name in
  match list_find (fun p => normalize_text (Player.name p) = norm) (players s) with
  | None => _notify error (msg_player_not_found name) s
  | Some (orig_idx, p) =>
    let n := Z.of_nat (length (players s)) in
    let target_index := Z.max 0 (Z.min target_index n) in
    let ins := if (Z.of_nat orig_idx <? target_index)%Z
               then (target_index - 1)%Z else target_index in
    if (ins =? Z.of_nat orig_idx)%Z then s
    else
      let ps := delete orig_idx (players s) in
      let ins := Z.max 0 (Z.min ins (Z.of_nat (length ps))) in
      let s := with_players (insert_at (Z.to_nat ins) p ps) s in
      let s := with_current_idx (clamp_idx (current_idx s) (length (players s))) s in
      let s := _emit_all_players s in
      _emit_current_player s
  end.

Definition forfeit_player (name : str) (s : t) : t :=
  let norm := normalize_text name in
  match list_find (fun p => normalize_text (Player.name p) = norm) (players s) with
  | Some (i, p) =>
    let s := update_player i Player.eliminate s in
    let s := _notify info (msg_forfeit (Player.name p)) s in
    let s := _emit_player_state i s in
    let s := _advance_turn_after_event forfeit s in
    let s := _emit_all_players s in
    _emit_current_player s
  | None => _notify error (msg_player_not_found name) s
  end.

Definition skip_player (name : str) (s : t) : t :=
  let '(p, s) := current_player s in
  match p with
  | Some p =>
    if bool_decide (normalize_text (Player.name p) = normalize_text name) then
      let s := _notify info (msg_skipped (Player.name p)) s in
      _advance_turn_after_event skip s
    else _notify error msg_skip_not_current s
  | None => _notify error msg_skip_not_current s
  end.

(** The public operations, and the states they reach from a fresh
    controller. *)
Inductive op :=
| LoadCsv (rows : option (list (list str)))
| AddPlayer (pid name : str) (base_seconds pass_limit wrong_answer_limit : Z)
| RemovePlayer (name : str)
| StartGame (now : Float.t)
| StopGame
| HostSubmitAnswer (text : str)
| HostPass
| UnmarkAnswer (display_key : str)
| Tick (now : Float.t)
| ReorderPlayersByName (names : list str)
| MovePlayer (name : str) (target_index : Z)
| ForfeitPlayer (name : str)
| SkipPlayer (name : str).

Definition exec (o : op) (s : t) : t :=
  match o with
  | LoadCsv rows => load_csv rows s
  | AddPlayer pid name b p w => add_player pid name b p w s
  | RemovePlayer name => remove_player name s
  | StartGame now => start_game now s
  | StopGame => stop_game s
  | HostSubmitAnswer text => host_submit_answer text s
  | HostPass => host_pass s
  | UnmarkAnswer key => snd (unmark_answer key s)
  | Tick now => state_of (tick now s)
  | ReorderPlayersByName names => state_of (reorder_players_by_name names s)
  | MovePlayer name idx => move_player name idx s
  | ForfeitPlayer name => forfeit_player name s
  | SkipPlayer name => skip_player name s
  end.

Definition run (ops : list op) (s : t) : t := foldl (fun s o => exec o s) s ops.

Inductive reachable : t -> Prop :=
| reachable_init : reachable init
| reachable_exec o s : reachable s -> reachable (exec o s).

End WithNormalizer.

End GameController.

(** ** Vocabulary of the specification *)

Module Spec.

(** [r] is the first element of [l] that satisfies [P], or nothing when
    no element does. *)
Definition is_first {A} (P : A -> Prop) (l : list A) (r : option A) : Prop :=
  match r with
  | Some d => exists l1 l2, l = l1 ++ d :: l2 /\ P d /\ (forall x, x ∈ l1 -> ~ P x)
  | None => forall x, x ∈ l -> ~ P x
  end.

(** Full-form rule: the normalized input equals the entry's fullMatch. *)
Definition full_form (a : AnswerList.t) (t_norm d : str) : Prop :=
  AnswerList._match_map a !! d = Some t_norm.

(** Short-form rule in the specification's words: the normalized input
    equals the entry's elementKey and the given previousCategory equals
    the entry's categoryKey. *)
Definition short_form_spec (a : AnswerList.t) (t_norm : str) (prev : option str)
    (d : str) : Prop :=
  AnswerList._element_map a !! d = Some t_norm
  /\ exists c, prev = Some c /\ AnswerList._class_map a !! d = Some c.

(** Short-form rule as the source tests it: as above, for a
    previousCategory that is not the empty string. *)
Definition short_form (a : AnswerList.t) (t_norm : str) (prev : option str)
    (d : str) : Prop :=
  AnswerList._element_map a !! d = Some t_norm
  /\ exists c, c <> [] /\ prev = Some c /\ AnswerList._class_map a !! d = Some c.

Definition candidate (rule : AnswerList.t -> str -> option str -> str -> Prop)
    (a : AnswerList.t) (t_norm : str) (prev : option str) (d : str) : Prop :=
  (d ∉ AnswerList.used a) /\ (full_form a t_norm d \/ rule a t_norm prev d).

(** The empty string is not at once the previous category and the
    category key of an entry: a previous category, when given, is a
    category name, or else no entry of the catalog has the empty string
    as its category key. *)
Definition category_named (a : AnswerList.t) (prev : option str) : Prop :=
  prev <> Some []
  \/ forall d, d ∈ AnswerList.items a -> AnswerList._class_map a !! d <> Some [].

(** The text has an opening parenthesis somewhere before a closing one of
    the same kind. *)
Definition has_pair (opener closer : N) (text : str) : Prop :=
  exists i j, (i < j)%nat /\ text !! i = Some opener /\ text !! j = Some closer.

(** [ans] is what stands strictly between some opening parenthesis of
    [text] and some later closing one of the same kind. *)
Definition interior_of_a_pair (text ans : str) : Prop :=
  exists opener closer i j,
    ((opener = GameController.fw_open /\ closer = GameController.fw_close)
     \/ (opener = GameController.ascii_open /\ closer = GameController.ascii_close))
    /\ (i < j)%nat /\ text !! i = Some opener /\ text !! j = Some closer
    /\ ans = take (j - i - 1) (drop (S i) text).

(** The pair of characters [host_submit_answer] works with: the
    full-width one when the text holds both of its characters, else the
    ASCII one when the text holds both of its characters. *)
Definition paren_kind (text : str) : option (N * N) :=
  if decide (GameController.fw_open ∈ text /\ GameController.fw_close ∈ text)
  then Some (GameController.fw_open, GameController.fw_close)
  else if decide (GameController.ascii_open ∈ text /\ GameController.ascii_close ∈ text)
  then Some (GameController.ascii_open, GameController.ascii_close)
  else None.

(** "兵庫（あいおい）" and "あいおい" *)
Definition hyogo_aioi : str :=
  [20853; 24235; 65288; 12354; 12356; 12362; 12356; 65289]%N.
Definition aioi : str := [12354; 12356; 12362; 12356]%N.

(** A small game: a catalog of three entries in two categories, two
    players with one wrong answer allowed each, started at clock reading
    0.0. *)
Definition sample_rows : list (list str) :=
  [ [Text.lit "Hyogo"; Text.lit "hyogo"; Text.lit "Aioi"; Text.lit "aioi"];
    [Text.lit "Hyogo"; Text.lit "hyogo"; Text.lit "Kobe"; Text.lit "kobe"];
    [];
    [Text.lit "Osaka"; Text.lit "osaka"; Text.lit "Sakai"; Text.lit "sakai"] ].

Definition sample_setup : list GameController.op :=
  [ GameController.LoadCsv (Some sample_rows);
    GameController.AddPlayer (Text.lit "id1") (Text.lit "P1") 30 0 1;
    GameController.AddPlayer (Text.lit "id2") (Text.lit "P2") 30 0 1;
    GameController.StartGame (Float.of_int 0) ].

Definition sample_game : GameController.t :=
  GameController.run Text.normalize_ascii sample_setup GameController.init.

(** The floats 0.6, 0.7, 1.0, 1.5 and 40.0. *)
Definition float_0_6 : Float.t := S754_finite false 5404319552844595 (-53).
Definition float_0_7 : Float.t := S754_finite false 6305039478318694 (-53).
Definition float_1_0 : Float.t := S754_finite false 4503599627370496 (-52).
Definition float_1_5 : Float.t := S754_finite false 6755399441055744 (-52).
Definition float_40_0 : Float.t := S754_finite false 5629499534213120 (-47).

(** Clock readings after the start of the sample game: the third one is
    past the 30 seconds of the first player. *)
Definition sample_readings : list Float.t := [float_1_0; float_1_5; float_40_0].

(** The sample game after a tick at clock reading 0.6. *)
Definition sample_game_0_6 : GameController.t :=
  GameController.state_of (GameController.tick float_0_6 sample_game).

(** consumed ⊆ entries: every display key in [used] is in [items]. *)
Definition used_in_items (a : AnswerList.t) : Prop :=
  forall d, d ∈ AnswerList.used a -> d ∈ AnswerList.items a.

(** The same, for the catalog a controller holds (if any). *)
Definition catalog_ok (s : GameController.t) : Prop :=
  match GameController.answer_list s with
  | Some a => used_in_items a
  | None => True
  end.

(** A reading of the monotonic clock: a finite float that is not below
    the reading before it. *)
Definition reading (clock : option Float.t) (now : Float.t) : Prop :=
  Float.is_finite now = true
  /\ match clock with Some c => Float.leb c now = true | None => True end.

(** Successive readings of the monotonic clock: none is below the one
    before it, the first none below the stored reference. *)
Fixpoint clock_readings (last : option Float.t) (nows : list Float.t) : Prop :=
  match nows with
  | [] => True
  | now :: rest => reading last now /\ clock_readings (Some now) rest
  end.

(** Every player has a non-negative time allotment and a non-negative
    countdown, as is the case once [start_game] has run on players whose
    allotment is not negative. *)
Definition countdowns_ok (s : GameController.t) : Prop :=
  forall j p, GameController.players s !! j = Some p ->
    (0 <= Player.base_seconds p)%Z /\ (0 <= Player.remaining_ms p)%Z.

(** Whose turn it is: the roster position [current_player] settles on,
    if it finds a player. *)
Definition turn (s : GameController.t) : option nat :=
  let '(p, s1) := GameController.current_player s in
  match p with
  | Some _ => Some (Z.to_nat (GameController.current_idx s1))
  | None => None
  end.

(** From [s] to [s'], the turn of the player at position [j] starts: it
    was the turn of the player at another position [i], who is now
    eliminated with the countdown at zero, and it is now the turn of
    [j]. *)
Definition turn_starts (s s' : GameController.t) (j : nat) : Prop :=
  turn s' = Some j
  /\ exists i q,
       turn s = Some i /\ i <> j
       /\ GameController.players s' !! i = Some q
       /\ Player.eliminated q = true
       /\ Player.remaining_ms q = 0%Z.

(** From [s] to [s']: the roster keeps its length and, position by
    position, a countdown is not negative and either has not increased or
    is that of the player whose turn has just started: it then equals
    [base_seconds * 1000]. *)
Definition countdown_step (s s' : GameController.t) : Prop :=
  length (GameController.players s') = length (GameController.players s)
  /\ forall j p q,
       GameController.players s !! j = Some p ->
       GameController.players s' !! j = Some q ->
       (0 <= Player.remaining_ms q)%Z
       /\ ((Player.remaining_ms q <= Player.remaining_ms p)%Z
           \/ (Player.remaining_ms q = (Player.base_seconds q * 1000)%Z
               /\ turn_starts s s' j)).

(** What a run of operations is assumed to be given: time allotments that
    are not negative, and clock readings none of which is below the one
    before it ([clock] is the latest reading so far). *)
Definition valid_op (clock : option Float.t) (o : GameController.op) : Prop :=
  match o with
  | GameController.AddPlayer _ _ base_seconds _ _ => (0 <= base_seconds)%Z
  | GameController.StartGame now | GameController.Tick now => reading clock now
  | _ => True
  end.

Definition clock_after (clock : option Float.t) (o : GameController.op)
    : option Float.t :=
  match o with
  | GameController.StartGame now | GameController.Tick now => Some now
  | _ => clock
  end.

Fixpoint valid_run (clock : option Float.t) (ops : list GameController.op) : Prop :=
  match ops with
  | [] => True
  | o :: rest => valid_op clock o /\ valid_run (clock_after clock o) rest
  end.

Definition clock_of (clock : option Float.t) (ops : list GameController.op)
    : option Float.t :=
  foldl clock_after clock ops.

(** The stored clock reference is a reading that was made, hence a
    finite float not above the latest one. *)
Definition clock_ok (clock : option Float.t) (s : GameController.t) : Prop :=
  forall last, GameController._last_tick_monotonic s = Some last ->
    Float.is_finite last = true
    /\ exists c, clock = Some c /\ Float.leb last c = true.

(** The controller after each of a sequence of [tick] calls. *)
Fixpoint ticks (nows : list Float.t) (s : GameController.t)
    : list GameController.t :=
  match nows with
  | [] => []
  | now :: rest =>
    let s' := GameController.state_of (GameController.tick now s) in
    s' :: ticks rest s'
  end.

(** [R] relates each state of the sequence to the next, starting from
    [s]. *)
Fixpoint all_steps (R : GameController.t -> GameController.t -> Prop)
    (s : GameController.t) (l : list GameController.t) : Prop :=
  match l with
  | [] => True
  | s' :: l' => R s s' /\ all_steps R s' l'
  end.

(** The chronology names no display key twice, and only keys that the
    loaded catalog holds as consumed. *)
Definition chronology_ok (s : GameController.t) : Prop :=
  NoDup (GameController._answered_order s)
  /\ forall d, d ∈ GameController._answered_order s ->
       exists al, GameController.answer_list s = Some al /\ d ∈ AnswerList.used al.

(** Two controller states hold the same catalog and the same
    chronology. *)
Definition same_catalog (s s' : GameController.t) : Prop :=
  GameController.answer_list s' = GameController.answer_list s
  /\ GameController._answered_order s' = GameController._answered_order s.

(** A cell as the file format intends it: not empty and without
    surrounding white space. *)
Definition wf_cell (c : str) : bool :=
  Text.truthy c && bool_decide (Text.strip c = c).

(** The cells of the row come in (display, match) pairs of well-formed
    cells. *)
Fixpoint paired (row : list str) : bool :=
  match row with
  | [] => true
  | [_] => false
  | d :: m :: rest => wf_cell d && wf_cell m && paired rest
  end.

(** A data row: at least one pair, nothing but pairs. *)
Definition wf_row (row : list str) : Prop :=
  row <> [] /\ paired row = true.

(** A file that lists one entry twice before the separator and once more
    after it. *)
Definition repeated_rows : list (list str) :=
  [ [Text.lit "Aioi"; Text.lit "aioi"];
    [Text.lit "Aioi"; Text.lit "aioi"];
    [];
    [Text.lit "Aioi"; Text.lit "aioi"] ].

(** The active player and the catalog of the sample game. *)
Definition sample_active : Player.t :=
  default (Player.new [] [] 0 0 0)
    (fst (GameController.current_player sample_game)).

(** The same game with one pass allowed to each player, and its active
    player. *)
Definition pass_setup : list GameController.op :=
  [ GameController.LoadCsv (Some sample_rows);
    GameController.AddPlayer (Text.lit "id1") (Text.lit "P1") 30 1 1;
    GameController.AddPlayer (Text.lit "id2") (Text.lit "P2") 30 1 1;
    GameController.StartGame (Float.of_int 0) ].

Definition pass_game : GameController.t :=
  GameController.run Text.normalize_ascii pass_setup GameController.init.

Definition pass_active : Player.t :=
  default (Player.new [] [] 0 0 0)
    (fst (GameController.current_player pass_game)).

Definition sample_catalog : AnswerList.t :=
  default AnswerList.empty (GameController.answer_list sample_game).

Section WithNormalizer.

Variable normalize_text : str -> str.

(** The display key [load_from_csv] derives from a data row. *)
Definition key_of (row : list str) : str :=
  normalize_text (Text.join [45%N] (AnswerList.every_other row)).

(** A well-formed file with a separator: data rows [pre], a separator
    row [sep], data rows [post]; every data row is well formed and has
    a non-empty display key, and no two of them have the same key. *)
Definition wf_file (pre : list (list str)) (sep : list str)
    (post : list (list str)) : Prop :=
  Forall wf_row (pre ++ post)
  /\ Forall (fun row => key_of row <> []) (pre ++ post)
  /\ NoDup (key_of <$> (pre ++ post))
  /\ AnswerList.is_separator sep = true.

(** The operation does not load a file whose rows give one display key
    twice to [items]. *)
Definition loads_distinct_items (o : GameController.op) : Prop :=
  match o with
  | GameController.LoadCsv (Some rows) =>
    NoDup (AnswerList.items (AnswerList.load_from_csv normalize_text rows))
  | _ => True
  end.

(** The three grounds on which a player name is refused. *)
Definition name_refused (name : str) (s : GameController.t) : Prop :=
  name = [] \/ (60 < length name)%nat
  \/ exists p, p ∈ GameController.players s
               /\ normalize_text (Player.name p) = normalize_text name.

(** An operation failed: it emitted one error notification and changed
    nothing else. *)
Definition failed (s s' : GameController.t) : Prop :=
  exists msg, s' = GameController.emit
                     (GameController.Notification GameController.error msg) s.

End WithNormalizer.

End Spec.

(** ** Vocabulary of the further properties *)

Module Invariants.

(** The sign of a float is not the negative one (a NaN has none). *)
Definition not_negative (x : Float.t) : Prop :=
  match x with
  | S754_infinity s | S754_finite s _ _ => s = false
  | _ => True
  end.

(** Every entry of the catalog has a non-empty display key, an entry in
    each of the four maps, and at least one display and one match fragment
    stored for writing it back. *)
Definition stored (a : AnswerList.t) : Prop :=
  forall d, d ∈ AnswerList.items a ->
    d <> []
    /\ is_Some (AnswerList._match_map a !! d)
    /\ is_Some (AnswerList._class_map a !! d)
    /\ is_Some (AnswerList._element_map a !! d)
    /\ exists ds ms, AnswerList._display_map a !! d = Some (ds, ms)
                     /\ ds <> [] /\ ms <> [].

(** [stored], together with the fact that only entries have rows stored
    for them; this is what the two loops of [load_from_csv] keep. *)
Definition stored_tight (a : AnswerList.t) : Prop :=
  stored a
  /\ forall k, k ∉ AnswerList.items a -> AnswerList._display_map a !! k = None.

(** No string of the list is longer than one before it. *)
Fixpoint longest_first (l : list str) : Prop :=
  match l with
  | [] => True
  | a :: l' => (forall b, b ∈ l' -> (length b <= length a)%nat) /\ longest_first l'
  end.

(** [current_idx] is a position of the roster, or 0 when the roster is
    empty. *)
Definition idx_ok (s : GameController.t) : Prop :=
  (0 <= GameController.current_idx s
   <= Z.max 0 (Z.of_nat (length (GameController.players s)) - 1))%Z.

(** Both budgets of a player lie between 0 and their limit. *)
Definition budgets_ok (p : Player.t) : Prop :=
  (0 <= Player.remaining_passes p <= Player.pass_limit p)%Z
  /\ (0 <= Player.remaining_wrong_answers p <= Player.wrong_answer_limit p)%Z.

(** What a player is registered with. *)
Definition config (p : Player.t) : str * str * Z * Z * Z :=
  (Player.id p, Player.name p, Player.base_seconds p, Player.pass_limit p,
   Player.wrong_answer_limit p).

(** What a turn of the game changes about a player, the countdown
    apart. *)
Definition standing (p : Player.t)
    : Z * Z * bool * list Player.AnswerRecord * list Player.AnswerRecord :=
  (Player.remaining_passes p, Player.remaining_wrong_answers p,
   Player.eliminated p, Player.correct_answers p, Player.wrong_answers p).

(** The two limits given to [add_player] are not negative. *)
Definition limits_ok (o : GameController.op) : Prop :=
  match o with
  | GameController.AddPlayer _ _ _ pass_limit wrong_answer_limit =>
    (0 <= pass_limit)%Z /\ (0 <= wrong_answer_limit)%Z
  | _ => True
  end.

(** The operations that change who is in the roster, or in which
    order. *)
Definition edits_roster (o : GameController.op) : bool :=
  match o with
  | GameController.AddPlayer _ _ _ _ _ | GameController.RemovePlayer _
  | GameController.MovePlayer _ _ => true
  | _ => false
  end.

(** What the callbacks have last been told: the roster last handed to
    [on_all_players] (none yet: the empty roster the UI starts with), the
    name last handed to [on_current_player], the flag last handed to
    [on_running_state]. *)
Definition last_roster (evs : list GameController.event) : list Player.t :=
  foldl (fun acc e => match e with GameController.AllPlayers ps => ps | _ => acc end)
        [] evs.

Definition last_current (evs : list GameController.event) : option str :=
  foldl (fun acc e => match e with GameController.CurrentPlayer n => n | _ => acc end)
        None evs.

Definition last_running (evs : list GameController.event) : bool :=
  foldl (fun acc e => match e with GameController.RunningState b => b | _ => acc end)
        false evs.

Definition roster_shown (s : GameController.t) : Prop :=
  last_roster (GameController.events s) = GameController.players s.

Definition current_shown (s : GameController.t) : Prop :=
  last_current (GameController.events s)
  = Player.name <$> fst (GameController.current_player s).

Definition running_shown (s : GameController.t) : Prop :=
  last_running (GameController.events s) = GameController.is_running s.

(** The UI and the controller agree on the roster, on whose turn it is
    and on whether the game runs. *)
Definition in_sync (s : GameController.t) : Prop :=
  roster_shown s /\ current_shown s /\ running_shown s.

(** The category the controller remembers is not the empty string. *)
Definition class_named (s : GameController.t) : Prop :=
  GameController._last_answered_class s <> Some [].

(** A running game has a catalog and a clock reference. *)
Definition ready (s : GameController.t) : Prop :=
  GameController.is_running s = true ->
  is_Some (GameController.answer_list s)
  /\ is_Some (GameController._last_tick_monotonic s).

(** The game is not over: some player is not eliminated and, when a
    catalog is loaded, some entry of it remains. *)
Definition goes_on (s : GameController.t) : Prop :=
  (exists p, p ∈ GameController.players s /\ Player.eliminated p = false)
  /\ (forall al, GameController.answer_list s = Some al ->
                 AnswerList.remaining al <> []).

(** [j] is the first position after [cur], in cyclic order, that holds a
    player who is not eliminated; going round the whole roster, [cur]
    itself comes last. *)
Definition next_active (ps : list Player.t) (cur : Z) (j : nat) : Prop :=
  let n := Z.of_nat (length ps) in
  exists i, (1 <= i <= n)%Z /\ Z.of_nat j = ((cur + i) mod n)%Z
    /\ (exists p, ps !! j = Some p /\ Player.eliminated p = false)
    /\ forall k, (1 <= k < i)%Z ->
         exists q, ps !! Z.to_nat ((cur + k) mod n) = Some q
                   /\ Player.eliminated q = true.

(** [cv] is a category key of the catalog, not empty, with which the
    text starts. *)
Definition class_prefix (al : AnswerList.t) (t_norm cv : str) : Prop :=
  (exists d, AnswerList._class_map al !! d = Some cv)
  /\ cv <> [] /\ Text.startswith t_norm cv = true.

Section WithNormalizer.

Variable normalize_text : str -> str.

(** The display keys of the rows that [load_from_csv] does not skip, in
    the order of the rows. *)
Definition keys_of_rows (rows : list (list str)) : list str :=
  omap (fun row => fst <$> AnswerList.parse_row normalize_text row) rows.

(** No two players have the same name up to normalization, and every
    name has between 1 and 60 characters. *)
Definition names_ok (s : GameController.t) : Prop :=
  NoDup ((fun p => normalize_text (Player.name p)) <$> GameController.players s)
  /\ forall p, p ∈ GameController.players s ->
       Player.name p <> [] /\ (length (Player.name p) <= 60)%nat.

End WithNormalizer.

End Invariants.

(** * Properties *)

(** ** The catalog *)

Module AnswerListFacts.
Import AnswerList Spec.

Section WithNormalizer.

Variable normalize_text : str -> str.

Lemma short_rule_reflect (a : t) (t_norm : str) (prev : option str) (d : str) :
  match prev with
  | Some pc =>
    Text.truthy pc
    && bool_decide (Some t_norm = _element_map a !! d)
    && bool_decide (Some pc = _class_map a !! d)
  | None => false
  end = true <-> short_form a t_norm prev d.
Proof.
  unfold short_form. destruct prev as [pc|]; split.
  - rewrite !andb_true_iff, !bool_decide_eq_true. intros [[Ht He] Hc].
    split; [done|]. exists pc. destruct pc; naive_solver.
  - intros [He (c & Hne & [= ->] & Hc)].
    rewrite !andb_true_iff, !bool_decide_eq_true. destruct c; naive_solver.
  - discriminate.
  - intros [_ (c & _ & ? & _)]. discriminate.
Qed.

Lemma find_match_loop_first (a : t) (t_norm : str) (prev : option str) (l : list str) :
  is_first (candidate short_form a t_norm prev) l (find_match_loop a t_norm prev l).
Proof.
  induction l as [|d l IH]; simpl.
  - intros x Hx. by apply elem_of_nil in Hx.
  - assert (Hskip : ~ candidate short_form a t_norm prev d ->
              is_first (candidate short_form a t_norm prev) (d :: l)
                (find_match_loop a t_norm prev l)).
    { intros Hn. destruct (find_match_loop a t_norm prev l) as [r|]; simpl in *.
      - destruct IH as (l1 & l2 & -> & Hr & Hbefore).
        exists (d :: l1), l2. split; [done|]. split; [done|].
        intros x [->|Hx]%elem_of_cons; auto.
      - intros x [->|Hx]%elem_of_cons; auto. }
    case_bool_decide as Hused.
    { apply Hskip. intros [Hnot _]. done. }
    case_bool_decide as Hfull.
    { exists [], l. split; [done|]. split.
      - split; [done|]. left. done.
      - intros x Hx. by apply elem_of_nil in Hx. }
    destruct (match prev with Some pc => _ | None => false end) eqn:Hshort.
    { apply short_rule_reflect in Hshort.
      exists [], l. split; [done|]. split.
      - split; [done|]. by right.
      - intros x Hx. by apply elem_of_nil in Hx. }
    apply Hskip. intros [_ [Hf|Hs]].
    + by apply Hfull.
    + apply short_rule_reflect in Hs. congruence.
Qed.

Lemma find_match_loop_elem (a : t) (t_norm : str) (prev : option str)
    (l : list str) (d : str) :
  find_match_loop a t_norm prev l = Some d -> d ∈ l.
Proof.
  intros H. pose proof (find_match_loop_first a t_norm prev l) as Hf.
  rewrite H in Hf. destruct Hf as (l1 & l2 & -> & _). set_solver.
Qed.

Lemma add_unanswered_ok (acc : t) (row : list str) :
  used_in_items acc -> used_in_items (add_unanswered normalize_text acc row).
Proof.
  unfold used_in_items, add_unanswered. intros H.
  destruct (parse_row _ _) as [[d [ds ms]]|]; [|done]. simpl.
  intros x Hx. apply elem_of_app. left. by apply H.
Qed.

Lemma add_answered_ok (acc : t) (row : list str) :
  used_in_items acc -> used_in_items (add_answered normalize_text acc row).
Proof.
  unfold used_in_items, add_answered. intros H.
  destruct (parse_row _ _) as [[d [ds ms]]|]; [|done]. simpl.
  intros x [->%elem_of_singleton|Hx]%elem_of_union.
  - case_bool_decide; [done|]. apply elem_of_app. right. by left.
  - case_bool_decide; [by apply H|]. apply elem_of_app. left. by apply H.
Qed.

Lemma foldl_ok (f : t -> list str -> t) (rows : list (list str)) (acc : t) :
  (forall acc row, used_in_items acc -> used_in_items (f acc row)) ->
  used_in_items acc -> used_in_items (foldl f acc rows).
Proof.
  intros Hf. revert acc. induction rows as [|row rows IH]; intros acc H; simpl.
  - done.
  - apply IH, Hf, H.
Qed.

Lemma load_from_csv_ok (rows : list (list str)) :
  used_in_items (load_from_csv normalize_text rows).
Proof.
  unfold load_from_csv.
  assert (H0 : used_in_items empty).
  { intros d Hd. by apply not_elem_of_empty in Hd. }
  destruct (separator_idx rows) as [i|]; simpl.
  - apply foldl_ok; [apply add_answered_ok|].
    apply foldl_ok; [apply add_unanswered_ok|done].
  - apply foldl_ok; [apply add_unanswered_ok|done].
Qed.

Lemma mark_used_ok (a : t) (text : str) (prev : option str) :
  used_in_items a -> used_in_items (snd (mark_used normalize_text a text prev)).
Proof.
  unfold mark_used, find_match. intros H.
  destruct (find_match_loop _ _ _ _) as [d|] eqn:Hd; [|done].
  destruct (Text.truthy d); [|done]. simpl.
  intros x [->%elem_of_singleton|Hx]%elem_of_union.
  - by eapply find_match_loop_elem.
  - by apply H.
Qed.

Lemma mark_used_some (a : t) (text : str) (prev : option str) (d : str) :
  fst (mark_used normalize_text a text prev) = Some d ->
  d ∈ used (snd (mark_used normalize_text a text prev)).
Proof.
  unfold mark_used. destruct (find_match _ _ _ _) as [m|]; [|done].
  destruct (Text.truthy m); [|done]. simpl. intros [= ->].
  apply elem_of_union. left. by apply elem_of_singleton.
Qed.

Lemma mark_used_found (a : t) (text : str) (prev : option str) (d : str) :
  find_match normalize_text a text prev = Some d -> d <> [] ->
  fst (mark_used normalize_text a text prev) = Some d.
Proof. unfold mark_used. intros -> Hne. by destruct d. Qed.

Lemma mark_used_keeps (a : t) (text : str) (prev : option str) (x : str) :
  x ∈ used a -> x ∈ used (snd (mark_used normalize_text a text prev)).
Proof.
  unfold mark_used. intros Hx. destruct (find_match _ _ _ _) as [m|]; [|done].
  destruct (Text.truthy m); [|done]. simpl. apply elem_of_union. by right.
Qed.

Lemma discard_used_ok (a : t) (key : str) :
  used_in_items a -> used_in_items (discard_used a key).
Proof.
  unfold used_in_items, discard_used. simpl.
  intros H d [Hd _]%elem_of_difference. by apply H.
Qed.

(** *** Loading and saving *)

Lemma paired_pairs (P : list str -> Prop) :
  P [] ->
  (forall d m rest,
      wf_cell d = true -> wf_cell m = true -> paired rest = true ->
      P rest -> P (d :: m :: rest)) ->
  forall row, paired row = true -> P row.
Proof.
  intros Hnil Hstep.
  assert (H : forall n row, length row <= n -> paired row = true -> P row).
  { induction n as [|n IH]; intros row Hlen Hp.
    - destruct row; [done|simpl in Hlen; lia].
    - destruct row as [|d [|m rest]]; [done|done|].
      simpl in Hp. apply andb_true_iff in Hp as [[Hd Hm]%andb_true_iff Hrest].
      apply Hstep; [done..|]. apply IH; [simpl in Hlen; lia|done]. }
  intros row. by apply (H (length row)).
Qed.

Lemma wf_cell_strip (c : str) :
  wf_cell c = true -> Text.strip c = c /\ Text.truthy c = true.
Proof.
  unfold wf_cell. intros [Ht Hs]%andb_true_iff.
  by apply bool_decide_eq_true in Hs.
Qed.

Lemma filter_strip_cons (c : str) (l : list str) :
  wf_cell c = true ->
  filter (fun c => Is_true (Text.truthy c)) (Text.strip <$> c :: l)
  = c :: filter (fun c => Is_true (Text.truthy c)) (Text.strip <$> l).
Proof.
  intros [Hs Ht]%wf_cell_strip. rewrite fmap_cons, Hs.
  rewrite filter_cons_True; [done|]. by rewrite Ht.
Qed.

(** What a well-formed row is parsed into, and rebuilt from. *)
Lemma paired_fragments (row : list str) :
  paired row = true ->
  displays_of row = every_other row
  /\ matches_of row = every_other (tail row)
  /\ rebuild_row (every_other row) (every_other (tail row)) = row.
Proof.
  unfold displays_of, matches_of. revert row.
  apply (paired_pairs (fun row =>
    filter (fun c => Is_true (Text.truthy c)) (Text.strip <$> every_other row)
      = every_other row
    /\ filter (fun c => Is_true (Text.truthy c)) (Text.strip <$> every_other (tail row))
      = every_other (tail row)
    /\ rebuild_row (every_other row) (every_other (tail row)) = row)); [done|].
  intros d m rest H H0 _ (Hd & Hm & Hr).
  cbn [every_other tail].
  rewrite filter_strip_cons by done. rewrite Hd.
  split; [done|].
  destruct rest as [|d' rest'].
  - cbn [tail every_other]. by rewrite filter_strip_cons by done.
  - cbn [tail] in Hm, Hr.
    change (every_other (m :: d' :: rest')) with (m :: every_other rest').
    rewrite filter_strip_cons by done. rewrite Hm.
    split; [done|]. cbn [rebuild_row]. by rewrite Hr.
Qed.

Lemma parse_row_wf (row : list str) :
  wf_row row -> key_of normalize_text row <> [] ->
  parse_row normalize_text row
  = Some (key_of normalize_text row, (every_other row, every_other (tail row))).
Proof.
  intros [Hne Hp] Hkey. unfold parse_row.
  destruct (paired_fragments row Hp) as (-> & -> & _).
  destruct row as [|d [|m rest]]; [done|done|].
  unfold key_of in *. cbn [every_other tail] in *.
  destruct (normalize_text _) eqn:Hn; [done|].
  by destruct rest.
Qed.

Lemma wf_row_not_separator (row : list str) :
  wf_row row -> is_separator row = false.
Proof.
  intros [Hne Hp]. destruct row as [|d [|m rest]]; [done|done|].
  simpl in Hp. apply andb_true_iff in Hp as [[Hd _]%andb_true_iff _].
  apply wf_cell_strip in Hd as [Hs Ht]. simpl. by rewrite Hs, Ht.
Qed.

Lemma separator_idx_found (pre post : list (list str)) (sep : list str) :
  Forall wf_row pre -> is_separator sep = true ->
  separator_idx (pre ++ sep :: post) = Some (length pre).
Proof.
  intros Hpre Hsep. unfold separator_idx.
  induction Hpre as [|row pre Hrow Hpre IH]; simpl.
  - destruct (decide (is_separator sep)) as [_|Hs]; [done|].
    by rewrite Hsep in Hs.
  - destruct (decide (is_separator row)) as [Hs|_].
    { by rewrite (wf_row_not_separator row Hrow) in Hs. }
    destruct (list_find _ (pre ++ sep :: post)) as [[i r]|]; [|done].
    simpl in *. by injection IH as ->.
Qed.

Lemma add_unanswered_wf (acc : t) (row : list str) :
  wf_row row -> key_of normalize_text row <> [] ->
  let acc' := add_unanswered normalize_text acc row in
  items acc' = items acc ++ [key_of normalize_text row]
  /\ used acc' = used acc
  /\ _display_map acc' =
     <[key_of normalize_text row := (every_other row, every_other (tail row))]>
       (_display_map acc).
Proof.
  intros Hwf Hkey. unfold add_unanswered. by rewrite parse_row_wf.
Qed.

Lemma add_answered_wf (acc : t) (row : list str) :
  wf_row row -> key_of normalize_text row <> [] ->
  key_of normalize_text row ∉ items acc ->
  _display_map acc !! key_of normalize_text row = None ->
  let acc' := add_answered normalize_text acc row in
  items acc' = items acc ++ [key_of normalize_text row]
  /\ used acc' = {[key_of normalize_text row]} ∪ used acc
  /\ _display_map acc' =
     <[key_of normalize_text row := (every_other row, every_other (tail row))]>
       (_display_map acc).
Proof.
  intros Hwf Hkey Hfresh Hnone. unfold add_answered. rewrite parse_row_wf by done.
  cbv zeta. rewrite bool_decide_false by done. by rewrite Hnone.
Qed.

(** The rows before the separator. *)
Lemma fold_unanswered (rows : list (list str)) (acc : t) :
  Forall wf_row rows ->
  Forall (fun row => key_of normalize_text row <> []) rows ->
  let acc' := foldl (add_unanswered normalize_text) acc rows in
  items acc' = items acc ++ (key_of normalize_text <$> rows)
  /\ used acc' = used acc
  /\ (forall k, k ∉ key_of normalize_text <$> rows ->
                _display_map acc' !! k = _display_map acc !! k)
  /\ (NoDup (key_of normalize_text <$> rows) ->
      forall r, r ∈ rows ->
        _display_map acc' !! key_of normalize_text r
        = Some (every_other r, every_other (tail r))).
Proof.
  intros Hwf. revert acc.
  induction Hwf as [|row rows Hrow Hrows IH]; intros acc Hkeys; simpl.
  { rewrite app_nil_r. split; [done|]. split; [done|]. split; [done|].
    intros _ r Hr. by apply elem_of_nil in Hr. }
  apply Forall_cons in Hkeys as [Hkey Hkeys].
  destruct (add_unanswered_wf acc row Hrow Hkey) as (Hi & Hu & Hd).
  destruct (IH (add_unanswered normalize_text acc row) Hkeys)
    as (Hi' & Hu' & Hd' & Hl').
  cbv zeta in *. rewrite Hi', Hu', Hi, Hu.
  split; [by rewrite <- app_assoc|]. split; [done|]. split.
  - intros k [Hne Hk]%not_elem_of_cons.
    rewrite Hd' by done. rewrite Hd. by apply lookup_insert_ne.
  - intros [Hfresh Hnd]%NoDup_cons r [->|Hr]%elem_of_cons.
    + rewrite Hd' by done. rewrite Hd. apply lookup_insert_eq.
    + by apply Hl'.
Qed.

(** The rows after the separator, when their keys are new. *)
Lemma fold_answered (rows : list (list str)) (acc : t) :
  Forall wf_row rows ->
  Forall (fun row => key_of normalize_text row <> []) rows ->
  NoDup (key_of normalize_text <$> rows) ->
  (forall k, k ∈ key_of normalize_text <$> rows -> k ∉ items acc) ->
  (forall k, k ∉ items acc -> _display_map acc !! k = None) ->
  let acc' := foldl (add_answered normalize_text) acc rows in
  items acc' = items acc ++ (key_of normalize_text <$> rows)
  /\ used acc' = list_to_set (key_of normalize_text <$> rows) ∪ used acc
  /\ (forall k, k ∉ key_of normalize_text <$> rows ->
                _display_map acc' !! k = _display_map acc !! k)
  /\ (forall r, r ∈ rows ->
        _display_map acc' !! key_of normalize_text r
        = Some (every_other r, every_other (tail r))).
Proof.
  intros Hwf. revert acc.
  induction Hwf as [|row rows Hrow Hrows IH]; intros acc Hkeys Hnd Hnew Hdom; simpl.
  { rewrite app_nil_r. split; [done|]. split; [set_solver|]. split; [done|].
    intros r Hr. by apply elem_of_nil in Hr. }
  apply Forall_cons in Hkeys as [Hkey Hkeys].
  apply NoDup_cons in Hnd as [Hfresh Hnd].
  assert (Hk : key_of normalize_text row ∉ items acc)
    by (apply Hnew; left).
  destruct (add_answered_wf acc row Hrow Hkey Hk (Hdom _ Hk)) as (Hi & Hu & Hd).
  destruct (IH (add_answered normalize_text acc row) Hkeys Hnd)
    as (Hi' & Hu' & Hd' & Hl').
  { intros k Hin. rewrite Hi. intros [?| ->%list_elem_of_singleton]%elem_of_app.
    - by apply (Hnew k); [right|].
    - done. }
  { intros k. rewrite Hi, Hd. intros [Hni Hne%not_elem_of_cons]%not_elem_of_app.
    rewrite lookup_insert_ne by naive_solver. by apply Hdom. }
  cbv zeta in *. rewrite Hi', Hu', Hi, Hu.
  split; [by rewrite <- app_assoc|]. split; [set_solver|]. split.
  - intros k [Hne Hkn]%not_elem_of_cons.
    rewrite Hd' by done. rewrite Hd. by apply lookup_insert_ne.
  - intros r [->|Hr]%elem_of_cons.
    + rewrite Hd' by done. rewrite Hd. apply lookup_insert_eq.
    + by apply Hl'.
Qed.

Lemma filter_all {A} (P : A -> Prop) {Hdec : forall x, Decision (P x)} (l : list A) :
  (forall x, x ∈ l -> P x) -> filter P l = l.
Proof.
  induction l as [|x l IH]; intros H; [done|].
  rewrite filter_cons_True by (apply H; left). rewrite IH; [done|].
  intros y Hy. apply H. by right.
Qed.

Lemma filter_none {A} (P : A -> Prop) {Hdec : forall x, Decision (P x)} (l : list A) :
  (forall x, x ∈ l -> ~ P x) -> filter P l = [].
Proof.
  induction l as [|x l IH]; intros H; [done|].
  rewrite filter_cons_False by (apply H; left). apply IH.
  intros y Hy. apply H. by right.
Qed.

Lemma rows_rebuilt (a : t) (rows : list (list str)) :
  Forall wf_row rows ->
  (forall r, r ∈ rows ->
     _display_map a !! key_of normalize_text r
     = Some (every_other r, every_other (tail r))) ->
  row_of a <$> (key_of normalize_text <$> rows) = rows.
Proof.
  intros Hwf. induction Hwf as [|row rows [_ Hp] Hrows IH]; intros Hl; [done|].
  rewrite !fmap_cons, IH by (intros r Hr; apply Hl; by right).
  unfold row_of. rewrite (Hl row) by left.
  by destruct (paired_fragments row Hp) as (_ & _ & ->).
Qed.

(** Saving the catalog loaded from a well-formed file gives back the
    rows before the separator, in order and cell for cell, then one
    empty row, then the rows after the separator, likewise; a separator
    made of blank cells is written back as the empty row. *)
Lemma save_load_any_separator (pre post : list (list str)) (sep : list str) :
  wf_file normalize_text pre sep post ->
  save_to_csv (load_from_csv normalize_text (pre ++ sep :: post))
  = pre ++ [] :: post.
Proof.
  intros (Hwf & Hkeys & Hnd & Hsep).
  apply Forall_app in Hwf as [Hwf1 Hwf2].
  apply Forall_app in Hkeys as [Hk1 Hk2].
  rewrite fmap_app in Hnd. apply NoDup_app in Hnd as (Hnd1 & Hdisj & Hnd2).
  unfold load_from_csv. rewrite separator_idx_found by done.
  cbn [default from_option id]. rewrite take_app_length.
  replace (drop (S (length pre)) (pre ++ sep :: post)) with post.
  2:{ rewrite (cons_middle sep pre post), app_assoc. symmetry.
      apply drop_app_length'. rewrite length_app. simpl. lia. }
  destruct (fold_unanswered pre empty Hwf1 Hk1) as (Hi1 & Hu1 & Hd1 & Hl1).
  cbv zeta in *. cbn [items used _display_map empty app] in *.
  set (acc := foldl (add_unanswered normalize_text) empty pre) in *.
  destruct (fold_answered post acc Hwf2 Hk2 Hnd2) as (Hi2 & Hu2 & Hd2 & Hl2).
  { intros k Hk. rewrite Hi1. intros Hk'. by apply (Hdisj k). }
  { intros k Hk. rewrite Hi1 in Hk. by rewrite Hd1. }
  cbv zeta in *.
  set (a := foldl (add_answered normalize_text) acc post) in *.
  unfold save_to_csv, remaining, answered.
  rewrite Hi2, Hi1, Hu2, Hu1, !filter_app.
  rewrite (filter_all _ (key_of normalize_text <$> pre)).
  2:{ intros k Hk. specialize (Hdisj k Hk). set_solver. }
  rewrite (filter_none _ (key_of normalize_text <$> post)) by set_solver.
  rewrite (filter_none _ (key_of normalize_text <$> pre)).
  2:{ intros k Hk. specialize (Hdisj k Hk). set_solver. }
  rewrite (filter_all _ (key_of normalize_text <$> post)) by set_solver.
  rewrite app_nil_r. cbn [app].
  rewrite (rows_rebuilt a post) by done.
  rewrite (rows_rebuilt a pre); [done|done|].
  intros r Hr. rewrite Hd2; [by apply Hl1|].
  apply Hdisj. by apply list_elem_of_fmap_2.
Qed.

(** C4: for a well-formed file with a separator (data rows, the empty
    row, data rows), saving the catalog loaded from it reproduces the
    file: the same rows with the same cells in the same order before
    the separator, one empty row, and the same rows after it. *)
Theorem save_load_round_trip (pre post : list (list str)) :
  wf_file normalize_text pre [] post ->
  save_to_csv (load_from_csv normalize_text (pre ++ [] :: post))
  = pre ++ [] :: post.
Proof. apply save_load_any_separator. Qed.

Lemma is_first_ext {A} (P Q : A -> Prop) (l : list A) (r : option A) :
  (forall x, x ∈ l -> P x <-> Q x) -> is_first P l r -> is_first Q l r.
Proof.
  intros Heq. destruct r as [d|]; simpl.
  - intros (l1 & l2 & -> & Hd & Hbefore). exists l1, l2. split; [done|]. split.
    + apply Heq; [set_solver|done].
    + intros x Hx HQ. apply (Hbefore x Hx), Heq; [set_solver|done].
  - intros Hnone x Hx HQ. apply (Hnone x Hx), Heq; done.
Qed.

(** For a previous category that is a category name, the short-form rule
    as the source tests it is the rule the specification states. *)
Lemma short_form_as_stated (a : t) (t_norm : str) (prev : option str) (d : str) :
  category_named a prev -> d ∈ items a ->
  short_form a t_norm prev d <-> short_form_spec a t_norm prev d.
Proof.
  intros Hnamed Hd. unfold short_form, short_form_spec. split.
  - intros [He (c & _ & Hp & Hc)]. eauto.
  - intros [He (c & Hp & Hc)]. split; [done|]. exists c. split; [|done].
    intros ->. destruct Hnamed as [Hn|Hn]; [done|]. by apply (Hn d).
Qed.

Lemma find_match_first (a : t) (text : str) (prev : option str) :
  category_named a prev ->
  is_first (candidate short_form_spec a (normalize_text text) prev) (items a)
           (find_match normalize_text a text prev).
Proof.
  intros Hnamed.
  apply (is_first_ext (candidate short_form a (normalize_text text) prev));
    [|apply find_match_loop_first].
  intros d Hd. unfold candidate.
  by rewrite (short_form_as_stated a _ prev d Hnamed Hd).
Qed.

(** C1: [find_match] returns the first entry, in [items] order, that is
    not in [used] and satisfies the full-form rule (the normalized input
    equals the entry's fullMatch) or the short-form rule (the normalized
    input equals the entry's elementKey and the previous category given
    equals the entry's categoryKey); it returns nothing exactly when no
    entry qualifies.  This holds for every catalog, text and optional
    previous category, the previous category being a category name: not
    the empty string, unless no entry has the empty string as its
    category key.  Being a function of the catalog and its two
    arguments, [find_match] gives the same result for the same
    inputs. *)
Theorem find_match_first_candidate (a : t) (text : str) (prev : option str) :
  category_named a prev ->
  is_first (candidate short_form_spec a (normalize_text text) prev) (items a)
           (find_match normalize_text a text prev).
Proof. apply find_match_first. Qed.

End WithNormalizer.

Lemma save_load_round_trip_witness :
  wf_file Text.normalize_ascii (take 2 sample_rows) [] (drop 3 sample_rows)
  /\ save_to_csv (load_from_csv Text.normalize_ascii sample_rows) = sample_rows.
Proof.
  assert (H : wf_file Text.normalize_ascii (take 2 sample_rows) []
                (drop 3 sample_rows)).
  { unfold wf_file. cbn [take drop sample_rows app].
    split; [|split; [|split]].
    - repeat (apply Forall_cons; split; [split; [discriminate|reflexivity]|]).
      apply Forall_nil_2.
    - repeat (apply Forall_cons; split; [vm_compute; discriminate|]).
      apply Forall_nil_2.
    - refine (bool_decide_unpack _ _). vm_compute. exact I.
    - reflexivity. }
  split; [exact H|].
  exact (save_load_round_trip Text.normalize_ascii
           (take 2 sample_rows) (drop 3 sample_rows) H).
Defined.

Lemma find_match_first_candidate_witness :
  category_named sample_catalog (Some (Text.lit "hyogo"))
  /\ find_match Text.normalize_ascii sample_catalog (Text.lit "Kobe")
       (Some (Text.lit "hyogo"))
     = Some (Text.lit "hyogo-kobe")
  /\ is_first
       (candidate short_form_spec sample_catalog
          (Text.normalize_ascii (Text.lit "Kobe")) (Some (Text.lit "hyogo")))
       (items sample_catalog)
       (find_match Text.normalize_ascii sample_catalog (Text.lit "Kobe")
          (Some (Text.lit "hyogo"))).
Proof.
  assert (H : category_named sample_catalog (Some (Text.lit "hyogo")))
    by (left; discriminate).
  split; [exact H|]. split; [vm_compute; reflexivity|].
  exact (find_match_first_candidate Text.normalize_ascii sample_catalog
           (Text.lit "Kobe") (Some (Text.lit "hyogo")) H).
Defined.

End AnswerListFacts.

(** ** Floating-point numbers *)

Module FloatFacts.
Import Float Invariants.

Lemma leb_trans (x y z : t) :
  leb x y = true -> leb y z = true -> leb x z = true.
Proof.
  unfold leb, SFleb, SFcompare.
  destruct x as [sx|sx| |sx mx ex], y as [sy|sy| |sy my ey], z as [sz|sz| |sz mz ez];
    try discriminate; try done;
    repeat match goal with s : bool |- _ => destruct s end;
    try discriminate; try done;
    rewrite ?Pos.compare_cont_spec; cbn [Pos.switch_Eq];
    destruct (Z.compare_spec ex ey), (Z.compare_spec ey ez), (Z.compare_spec ex ez);
    try discriminate; try done; try lia; subst;
    destruct (Pos.compare_spec mx my), (Pos.compare_spec my mz), (Pos.compare_spec mx mz);
    cbn; try discriminate; try done; try lia.
Qed.

Lemma leb_refl (x : t) : is_finite x = true -> leb x x = true.
Proof.
  destruct x as [sx|sx| |sx mx ex]; try done. intros _.
  unfold leb, SFleb, SFcompare.
  rewrite Z.compare_refl, Pos.compare_cont_spec, Pos.compare_refl.
  by destruct sx.
Qed.

Lemma round_aux_sign (s : bool) (m e : Z) (l : location) :
  s = false -> not_negative (binary_round_aux prec emax s m e l).
Proof.
  intros ->. unfold binary_round_aux.
  destruct (shr_fexp _ _ _ _ _) as [mrs' e'].
  destruct (shr_fexp _ _ _ _ _) as [mrs'' e''].
  destruct (shr_m mrs''); [done| |done]. by destruct (_ <=? _)%Z.
Qed.

Lemma normalize_sign (m e : Z) :
  (0 <= m)%Z -> not_negative (binary_normalize prec emax m e false).
Proof.
  intros Hm. destruct m as [|m|m]; [done| |lia].
  unfold binary_normalize, binary_round. destruct (shl_align _ _ _).
  by apply round_aux_sign.
Qed.

Lemma digits2_pos_bounds (m : positive) :
  (2 ^ (Zpos (digits2_pos m) - 1) <= Zpos m < 2 ^ Zpos (digits2_pos m))%Z.
Proof.
  induction m as [m IH|m IH|]; cbn [digits2_pos]; [| |done];
    rewrite Pos2Z.inj_succ;
    replace (Z.succ (Zpos (digits2_pos m)) - 1)%Z with (Z.succ (Zpos (digits2_pos m) - 1))%Z by lia;
    rewrite !Z.pow_succ_r by lia; lia.
Qed.

Lemma shl_align_value (m : positive) (e ez : Z) :
  (ez <= e)%Z -> Zpos (fst (shl_align m e ez)) = (Zpos m * 2 ^ (e - ez))%Z.
Proof.
  intros Hle. unfold shl_align. destruct (ez - e)%Z as [|d|d] eqn:Hd; cbn [fst].
  - replace (e - ez)%Z with 0%Z by lia. lia.
  - lia.
  - change (Pos.iter xO m d) with (shift_pos d m).
    rewrite shift_pos_correct, Zpower_pos_nat, Zpower_nat_Z, positive_nat_Z.
    replace (e - ez)%Z with (Zpos d) by lia. lia.
Qed.

Lemma bounded_digits (m : positive) (e : Z) :
  bounded prec emax m e = true ->
  (Zpos (digits2_pos m) <= 53 /\ -1074 <= e
   /\ (-1074 < e -> Zpos (digits2_pos m) = 53))%Z.
Proof.
  unfold bounded, canonical_mantissa, fexp, emin, prec, emax.
  intros [H _]%andb_true_iff. apply Z.eqb_eq in H. lia.
Qed.

(** Of two binary64 mantissas, the one with the larger exponent stands
    for the larger magnitude. *)
Lemma bounded_lt (m1 m2 : positive) (e1 e2 : Z) :
  bounded prec emax m1 e1 = true -> bounded prec emax m2 e2 = true ->
  (e1 < e2)%Z -> (Zpos m1 < Zpos m2 * 2 ^ (e2 - e1))%Z.
Proof.
  intros (H1 & Hmin & _)%bounded_digits (_ & _ & H2)%bounded_digits Hlt.
  pose proof (digits2_pos_bounds m1) as [_ Hm1].
  pose proof (digits2_pos_bounds m2) as [Hm2 _].
  rewrite H2 in Hm2 by lia.
  assert (Zpos m1 < 2 ^ 53)%Z.
  { eapply Z.lt_le_trans; [exact Hm1|]. apply Z.pow_le_mono_r; lia. }
  assert (2 ^ 1 <= 2 ^ (e2 - e1))%Z by (apply Z.pow_le_mono_r; lia).
  change (2 ^ (53 - 1))%Z with 4503599627370496%Z in Hm2.
  change (2 ^ 53)%Z with 9007199254740992%Z in *. change (2 ^ 1)%Z with 2%Z in *.
  nia.
Qed.

Lemma sub_sign (x y : t) :
  is_finite x = true -> is_finite y = true -> leb y x = true ->
  not_negative (sub x y).
Proof.
  unfold leb, SFleb, sub.
  destruct x as [sx|sx| |sx mx ex], y as [sy|sy| |sy my ey];
    cbn [is_finite SFsub SFcompare not_negative]; intros Hx Hy Hle;
    try discriminate; try done;
    repeat match goal with s : bool |- _ => destruct s end;
    try discriminate; try done;
    apply normalize_sign; cbn [cond_Zopp];
    rewrite !shl_align_value by lia; rewrite ?Pos.compare_cont_spec in Hle;
    cbn [Pos.switch_Eq] in Hle.
  all: try (pose proof (Pos2Z.is_pos mx); pose proof (Pos2Z.is_pos my);
            assert (0 < 2 ^ (ex - Z.min ex ey))%Z by (apply Z.pow_pos_nonneg; lia);
            assert (0 < 2 ^ (ey - Z.min ex ey))%Z by (apply Z.pow_pos_nonneg; lia);
            nia).
  - destruct (Z.compare_spec ey ex) as [->|Hlt|Hgt]; [|done|].
    + rewrite Z.min_id, Z.sub_diag.
      destruct (Pos.compare_spec my mx); cbn in Hle; try done; lia.
    + pose proof (bounded_lt mx my ex ey Hx Hy ltac:(lia)).
      rewrite Z.min_l by lia. rewrite Z.sub_diag. lia.
  - destruct (Z.compare_spec ey ex) as [->|Hlt|Hgt]; [| |done].
    + rewrite Z.min_id, Z.sub_diag.
      destruct (Pos.compare_spec my mx); cbn in Hle; try done; lia.
    + pose proof (bounded_lt my mx ey ex Hy Hx Hlt).
      rewrite Z.min_r by lia. rewrite Z.sub_diag. lia.
Qed.

Lemma mul_sign (x y : t) :
  not_negative x -> not_negative y -> not_negative (mul x y).
Proof.
  unfold mul.
  destruct x as [sx|sx| |sx mx ex], y as [sy|sy| |sy my ey];
    cbn [SFmul not_negative]; intros Hx Hy; subst; try done.
  by apply round_aux_sign.
Qed.

Lemma to_int_sign (x : t) (n : Z) :
  not_negative x -> to_int x = Int n -> (0 <= n)%Z.
Proof.
  destruct x as [sx|sx| |sx mx ex]; cbn; intros Hx [= <-]; subst; [done|].
  by apply Z.shiftl_nonneg.
Qed.

Lemma of_int_sign (n : Z) : (0 <= n)%Z -> not_negative (of_int n).
Proof. apply normalize_sign. Qed.

(** What [tick] subtracts from the countdown is not negative when the
    clock has not gone back. *)
Lemma elapsed_not_negative (now last : t) (n : Z) :
  is_finite last = true -> is_finite now = true -> leb last now = true ->
  to_int (mul (sub now last) (of_int 1000)) = Int n -> (0 <= n)%Z.
Proof.
  intros Hl Hn Hle. apply to_int_sign, mul_sign.
  - by apply sub_sign.
  - by apply of_int_sign.
Qed.

End FloatFacts.

(** ** Text primitives *)

Module TextFacts.
Import Text.

Local Open Scope Z_scope.

Lemma contains_elem_of (c : N) (s : str) : contains c s = true <-> c ∈ s.
Proof.
  unfold contains. rewrite existsb_exists. split.
  - intros (x & Hx & ->%N.eqb_eq). by apply list_elem_of_In.
  - intros H. exists c. split; [by apply list_elem_of_In|apply N.eqb_refl].
Qed.

Lemma rfind_from_app (c : N) (s1 s2 : str) (i last : Z) :
  rfind_from c (s1 ++ s2) i last =
  rfind_from c s2 (i + Z.of_nat (length s1)) (rfind_from c s1 i last).
Proof.
  revert i last. induction s1 as [|x s1 IH]; intros i last; simpl.
  - by rewrite Z.add_0_r.
  - rewrite IH. f_equal. lia.
Qed.

Lemma rfind_from_absent (c : N) (s : str) (i last : Z) :
  c ∉ s -> rfind_from c s i last = last.
Proof.
  revert i last. induction s as [|x s IH]; intros i last Hc; simpl; [done|].
  apply not_elem_of_cons in Hc as [Hne Hc]. rewrite IH by done.
  destruct (N.eqb_spec x c); congruence.
Qed.

Lemma rfind_from_lower (c : N) (s : str) (i last : Z) :
  last <= i -> last <= rfind_from c s i last.
Proof.
  revert i last. induction s as [|x s IH]; intros i last Hle; simpl; [lia|].
  destruct (x =? c)%N.
  - etrans; [|apply IH]; lia.
  - apply IH. lia.
Qed.

(** [rfind] returns the position of the last occurrence. *)
Lemma rfind_last (c : N) (pre post : str) :
  c ∉ post -> rfind c (pre ++ c :: post) = Z.of_nat (length pre).
Proof.
  intros Hc. unfold rfind. rewrite rfind_from_app. simpl.
  rewrite N.eqb_refl. by rewrite rfind_from_absent.
Qed.

Lemma rfind_at_least (c : N) (pre post : str) :
  Z.of_nat (length pre) <= rfind c (pre ++ c :: post).
Proof.
  unfold rfind. rewrite rfind_from_app. simpl. rewrite N.eqb_refl.
  etrans; [|apply rfind_from_lower]; lia.
Qed.

End TextFacts.

(** ** The turn engine *)

Module GameControllerFacts.
Import GameController.

Create Rewrite HintDb frame.

Local Open Scope Z_scope.

Lemma find_seqZ_some (f : Z -> bool) (len : nat) (m i : Z) :
  List.find f (seqZ m (Z.of_nat len)) = Some i ->
  m <= i < m + Z.of_nat len /\ f i = true /\ (forall j, m <= j < i -> f j = false).
Proof.
  revert m. induction len as [|len IH]; intros m.
  - simpl. discriminate.
  - rewrite seqZ_cons by lia. simpl.
    replace (Z.pred (Z.of_nat (S len))) with (Z.of_nat len) by lia.
    destruct (f m) eqn:Hm.
    + intros [= <-]. split; [lia|]. split; [done|]. intros j Hj. lia.
    + intros H. apply IH in H as (Hr & Hi & Hlt).
      split; [lia|]. split; [done|]. intros j Hj.
      destruct (decide (j = m)) as [->|]; [done|]. apply Hlt. lia.
Qed.

Lemma find_seqZ_none (f : Z -> bool) (len : nat) (m : Z) :
  List.find f (seqZ m (Z.of_nat len)) = None ->
  forall j, m <= j < m + Z.of_nat len -> f j = false.
Proof.
  intros H j Hj. apply (List.find_none _ _ H).
  apply list_elem_of_In, elem_of_seqZ. lia.
Qed.

Section WithNormalizer.

Variable normalize_text : str -> str.

Lemma active_at_false_all (ps : list Player.t) (cur : Z) :
  (forall j, 0 <= j < Z.of_nat (length ps) ->
             active_at ps (scan_idx cur (length ps) j) = false) ->
  forall p, p ∈ ps -> Player.eliminated p = true.
Proof.
  intros H p [k Hk]%list_elem_of_lookup.
  pose proof (lookup_lt_Some _ _ _ Hk) as Hlt.
  assert (Hb : 0 <= (Z.of_nat k - cur) mod Z.of_nat (length ps)
               < Z.of_nat (length ps)) by (apply Z.mod_pos_bound; lia).
  specialize (H _ Hb).
  unfold scan_idx, active_at in H.
  rewrite Zplus_mod_idemp_r in H.
  replace (cur + (Z.of_nat k - cur)) with (Z.of_nat k) in H by lia.
  rewrite Z.mod_small, Nat2Z.id, Hk in H by lia.
  by apply negb_false_iff.
Qed.

Lemma current_player_nonempty (s : t) :
  players s <> [] ->
  current_player s =
  let n := length (players s) in
  match List.find (fun i => active_at (players s) (scan_idx (current_idx s) n i))
                  (seqZ 0 (Z.of_nat n)) with
  | Some i =>
    let idx := scan_idx (current_idx s) n i in
    (players s !! Z.to_nat idx, with_current_idx idx s)
  | None => (None, s)
  end.
Proof. unfold current_player. destruct (players s); [done|reflexivity]. Qed.

(** The two ways [current_player] ends. *)
Lemma current_player_cases (s : t) :
  let n := Z.of_nat (length (players s)) in
  match current_player s with
  | (Some p, s') =>
    exists i, 0 <= i < n
      /\ players s !! Z.to_nat ((current_idx s + i) mod n) = Some p
      /\ Player.eliminated p = false
      /\ (forall j, 0 <= j < i ->
            exists q, players s !! Z.to_nat ((current_idx s + j) mod n) = Some q
                      /\ Player.eliminated q = true)
      /\ s' = with_current_idx ((current_idx s + i) mod n) s
  | (None, s') =>
    s' = s /\ forall p, p ∈ players s -> Player.eliminated p = true
  end.
Proof.
  intros n. subst n.
  destruct (decide (players s = [])) as [Hnil|Hne].
  { unfold current_player. rewrite Hnil. simpl. split; [done|].
    intros p Hp. by apply elem_of_nil in Hp. }
  rewrite current_player_nonempty by done. cbv zeta.
  set (l := players s) in *.
  assert (Hlen : 0 < Z.of_nat (length l)).
  { destruct l; [done|simpl; lia]. }
  assert (Hin : forall j, 0 <= j ->
            (Z.to_nat ((current_idx s + j) mod Z.of_nat (length l))
              < length l)%nat).
  { intros j _. pose proof (Z.mod_pos_bound (current_idx s + j) _ Hlen). lia. }
  destruct (List.find _ _) as [i|] eqn:Hfind.
  - apply find_seqZ_some in Hfind as (Hi & Hact & Hbefore).
    unfold active_at, scan_idx in Hact.
    destruct (l !! _) as [p|] eqn:Hp; [|done].
    apply negb_true_iff in Hact.
    exists i. unfold scan_idx. rewrite Hp.
    split; [lia|]. split; [done|]. split; [done|]. split; [|done].
    intros j Hj. specialize (Hbefore j ltac:(lia)).
    unfold active_at, scan_idx in Hbefore.
    destruct (l !! Z.to_nat ((current_idx s + j) mod Z.of_nat (length l)))
      as [q|] eqn:Hq.
    + exists q. split; [done|]. by apply negb_false_iff.
    + apply lookup_ge_None in Hq. specialize (Hin j ltac:(lia)). lia.
  - split; [done|].
    apply (active_at_false_all l (current_idx s)).
    intros j Hj. eapply find_seqZ_none in Hfind; [exact Hfind|]. lia.
Qed.

(** C5: [current_player] returns nothing on an empty roster; on any
    roster it returns nothing exactly when every player is eliminated,
    and then leaves the controller as it was; otherwise it returns the
    player found first when scanning the positions
    [(current_idx + i) mod n] for [i = 0 .. n-1], that player is not
    eliminated, and its position is stored in [current_idx] (nothing
    else changes). *)
Theorem current_player_first_active (s : t) :
  let n := Z.of_nat (length (players s)) in
  (players s = [] -> current_player s = (None, s))
  /\ (fst (current_player s) = None <->
      forall p, p ∈ players s -> Player.eliminated p = true)
  /\ match current_player s with
     | (Some p, s') =>
       exists i, 0 <= i < n
         /\ players s !! Z.to_nat ((current_idx s + i) mod n) = Some p
         /\ Player.eliminated p = false
         /\ (forall j, 0 <= j < i ->
               exists q, players s !! Z.to_nat ((current_idx s + j) mod n) = Some q
                         /\ Player.eliminated q = true)
         /\ s' = with_current_idx ((current_idx s + i) mod n) s
     | (None, s') => s' = s
     end.
Proof.
  intros n. pose proof (current_player_cases s) as H. cbv zeta in H.
  split; [|split].
  - intros Hnil. unfold current_player. by rewrite Hnil.
  - destruct (current_player s) as [[p|] s']; simpl.
    + destruct H as (i & _ & Hp & Hel & _). split; [done|]. intros Hall.
      rewrite (Hall p) in Hel; [done|]. by eapply list_elem_of_lookup_2.
    + by destruct H.
  - destruct (current_player s) as [[p|] s']; [done|]. by destruct H.
Qed.

(** *** What the helpers leave alone *)

Lemma current_player_state (s : t) :
  snd (current_player s) = with_current_idx (current_idx (snd (current_player s))) s.
Proof.
  unfold current_player. destruct (length (players s)); [by destruct s|].
  destruct (List.find _ _); by destruct s.
Qed.

Lemma emit_current_player_state (s : t) :
  exists idx cp,
    _emit_current_player s = emit (CurrentPlayer cp) (with_current_idx idx s).
Proof.
  unfold _emit_current_player.
  pose proof (current_player_state s) as H.
  destruct (current_player s) as [cp s']. simpl in H.
  exists (current_idx s'), (Player.name <$> cp). by rewrite H at 1.
Qed.

Lemma emit_current_player_players (s : t) :
  players (_emit_current_player s) = players s.
Proof. destruct (emit_current_player_state s) as (idx & cp & ->). done. Qed.

Lemma name_exists_iff (name : str) (s : t) :
  _name_exists normalize_text name s = true <->
  exists p, p ∈ players s /\ normalize_text (Player.name p) = normalize_text name.
Proof.
  unfold _name_exists. rewrite existsb_exists. split.
  - intros (p & Hp & Heq). exists p. rewrite list_elem_of_In.
    by apply bool_decide_eq_true in Heq.
  - intros (p & Hp & Heq). exists p. rewrite <- list_elem_of_In.
    by rewrite bool_decide_eq_true.
Qed.

(** C7: [add_player] fails, that is emits one error notification and
    changes nothing else, exactly when the name is empty, longer than 60
    characters, or equal after normalization to the name of a player in
    the roster; in every other case the roster afterwards is the old one
    followed by one new player whose budgets are at their limits, who is
    not eliminated and whose history is empty. *)
Theorem add_player_validation (pid name : str) (base pass_lim wrong_lim : Z) (s : t) :
  let s' := add_player normalize_text pid name base pass_lim wrong_lim s in
  (Spec.failed s s' <-> Spec.name_refused normalize_text name s)
  /\ (~ Spec.name_refused normalize_text name s ->
      players s' =
      players s ++ [Player.mk pid name base pass_lim wrong_lim
                              pass_lim wrong_lim false [] [] None]).
Proof.
  intros s'. subst s'. unfold add_player, Spec.name_refused, Spec.failed.
  destruct (negb (Text.truthy name) || (60 <? length name)%nat) eqn:Hlen.
  { split; [|intros Hn; exfalso; apply Hn].
    - split; [|by eexists]. intros _.
      apply orb_true_iff in Hlen as [Hl|Hl].
      + left. by destruct name.
      + right; left. by apply Nat.ltb_lt in Hl.
    - apply orb_true_iff in Hlen as [Hl|Hl].
      + left. by destruct name.
      + right; left. by apply Nat.ltb_lt in Hl. }
  apply orb_false_iff in Hlen as [Hne Hlt].
  apply Nat.ltb_ge in Hlt.
  destruct (_name_exists normalize_text name s) eqn:Hex.
  { apply name_exists_iff in Hex.
    split; [|intros Hn; exfalso; apply Hn; auto].
    split; [auto|by eexists]. }
  assert (Hnot : ~ (name = [] \/ (60 < length name)%nat
                    \/ exists p, p ∈ players s
                         /\ normalize_text (Player.name p) = normalize_text name)).
  { intros [->|[?|Hp]]; [done|lia|].
    apply name_exists_iff in Hp. congruence. }
  split.
  - split; [|done]. intros [msg Hmsg]. exfalso.
    apply (f_equal (fun x => length (players x))) in Hmsg.
    rewrite emit_current_player_players in Hmsg. simpl in Hmsg.
    rewrite length_app in Hmsg. simpl in Hmsg. lia.
  - intros _. by rewrite emit_current_player_players.
Qed.

(** *** What an operation leaves alone *)

Lemma current_player_idx (s : t) :
  exists idx, snd (current_player s) = with_current_idx idx s.
Proof. eexists. apply current_player_state. Qed.

(** [f] reads a part of the controller.  Each hypothesis says that one way
    of updating the controller does not reach that part; a lemma of this
    section depends on the hypotheses its operation needs, no more. *)
Section Frame.

Context {A : Type} (f : t -> A).

Hypothesis f_emit : forall e s, f (emit e s) = f s.
Hypothesis f_current_idx : forall i s, f (with_current_idx i s) = f s.
Hypothesis f_players : forall ps s, f (with_players ps s) = f s.
Hypothesis f_is_running : forall b s, f (with_is_running b s) = f s.
Hypothesis f_class : forall c s, f (with_last_answered_class c s) = f s.
Hypothesis f_last_tick : forall c s, f (with_last_tick c s) = f s.
Hypothesis f_answer_list : forall a s, f (with_answer_list a s) = f s.
Hypothesis f_answered_order : forall o s, f (with_answered_order o s) = f s.

#[local] Hint Rewrite f_emit f_current_idx f_players f_is_running f_class
  f_last_tick f_answer_list f_answered_order : frame.

Ltac frame :=
  cbv zeta; cbn [fst snd];
  unfold _notify, _emit_all_players, _emit_running_state, update_player;
  autorewrite with frame; try done.

Lemma frame_current_player (s : t) : f (snd (current_player s)) = f s.
Proof. destruct (current_player_idx s) as [idx ->]. frame. Qed.

Lemma frame_emit_current_player (s : t) : f (_emit_current_player s) = f s.
Proof. destruct (emit_current_player_state s) as (idx & cp & ->). frame. Qed.

Lemma frame_emit_player_state (i : nat) (s : t) : f (_emit_player_state i s) = f s.
Proof. unfold _emit_player_state. destruct (players s !! i); frame. Qed.

Lemma frame_emit_answers_updated (s : t) : f (_emit_answers_updated s) = f s.
Proof. unfold _emit_answers_updated. destruct (answer_list s); frame. Qed.

Lemma frame_remember_class (al : AnswerList.t) (m : option str) (t_norm : str) (s : t) :
  f (remember_class al m t_norm s) = f s.
Proof.
  unfold remember_class. destruct m as [[|c d]|].
  - destruct (List.find _ _); frame.
  - destruct (AnswerList._class_map al !! (c :: d)) as [[|??]|]; frame.
  - destruct (List.find _ _); frame.
Qed.

#[local] Hint Rewrite frame_emit_current_player frame_emit_player_state
  frame_emit_answers_updated frame_remember_class : frame.

(** Names the result of the call of [current_player] in the goal and the
    state it leaves, on which [f] is as before the call. *)
Ltac frame_current_player cp s1 :=
  lazymatch goal with
  | |- context [current_player ?x] =>
    let H := fresh "Hcp" in
    pose proof (frame_current_player x) as H;
    destruct (current_player x) as [cp s1]; cbn [snd] in H
  end.

Lemma frame_stop_game (s : t) : f (stop_game s) = f s.
Proof. unfold stop_game. frame. Qed.

Lemma frame_end_if_finished (s : t) : f (snd (_end_if_finished s)) = f s.
Proof.
  unfold _end_if_finished.
  destruct (_ && _); [apply frame_stop_game|].
  destruct (answer_list s) as [al|]; [|done].
  destruct (_ =? 0); [apply frame_stop_game|done].
Qed.

Lemma frame_advance (r : reason) (s : t) : f (_advance_turn_after_event r s) = f s.
Proof.
  unfold _advance_turn_after_event.
  pose proof (frame_end_if_finished s) as H0.
  destruct (_end_if_finished s) as [fin s0]. cbn [snd] in H0.
  destruct fin; [done|]. rewrite <- H0. clear H0.
  destruct (length (players s0)) eqn:Hn; [frame|].
  cbv zeta. frame_current_player np s1.
  assert (f s1 = f s0) as <-.
  { rewrite Hcp. destruct (List.find _ _); frame. }
  destruct np; frame.
Qed.

#[local] Hint Rewrite frame_stop_game frame_advance : frame.

Lemma frame_reject_answer (i : nat) (text : str) (s : t) :
  f (reject_answer i text s) = f s.
Proof.
  unfold reject_answer. destruct (players s !! i) as [p|]; [|done].
  destruct (Player.consume_wrong_answer p) as [[] p']; frame.
Qed.

Lemma frame_add_player (pid name : str) (b pl wl : Z) (s : t) :
  f (add_player normalize_text pid name b pl wl s) = f s.
Proof.
  unfold add_player. destruct (_ || _); [frame|].
  destruct (_name_exists _ _ _); frame.
Qed.

Lemma frame_remove_player (name : str) (s : t) :
  f (remove_player normalize_text name s) = f s.
Proof. unfold remove_player. frame. destruct (0 <? _); frame. Qed.

Lemma frame_host_pass (s : t) : f (host_pass s) = f s.
Proof.
  unfold host_pass. frame_current_player cp s1. rewrite <- Hcp.
  destruct cp as [p|]; [|frame].
  destruct (Player.consume_pass p) as [[] p']; frame.
Qed.

Lemma frame_move_player (name : str) (target : Z) (s : t) :
  f (move_player normalize_text name target s) = f s.
Proof.
  unfold move_player. destruct (list_find _ _) as [[orig p]|]; [|frame].
  cbv zeta. destruct (_ =? Z.of_nat orig); frame.
Qed.

Lemma frame_forfeit_player (name : str) (s : t) :
  f (forfeit_player normalize_text name s) = f s.
Proof. unfold forfeit_player. destruct (list_find _ _) as [[i p]|]; frame. Qed.

Lemma frame_skip_player (name : str) (s : t) :
  f (skip_player normalize_text name s) = f s.
Proof.
  unfold skip_player. frame_current_player cp s1. rewrite <- Hcp.
  destruct cp as [p|]; [|frame]. case_bool_decide; frame.
Qed.

Lemma frame_reorder (names : list str) (s : t) :
  f (state_of (reorder_players_by_name names s)) = f s.
Proof. unfold reorder_players_by_name. destruct names, (players s); done. Qed.

Lemma frame_start_game (now : Float.t) (s : t) : f (start_game now s) = f s.
Proof.
  unfold start_game. destruct (answer_list s); [|frame].
  destruct (players s); [frame|]. cbv zeta.
  frame_current_player cp s1.
  assert (f s1 = f s) as <- by (rewrite Hcp; frame).
  destruct cp; frame.
Qed.

Lemma frame_tick (now : Float.t) (s : t) : f (state_of (tick now s)) = f s.
Proof.
  unfold tick. destruct (negb (is_running s)); [done|].
  destruct (_last_tick_monotonic s); cbn [state_of]; [|frame]. cbv zeta.
  frame_current_player cp s1.
  assert (f s1 = f s) as <- by (rewrite Hcp; frame).
  destruct cp as [p|].
  - destruct (Float.to_int _); cbn [state_of]; [|done..].
    frame. destruct (_ =? 0); frame.
  - pose proof (frame_end_if_finished (_notify info msg_no_active_player s1)) as H2.
    destruct (_end_if_finished _) as [fin s2]. cbn [snd state_of] in *.
    frame. rewrite H2. frame.
Qed.

Lemma frame_accept_answer (i : nat) (al : AnswerList.t) (text answer_text : str)
    (prev m : option str) (s : t) :
  f (accept_answer normalize_text i al text answer_text prev m s) = f s.
Proof.
  unfold accept_answer.
  destruct (AnswerList.mark_used normalize_text al answer_text prev) as [ud al'].
  frame.
  match goal with
  | |- f match last (_answered_order ?y) with _ => _ end = _ =>
    assert (Hy : f match last (_answered_order y) with
                   | Some d =>
                     match AnswerList._class_map al' !! d with
                     | Some ((_ :: _) as cls_key) =>
                       with_last_answered_class (Some cls_key) y
                     | _ => y
                     end
                   | None => y
                   end = f y)
  end.
  { destruct (last _) as [d|]; [|done].
    destruct (AnswerList._class_map al' !! d) as [[|??]|]; frame. }
  rewrite Hy. frame.
  destruct (match ud with Some d => Some d | None => m end) as [[|c d]|]; frame.
  case_bool_decide; frame.
Qed.

Lemma frame_host_submit_answer (text : str) (s : t) :
  f (host_submit_answer normalize_text text s) = f s.
Proof.
  unfold host_submit_answer. frame_current_player cp s1. rewrite <- Hcp.
  destruct cp as [p|]; [|frame].
  destruct (answer_list s1) as [al|]; [|frame]. cbv zeta.
  case_bool_decide; frame.
  - by rewrite frame_accept_answer; frame.
  - by rewrite frame_reject_answer; frame.
Qed.

Lemma frame_unmark_answer (key : str) (s : t) : f (snd (unmark_answer key s)) = f s.
Proof.
  unfold unmark_answer. destruct (answer_list s) as [al|]; [|frame].
  case_bool_decide; [|frame]. frame. case_bool_decide; frame.
Qed.

Lemma frame_load_csv (rows : option (list (list str))) (s : t) :
  f (load_csv normalize_text rows s) = f s.
Proof. unfold load_csv. destruct rows; frame. Qed.

End Frame.

(** *** Operations that do not touch the catalog *)

Lemma same_catalog_refl (s : t) : Spec.same_catalog s s.
Proof. done. Qed.

Lemma same_catalog_trans (s1 s2 s3 : t) :
  Spec.same_catalog s1 s2 -> Spec.same_catalog s2 s3 -> Spec.same_catalog s1 s3.
Proof. unfold Spec.same_catalog. intros [-> ->] [-> ->]. done. Qed.

Lemma emit_current_player_catalog (s : t) :
  Spec.same_catalog s (_emit_current_player s).
Proof. split; by apply frame_emit_current_player. Qed.

Lemma emit_player_state_catalog (i : nat) (s : t) :
  Spec.same_catalog s (_emit_player_state i s).
Proof. split; by apply frame_emit_player_state. Qed.

Lemma stop_game_catalog (s : t) : Spec.same_catalog s (stop_game s).
Proof. split; by apply frame_stop_game. Qed.

Lemma advance_catalog (r : reason) (s : t) :
  Spec.same_catalog s (_advance_turn_after_event r s).
Proof. split; by apply frame_advance. Qed.

Lemma add_player_catalog (pid name : str) (b pl wl : Z) (s : t) :
  Spec.same_catalog s (add_player normalize_text pid name b pl wl s).
Proof. split; by apply frame_add_player. Qed.

Lemma remove_player_catalog (name : str) (s : t) :
  Spec.same_catalog s (remove_player normalize_text name s).
Proof. split; by apply frame_remove_player. Qed.

Lemma start_game_catalog (now : Float.t) (s : t) :
  Spec.same_catalog s (start_game now s).
Proof. split; by apply frame_start_game. Qed.

Lemma host_pass_catalog (s : t) : Spec.same_catalog s (host_pass s).
Proof. split; by apply frame_host_pass. Qed.

Lemma tick_catalog (now : Float.t) (s : t) : Spec.same_catalog s (state_of (tick now s)).
Proof. split; by apply frame_tick. Qed.

Lemma move_player_catalog (name : str) (target : Z) (s : t) :
  Spec.same_catalog s (move_player normalize_text name target s).
Proof. split; by apply frame_move_player. Qed.

Lemma forfeit_player_catalog (name : str) (s : t) :
  Spec.same_catalog s (forfeit_player normalize_text name s).
Proof. split; by apply frame_forfeit_player. Qed.

Lemma skip_player_catalog (name : str) (s : t) :
  Spec.same_catalog s (skip_player normalize_text name s).
Proof. split; by apply frame_skip_player. Qed.

Lemma reorder_catalog (names : list str) (s : t) :
  Spec.same_catalog s (state_of (reorder_players_by_name names s)).
Proof. split; by apply frame_reorder. Qed.

(** *** Operations that touch the catalog *)

Lemma emit_answers_updated_catalog (s : t) :
  Spec.same_catalog s (_emit_answers_updated s).
Proof. split; by apply frame_emit_answers_updated. Qed.

Lemma remember_class_catalog (al : AnswerList.t) (m : option str) (t_norm : str) (s : t) :
  Spec.same_catalog s (remember_class al m t_norm s).
Proof. split; by apply frame_remember_class. Qed.

Lemma reject_answer_catalog (i : nat) (text : str) (s : t) :
  Spec.same_catalog s (reject_answer i text s).
Proof. split; by apply frame_reject_answer. Qed.

(** What accepting an answer does to the catalog and the chronology:
    the catalog becomes the one [mark_used] leaves, and the chronology
    either stays or gains, at its end, a key that was not in it. *)
Lemma accept_answer_catalog (i : nat) (al : AnswerList.t) (text answer_text : str)
    (prev m : option str) (s : t) :
  let s' := accept_answer normalize_text i al text answer_text prev m s in
  let r := AnswerList.mark_used normalize_text al answer_text prev in
  answer_list s' = Some (snd r)
  /\ (_answered_order s' = _answered_order s
      \/ exists d, (d ∉ _answered_order s)
           /\ d <> []
           /\ (fst r = Some d \/ (fst r = None /\ m = Some d))
           /\ _answered_order s' = _answered_order s ++ [d]).
Proof.
  unfold accept_answer.
  destruct (AnswerList.mark_used normalize_text al answer_text prev) as [ud al'].
  cbv zeta. simpl fst. simpl snd.
  match goal with
  | |- context [_advance_turn_after_event correct ?x] =>
    pose proof (advance_catalog correct x) as [Ha Ho]; rewrite Ha, Ho; clear Ha Ho
  end.
  match goal with
  | |- context [_emit_player_state i ?x] =>
    pose proof (emit_player_state_catalog i x) as [Ha Ho]; rewrite Ha, Ho; clear Ha Ho
  end.
  cbn [_notify emit answer_list _answered_order].
  match goal with
  | |- context [update_player i Player.reset_wrong_answers ?x] =>
    set (y := update_player i Player.reset_wrong_answers x)
  end.
  match goal with
  | |- answer_list ?z = _ /\ _ =>
    assert (Hz : Spec.same_catalog y z)
  end.
  { destruct (last (_answered_order y)) as [d|]; [|done].
    by destruct (AnswerList._class_map al' !! d) as [[|??]|]. }
  destruct Hz as [-> ->]. subst y.
  cbn [update_player with_players emit answer_list _answered_order].
  match goal with
  | |- context [_emit_answers_updated ?x] =>
    pose proof (emit_answers_updated_catalog x) as [Ha Ho]; rewrite Ha, Ho; clear Ha Ho
  end.
  set (ud' := match ud with Some d => Some d | None => m end).
  assert (Hud : forall d, ud' = Some d -> ud = Some d \/ (ud = None /\ m = Some d)).
  { subst ud'. intros d. destruct ud; naive_solver. }
  clearbody ud'.
  destruct ud' as [[|c d]|]; [by split; [|left]| |by split; [|left]].
  case_bool_decide as Hin; [by split; [|left]|].
  split; [done|]. right. exists (c :: d). split; [done|]. split; [done|].
  split; [by apply Hud|done].
Qed.

Lemma host_submit_answer_catalog (text : str) (s : t) :
  let s' := host_submit_answer normalize_text text s in
  Spec.same_catalog s s'
  \/ exists al answer_text prev m,
       let r := AnswerList.mark_used normalize_text al answer_text prev in
       answer_list s = Some al
       /\ m = AnswerList.find_match normalize_text al answer_text prev
       /\ is_Some m
       /\ answer_list s' = Some (snd r)
       /\ (_answered_order s' = _answered_order s
           \/ exists d, (d ∉ _answered_order s)
                /\ d ∈ AnswerList.used (snd r)
                /\ _answered_order s' = _answered_order s ++ [d]).
Proof.
  unfold host_submit_answer.
  destruct (current_player_idx s) as [idx Hidx].
  destruct (current_player s) as [[p|] s1]; simpl in Hidx; subst s1; [|by left].
  cbn [answer_list with_current_idx].
  destruct (answer_list s) as [al|] eqn:Hal; [|by left]. cbv zeta.
  case_bool_decide as Hm.
  - right. eexists al, _, _, _. split; [done|]. split; [done|]. split; [done|].
    match goal with
    | |- context [accept_answer _ ?i ?al ?t ?a ?pc ?m ?x] =>
      pose proof (accept_answer_catalog i al t a pc m x) as [Ha Ho];
      assert (Hx : Spec.same_catalog s x)
        by (eapply same_catalog_trans; [|apply remember_class_catalog]; done)
    end.
    destruct Hx as [Hxa Hxo]. rewrite Hxo in Ho.
    match goal with
    | |- context [_emit_current_player ?z] =>
      pose proof (emit_current_player_catalog z) as [Ha' Ho']; rewrite Ha', Ho'
    end.
    cbn [_emit_all_players emit answer_list _answered_order].
    split; [done|]. destruct Ho as [Ho|(d & Hd & Hne & Hfst & Ho)]; [by left|].
    right. exists d. split; [done|]. split; [|done].
    destruct Hfst as [Hfst|[Hfst Hfind]].
    + by apply AnswerListFacts.mark_used_some.
    + apply (AnswerListFacts.mark_used_found normalize_text) in Hfind; [|done].
      congruence.
  - left.
    eapply same_catalog_trans; [|apply emit_current_player_catalog].
    eapply same_catalog_trans; [|eapply same_catalog_trans];
      [|apply reject_answer_catalog|done].
    eapply same_catalog_trans; [|apply remember_class_catalog]. done.
Qed.

Lemma unmark_answer_catalog (key : str) (s : t) :
  let s' := snd (unmark_answer key s) in
  Spec.same_catalog s s'
  \/ exists al, answer_list s = Some al
       /\ key ∈ AnswerList.used al
       /\ answer_list s' = Some (AnswerList.discard_used al key)
       /\ _answered_order s' =
          if bool_decide (key ∈ _answered_order s)
          then remove_first key (_answered_order s) else _answered_order s.
Proof.
  unfold unmark_answer. destruct (answer_list s) as [al|] eqn:Hal; [|by left].
  case_bool_decide as Hin; [|by left]. right. exists al.
  split; [done|]. split; [done|]. cbv zeta. simpl snd.
  cbn [_notify emit answer_list _answered_order].
  match goal with
  | |- context [_emit_answers_updated ?x] =>
    pose proof (emit_answers_updated_catalog x) as [Ha Ho]; rewrite Ha, Ho; clear Ha Ho
  end.
  cbn [with_answer_list _answered_order]. by case_bool_decide.
Qed.

Lemma load_csv_catalog (rows : option (list (list str))) (s : t) :
  let s' := load_csv normalize_text rows s in
  match rows with
  | Some rows =>
    answer_list s' = Some (AnswerList.load_from_csv normalize_text rows)
    /\ _answered_order s' =
       AnswerList.answered (AnswerList.load_from_csv normalize_text rows)
  | None => Spec.same_catalog s s'
  end.
Proof. destruct rows; done. Qed.

Lemma exec_catalog_ok (o : op) (s : t) :
  Spec.catalog_ok s -> Spec.catalog_ok (exec normalize_text o s).
Proof.
  unfold Spec.catalog_ok. intros H.
  assert (Hsame : forall s', Spec.same_catalog s s' ->
            match answer_list s' with
            | Some a => Spec.used_in_items a
            | None => True
            end).
  { intros s' [-> _]. done. }
  destruct o; simpl.
  - pose proof (load_csv_catalog rows s) as Hl. destruct rows as [rows|].
    + destruct Hl as [-> _]. apply AnswerListFacts.load_from_csv_ok.
    + by apply Hsame.
  - apply Hsame, add_player_catalog.
  - apply Hsame, remove_player_catalog.
  - apply Hsame, start_game_catalog.
  - apply Hsame, stop_game_catalog.
  - destruct (host_submit_answer_catalog text s)
      as [Hs|(al & at' & prev & m & Hal & _ & _ & -> & _)]; [by apply Hsame|].
    rewrite Hal in H. by apply AnswerListFacts.mark_used_ok.
  - apply Hsame, host_pass_catalog.
  - destruct (unmark_answer_catalog display_key s)
      as [Hs|(al & Hal & _ & -> & _)]; [by apply Hsame|].
    rewrite Hal in H. by apply AnswerListFacts.discard_used_ok.
  - apply Hsame, tick_catalog.
  - apply Hsame, reorder_catalog.
  - apply Hsame, move_player_catalog.
  - apply Hsame, forfeit_player_catalog.
  - apply Hsame, skip_player_catalog.
Qed.

(** C6: consumed ⊆ entries.  Every display key in [used] is in [items]
    in the catalog [load_from_csv] builds; [mark_used] and the discard
    that [unmark_answer] performs keep it so ([find_match],
    [remaining_count] and [save_to_csv] only read the catalog); and so
    does every operation of the controller, hence it holds of the
    catalog held in every state the controller can reach. *)
Theorem used_subset_items_invariant :
  (forall rows, Spec.used_in_items (AnswerList.load_from_csv normalize_text rows))
  /\ (forall a text prev,
        Spec.used_in_items a ->
        Spec.used_in_items (snd (AnswerList.mark_used normalize_text a text prev)))
  /\ (forall a key,
        Spec.used_in_items a -> Spec.used_in_items (AnswerList.discard_used a key))
  /\ (forall o s, Spec.catalog_ok s -> Spec.catalog_ok (exec normalize_text o s))
  /\ (forall s, reachable normalize_text s -> Spec.catalog_ok s).
Proof.
  split; [apply AnswerListFacts.load_from_csv_ok|].
  split; [apply AnswerListFacts.mark_used_ok|].
  split; [apply AnswerListFacts.discard_used_ok|].
  split; [apply exec_catalog_ok|].
  induction 1 as [|o s Hs IH]; [done|by apply exec_catalog_ok].
Qed.

(** *** The chronology *)

Lemma remove_first_elem (x y : str) (l : list str) :
  NoDup l -> y ∈ remove_first x l -> y ∈ l /\ y <> x.
Proof.
  induction l as [|z l IH]; simpl; intros Hnd Hy; [by apply elem_of_nil in Hy|].
  apply NoDup_cons in Hnd as [Hz Hnd].
  case_bool_decide as Hzx.
  - subst z. split; [by right|]. by intros ->.
  - apply elem_of_cons in Hy as [->|Hy]; [split; [by left|done]|].
    destruct (IH Hnd Hy). split; [by right|done].
Qed.

Lemma remove_first_NoDup (x : str) (l : list str) :
  NoDup l -> NoDup (remove_first x l).
Proof.
  induction l as [|z l IH]; simpl; intros Hnd; [done|].
  apply NoDup_cons in Hnd as [Hz Hnd].
  case_bool_decide; [done|]. apply NoDup_cons. split; [|by apply IH].
  intros Hin. apply Hz. by apply (remove_first_elem x z l Hnd).
Qed.

(** Apart from the loading of a file that repeats a display key before
    its separator, every operation keeps the chronology free of duplicates
    and within the consumed set. *)
Lemma exec_chronology_ok (o : op) (s : t) :
  Spec.loads_distinct_items normalize_text o ->
  Spec.chronology_ok s -> Spec.chronology_ok (exec normalize_text o s).
Proof.
  unfold Spec.chronology_ok. intros Hload [Hnd Hin].
  assert (Hsame : forall s', Spec.same_catalog s s' ->
            NoDup (_answered_order s')
            /\ forall d, d ∈ _answered_order s' ->
                 exists al, answer_list s' = Some al /\ d ∈ AnswerList.used al).
  { intros s' [-> ->]. done. }
  destruct o; simpl.
  - pose proof (load_csv_catalog rows s) as Hl. destruct rows as [rows|];
      [|by apply Hsame].
    destruct Hl as [-> ->]. simpl in Hload. unfold AnswerList.answered. split.
    + by apply NoDup_filter.
    + intros d [Hd _]%list_elem_of_filter. by eexists.
  - apply Hsame, add_player_catalog.
  - apply Hsame, remove_player_catalog.
  - apply Hsame, start_game_catalog.
  - apply Hsame, stop_game_catalog.
  - destruct (host_submit_answer_catalog text s)
      as [Hs|(al & at' & prev & m & Hal & _ & _ & -> & Ho)]; [by apply Hsame|].
    assert (Hold : forall d, d ∈ _answered_order s ->
              d ∈ AnswerList.used
                    (snd (AnswerList.mark_used normalize_text al at' prev))).
    { intros d Hd. destruct (Hin d Hd) as (al' & Hal' & Hu).
      rewrite Hal in Hal'. injection Hal' as <-.
      by apply AnswerListFacts.mark_used_keeps. }
    destruct Ho as [->|(d & Hd & Hu & ->)].
    + split; [done|]. intros d Hd. eexists. split; [done|]. by apply Hold.
    + split.
      * apply NoDup_app. split; [done|]. split; [|apply NoDup_singleton].
        intros x Hx ->%list_elem_of_singleton. done.
      * intros x [Hx| ->%list_elem_of_singleton]%elem_of_app;
          (eexists; split; [done|]); [by apply Hold|done].
  - apply Hsame, host_pass_catalog.
  - destruct (unmark_answer_catalog display_key s)
      as [Hs|(al & Hal & _ & -> & ->)]; [by apply Hsame|].
    assert (Hold : forall d, d ∈ _answered_order s -> d ∈ AnswerList.used al).
    { intros d Hd. destruct (Hin d Hd) as (al' & Hal' & Hu). congruence. }
    case_bool_decide as Hk.
    + split; [by apply remove_first_NoDup|].
      intros d [Hd Hne]%remove_first_elem; [|done].
      eexists. split; [done|]. simpl. apply elem_of_difference.
      split; [by apply Hold|]. by intros ?%elem_of_singleton.
    + split; [done|]. intros d Hd. eexists. split; [done|]. simpl.
      apply elem_of_difference. split; [by apply Hold|].
      intros ->%elem_of_singleton. done.
  - apply Hsame, tick_catalog.
  - apply Hsame, reorder_catalog.
  - apply Hsame, move_player_catalog.
  - apply Hsame, forfeit_player_catalog.
  - apply Hsame, skip_player_catalog.
Qed.

(** *** Turns *)

Lemma current_player_some (s s1 : t) (p : Player.t) :
  current_player s = (Some p, s1) ->
  exists idx, 0 <= idx < Z.of_nat (length (players s))
    /\ s1 = with_current_idx idx s
    /\ players s !! Z.to_nat idx = Some p
    /\ Player.eliminated p = false.
Proof.
  intros H. pose proof (current_player_cases s) as Hc. rewrite H in Hc.
  destruct Hc as (i & Hi & Hp & Hel & _ & ->).
  eexists. split; [|done]. apply Z.mod_pos_bound. lia.
Qed.

Lemma with_current_idx_same (s : t) : with_current_idx (current_idx s) s = s.
Proof. by destruct s. Qed.

(** An active player under [current_idx] is the current player, and
    resolving it changes nothing. *)
Lemma current_player_stable (s : t) (p : Player.t) :
  0 <= current_idx s ->
  players s !! Z.to_nat (current_idx s) = Some p ->
  Player.eliminated p = false ->
  current_player s = (Some p, s).
Proof.
  intros Hge Hp Hel. pose proof (lookup_lt_Some _ _ _ Hp) as Hlt.
  rewrite current_player_nonempty by (intros Hnil; rewrite Hnil in Hlt; simpl in Hlt; lia).
  cbv zeta. rewrite seqZ_cons by lia. simpl List.find.
  unfold scan_idx at 1. rewrite Z.add_0_r, Z.mod_small by lia.
  unfold active_at at 1. rewrite Hp, Hel. simpl.
  unfold scan_idx. rewrite Z.add_0_r, Z.mod_small by lia.
  by rewrite Hp, with_current_idx_same.
Qed.

Lemma emit_current_player_stable (s : t) (p : Player.t) :
  0 <= current_idx s ->
  players s !! Z.to_nat (current_idx s) = Some p ->
  Player.eliminated p = false ->
  _emit_current_player s = emit (CurrentPlayer (Some (Player.name p))) s.
Proof.
  intros. unfold _emit_current_player. by erewrite current_player_stable.
Qed.

Lemma emit_player_state_shape (i : nat) (s : t) :
  exists evs, _emit_player_state i s =
    mk (players s) (answer_list s) (current_idx s) (is_running s)
       (_last_tick_monotonic s) (_answered_order s) (_last_answered_class s) evs.
Proof.
  unfold _emit_player_state. destruct s as [ps al ci run lt ord cls evs].
  cbn [players]. destruct (ps !! i); eexists; reflexivity.
Qed.

Lemma stop_game_shape (s : t) :
  exists idx evs, stop_game s =
    mk (players s) (answer_list s) idx false
       (_last_tick_monotonic s) (_answered_order s) (_last_answered_class s) evs.
Proof.
  unfold stop_game. cbv zeta.
  match goal with |- context [_emit_current_player ?x] =>
    destruct (emit_current_player_state x) as (idx & cp & ->) end.
  by eexists _, _.
Qed.

Lemma end_if_finished_shape (s : t) :
  _end_if_finished s = (false, s)
  \/ exists idx evs, _end_if_finished s =
       (true, mk (players s) (answer_list s) idx false
                 (_last_tick_monotonic s) (_answered_order s)
                 (_last_answered_class s) evs).
Proof.
  unfold _end_if_finished. destruct (stop_game_shape s) as (idx & evs & ->).
  destruct (_ && _); [right; by eexists _, _|].
  destruct (answer_list s); [|by left].
  destruct (_ =? 0); [right; by eexists _, _|by left].
Qed.

Lemma state_eta (s : t) :
  s = mk (players s) (answer_list s) (current_idx s) (is_running s)
         (_last_tick_monotonic s) (_answered_order s) (_last_answered_class s)
         (events s).
Proof. by destruct s. Qed.

(** What a turn advancement does: the catalog, the chronology, the clock
    reference and the remembered category stay; the roster stays too, or
    the countdown of one player who is not eliminated is set to that
    player's base time and [current_idx] becomes that player's
    position. *)
Lemma advance_shape (r : reason) (s : t) :
  exists ps idx run evs,
    _advance_turn_after_event r s =
    mk ps (answer_list s) idx run (_last_tick_monotonic s) (_answered_order s)
       (_last_answered_class s) evs
    /\ (ps = players s
        \/ exists j np,
             players s !! j = Some np
             /\ Player.eliminated np = false
             /\ ps = <[j := Player.set_remaining_ms (Player.base_seconds np * 1000) np]>
                       (players s)
             /\ idx = Z.of_nat j
             /\ run = is_running s).
Proof.
  unfold _advance_turn_after_event.
  destruct (end_if_finished_shape s) as [->|(idx & evs & ->)];
    [|eexists _, _, _, _; split; [reflexivity|by left]].
  destruct (length (players s)) as [|n] eqn:Hn;
    [eexists _, _, _, _; split; [reflexivity|by left]|].
  cbv zeta.
  match goal with |- context [current_player ?x] => set (sa := x) end.
  assert (Hx : exists i0, sa = with_current_idx i0 s).
  { subst sa. destruct (List.find _ _); [by eexists|].
    exists (current_idx s). by rewrite with_current_idx_same. }
  clearbody sa. destruct Hx as [i0 ->].
  destruct (current_player (with_current_idx i0 s)) as [[np|] s1] eqn:Hcp.
  - apply current_player_some in Hcp as (j & Hj & -> & Hnp & Hel).
    cbn [players with_current_idx] in Hj, Hnp.
    cbn [current_idx with_current_idx].
    match goal with |- context [_emit_player_state ?i ?x] =>
      destruct (emit_player_state_shape i x) as [evs ->] end.
    cbn [_emit_all_players emit update_player with_players with_current_idx
         players answer_list current_idx is_running _last_tick_monotonic
         _answered_order _last_answered_class events].
    erewrite emit_current_player_stable.
    + eexists _, _, _, _. split; [reflexivity|].
      cbn [emit _emit_all_players players current_idx is_running].
      right. exists (Z.to_nat j), np. split; [done|]. split; [done|].
      split; [|split; [lia|done]].
      apply list_eq. intros k. rewrite list_lookup_alter, list_lookup_insert.
      pose proof (lookup_lt_Some _ _ _ Hnp).
      destruct (decide (k = Z.to_nat j)) as [->|].
      * rewrite Hnp. simpl. rewrite decide_True by done.
        by rewrite decide_True by (split; [done|lia]).
      * rewrite decide_False by done. by rewrite decide_False by (by intros [? _]).
    + cbn. lia.
    + cbn. rewrite list_lookup_alter, decide_True by done. by rewrite Hnp.
    + done.
  - destruct (current_player_idx (with_current_idx i0 s)) as [idx Hidx].
    rewrite Hcp in Hidx. simpl in Hidx. subst s1.
    match goal with |- context [_emit_current_player ?x] =>
      destruct (emit_current_player_state x) as (idx' & cp & ->) end.
    eexists _, _, _, _. split; [reflexivity|by left].
Qed.


(** *** Wrong answers *)

Lemma remember_class_roster (al : AnswerList.t) (m : option str) (t_norm : str) (s : t) :
  exists c, remember_class al m t_norm s = with_last_answered_class c s.
Proof.
  assert (Hid : with_last_answered_class (_last_answered_class s) s = s)
    by (by destruct s).
  unfold remember_class. destruct m as [[|c d]|].
  - destruct (List.find _ _); first [by eexists|by exists (_last_answered_class s)].
  - destruct (AnswerList._class_map al !! (c :: d)) as [[|??]|];
      first [by eexists|by exists (_last_answered_class s)].
  - destruct (List.find _ _); first [by eexists|by exists (_last_answered_class s)].
Qed.







(** *** The countdown *)

Lemma alter_as_insert {A} (f : A -> A) (i : nat) (l : list A) (x : A) :
  l !! i = Some x -> alter f i l = <[i := f x]> l.
Proof.
  intros Hx. apply list_eq. intros k.
  rewrite list_lookup_alter, list_lookup_insert.
  pose proof (lookup_lt_Some _ _ _ Hx).
  destruct (decide (k = i)) as [->|].
  - rewrite Hx. simpl. rewrite decide_True by done.
    by rewrite decide_True by (split; [done|lia]).
  - rewrite decide_False by done. by rewrite decide_False by (by intros [? _]).
Qed.

Lemma current_player_with_last_tick (c : option Float.t) (s : t) :
  current_player (with_last_tick c s)
  = (fst (current_player s), with_last_tick c (snd (current_player s))).
Proof.
  unfold current_player. cbn [players with_last_tick current_idx].
  destruct (length (players s)); [done|]. by destruct (List.find _ _).
Qed.

Lemma turn_with_last_tick (c : option Float.t) (s : t) :
  Spec.turn (with_last_tick c s) = Spec.turn s.
Proof.
  unfold Spec.turn. rewrite current_player_with_last_tick.
  by destruct (current_player s) as [[p|] s1].
Qed.

(** The turn is a matter of the roster and of [current_idx]. *)
Lemma turn_at (s : t) (i : nat) (p : Player.t) :
  current_idx s = Z.of_nat i -> players s !! i = Some p ->
  Player.eliminated p = false -> Spec.turn s = Some i.
Proof.
  intros Hi Hp Hel. unfold Spec.turn.
  rewrite (current_player_stable s p); [|lia|by rewrite Hi, Nat2Z.id|done].
  by rewrite Hi, Nat2Z.id.
Qed.

(** What one tick of a running game does, once the clock reference is
    set: the reference becomes [now]; the roster stays (no active
    player, or [int] raises), or the countdown of the player whose turn
    it is drops by the elapsed milliseconds, floored at zero, and when it
    reaches zero that player is eliminated and the turn advances. *)
Lemma tick_shape (now last : Float.t) (s : t) :
  is_running s = true ->
  _last_tick_monotonic s = Some last ->
  exists ps idx run evs,
    state_of (tick now s) =
    mk ps (answer_list s) idx run (Some now) (_answered_order s)
       (_last_answered_class s) evs
    /\ (ps = players s
        \/ exists i p e,
             Spec.turn s = Some i
             /\ players s !! i = Some p
             /\ Player.eliminated p = false
             /\ Float.to_int (Float.mul (Float.sub now last) (Float.of_int 1000))
                = Float.Int e
             /\ let ms := Z.max 0 (Player.remaining_ms p - e) in
                (ms <> 0 /\ ps = <[i := Player.set_remaining_ms ms p]> (players s)
                 /\ idx = Z.of_nat i /\ run = true)
                \/ (ms = 0
                    /\ let ps1 := <[i := Player.eliminate (Player.set_remaining_ms 0 p)]>
                                    (players s) in
                       ps = ps1
                       \/ exists j np,
                            ps1 !! j = Some np
                            /\ Player.eliminated np = false
                            /\ ps = <[j := Player.set_remaining_ms
                                             (Player.base_seconds np * 1000) np]> ps1
                            /\ idx = Z.of_nat j)).
Proof.
  intros Hrun Hlast. unfold tick. rewrite Hrun, Hlast. cbn [negb]. cbv zeta.
  pose proof (turn_with_last_tick (Some now) s) as Hturn. unfold Spec.turn at 1 in Hturn.
  destruct (current_player (with_last_tick (Some now) s)) as [[p|] s1] eqn:Hcp.
  - apply current_player_some in Hcp as (i & Hi & -> & Hp & Hel).
    cbn [players with_last_tick] in Hi, Hp.
    cbn [current_idx with_current_idx] in *.
    destruct (Float.to_int _) as [e| |] eqn:He; cbn [state_of];
      [|eexists _, _, _, _; split; [reflexivity|by left]..].
    set (ms := Z.max 0 (Player.remaining_ms p - e)).
    destruct (Z.eqb_spec ms 0) as [Hms|Hms].
    + match goal with |- context [_emit_player_state ?i ?x] =>
        destruct (emit_player_state_shape i x) as [evs ->] end.
      cbn [_notify emit update_player with_players with_current_idx with_last_tick
           players answer_list current_idx is_running _last_tick_monotonic
           _answered_order _last_answered_class events].
      rewrite (alter_as_insert _ _ _ _ Hp).
      rewrite (alter_as_insert _ _ _ (Player.set_remaining_ms ms p))
        by (apply list_lookup_insert_eq; by eapply lookup_lt_Some).
      rewrite list_insert_insert_eq, Hms.
      match goal with |- context [_advance_turn_after_event ?r ?x] =>
        destruct (advance_shape r x) as (ps & idx & run & evs' & -> & Hps) end.
      cbn [players answer_list current_idx is_running _last_tick_monotonic
           _answered_order _last_answered_class events] in *.
      destruct Hps as [->|(j & np & Hj & Hnp & -> & -> & ->)].
      * match goal with |- context [_emit_current_player ?x] =>
          destruct (emit_current_player_state x) as (idx' & cp & ->) end.
        eexists _, _, _, _. split; [reflexivity|].
        right. exists (Z.to_nat i), p, e. split; [done|]. split; [done|].
        split; [done|]. split; [done|].
        right. split; [done|]. by left.
      * erewrite emit_current_player_stable.
        -- eexists _, _, _, _. split; [reflexivity|].
           right. exists (Z.to_nat i), p, e. split; [done|]. split; [done|].
           split; [done|]. split; [done|].
           right. split; [done|]. right. by exists j, np.
        -- cbn. lia.
        -- cbn. rewrite Nat2Z.id. apply list_lookup_insert_eq. by eapply lookup_lt_Some.
        -- done.
    + match goal with |- context [_emit_player_state ?i ?x] =>
        destruct (emit_player_state_shape i x) as [evs ->] end.
      cbn [_emit_all_players emit update_player with_players with_current_idx
           with_last_tick
           players answer_list current_idx is_running _last_tick_monotonic
           _answered_order _last_answered_class events].
      rewrite (alter_as_insert _ _ _ _ Hp).
      erewrite emit_current_player_stable.
      * eexists _, _, _, _. split; [reflexivity|].
        right. exists (Z.to_nat i), p, e. split; [done|]. split; [done|].
        split; [done|]. split; [done|].
        left. cbn. rewrite Z2Nat.id by lia. done.
      * cbn. lia.
      * cbn. apply list_lookup_insert_eq. by eapply lookup_lt_Some.
      * done.
  - destruct (current_player_idx (with_last_tick (Some now) s)) as [idx Hidx].
    rewrite Hcp in Hidx. simpl in Hidx. subst s1.
    match goal with |- context [_end_if_finished ?x] =>
      destruct (end_if_finished_shape x) as [->|(idx' & evs & ->)] end;
    match goal with |- context [_emit_current_player ?x] =>
      destruct (emit_current_player_state x) as (idx'' & cp & ->) end;
    eexists _, _, _, _; (split; [reflexivity|by left]).
Qed.

Lemma tick_last_tick (now : Float.t) (s : t) :
  is_running s = true -> _last_tick_monotonic (state_of (tick now s)) = Some now.
Proof.
  intros Hrun. destruct (_last_tick_monotonic s) as [last|] eqn:Hlast.
  - by destruct (tick_shape now last s Hrun Hlast) as (ps & idx & run & evs & -> & _).
  - unfold tick. by rewrite Hrun, Hlast.
Qed.

Lemma tick_step (now : Float.t) (s : t) :
  Spec.countdowns_ok s ->
  (forall last, _last_tick_monotonic s = Some last ->
     Float.is_finite last = true /\ Spec.reading (Some last) now) ->
  Spec.countdown_step s (state_of (tick now s))
  /\ Spec.countdowns_ok (state_of (tick now s)).
Proof.
  intros Hok Hclock.
  assert (Hsame : forall s', players s' = players s ->
            Spec.countdown_step s s' /\ Spec.countdowns_ok s').
  { intros s' Hps. unfold Spec.countdown_step, Spec.countdowns_ok. rewrite Hps.
    split; [|done]. split; [done|]. intros j p q Hp Hq.
    rewrite Hp in Hq. injection Hq as <-. split; [by apply (Hok j)|left; lia]. }
  destruct (is_running s) eqn:Hrun;
    [|apply Hsame; unfold tick; by rewrite Hrun].
  destruct (_last_tick_monotonic s) as [last|] eqn:Hlast;
    [|apply Hsame; unfold tick; by rewrite Hrun, Hlast].
  destruct (Hclock last eq_refl) as (Hvl & Hvn & Hle).
  destruct (tick_shape now last s Hrun Hlast) as (ps & idx & run & evs & Heq & Hps).
  rewrite Heq.
  destruct Hps as [->|(i & p & e & Hturn & Hp & Hel & He & Hcases)];
    [by apply Hsame|].
  pose proof (FloatFacts.elapsed_not_negative now last e Hvl Hvn Hle He) as Hpos.
  destruct (Hok i p Hp) as [Hbase Hrem]. cbv zeta in Hcases.
  set (ms := Z.max 0 (Player.remaining_ms p - e)) in *.
  assert (Hms : 0 <= ms <= Player.remaining_ms p) by lia.
  pose proof (lookup_lt_Some _ _ _ Hp) as Hlen.
  unfold Spec.countdown_step, Spec.countdowns_ok.
  cbn [players current_idx].
  destruct Hcases as [(_ & -> & _)|[Hzero [->|(j & np & Hj & Hnp & -> & ->)]]].
  - rewrite length_insert. split; [split; [done|]|].
    + intros k p0 q Hp0 Hq.
      destruct (decide (k = i)) as [->|Hne].
      * rewrite list_lookup_insert_eq in Hq by done. injection Hq as <-.
        rewrite Hp in Hp0. injection Hp0 as <-. cbn. split; [lia|left; lia].
      * rewrite list_lookup_insert_ne in Hq by done.
        rewrite Hp0 in Hq. injection Hq as <-.
        split; [by apply (Hok k)|left; lia].
    + intros k q Hq. destruct (decide (k = i)) as [->|Hne].
      * rewrite list_lookup_insert_eq in Hq by done. injection Hq as <-.
        cbn. split; [done|lia].
      * rewrite list_lookup_insert_ne in Hq by done. by apply (Hok k).
  - rewrite length_insert. split; [split; [done|]|].
    + intros k p0 q Hp0 Hq.
      destruct (decide (k = i)) as [->|Hne].
      * rewrite list_lookup_insert_eq in Hq by done. injection Hq as <-.
        rewrite Hp in Hp0. injection Hp0 as <-. cbn. split; [lia|left; lia].
      * rewrite list_lookup_insert_ne in Hq by done.
        rewrite Hp0 in Hq. injection Hq as <-.
        split; [by apply (Hok k)|left; lia].
    + intros k q Hq. destruct (decide (k = i)) as [->|Hne].
      * rewrite list_lookup_insert_eq in Hq by done. injection Hq as <-.
        cbn. split; [done|lia].
      * rewrite list_lookup_insert_ne in Hq by done. by apply (Hok k).
  - assert (Hji : j <> i).
    { intros ->. rewrite list_lookup_insert_eq in Hj by done.
      injection Hj as <-. done. }
    rewrite list_lookup_insert_ne in Hj by done.
    destruct (Hok j np Hj) as [Hnb Hnr].
    pose proof (lookup_lt_Some _ _ _ Hj) as Hlenj.
    rewrite !length_insert. split; [split; [done|]|].
    + intros k p0 q Hp0 Hq.
      destruct (decide (k = j)) as [->|Hnj].
      * rewrite list_lookup_insert_eq in Hq by (by rewrite length_insert).
        injection Hq as <-. cbn. split; [lia|]. right. split; [done|]. split.
        -- apply (turn_at _ j (Player.set_remaining_ms
                                 (Player.base_seconds np * 1000) np)); [done| |done].
           cbn [players]. apply list_lookup_insert_eq. by rewrite length_insert.
        -- exists i, (Player.eliminate (Player.set_remaining_ms 0 p)).
           split; [done|]. split; [done|]. split; [|done]. cbn [players].
           rewrite list_lookup_insert_ne by done.
           by apply list_lookup_insert_eq.
      * rewrite list_lookup_insert_ne in Hq by done.
        destruct (decide (k = i)) as [->|Hne].
        -- rewrite list_lookup_insert_eq in Hq by done. injection Hq as <-.
           rewrite Hp in Hp0. injection Hp0 as <-. cbn. split; [lia|left; lia].
        -- rewrite list_lookup_insert_ne in Hq by done.
           rewrite Hp0 in Hq. injection Hq as <-.
           split; [by apply (Hok k)|left; lia].
    + intros k q Hq. destruct (decide (k = j)) as [->|Hnj].
      * rewrite list_lookup_insert_eq in Hq by (by rewrite length_insert).
        injection Hq as <-. cbn. split; [done|lia].
      * rewrite list_lookup_insert_ne in Hq by done.
        destruct (decide (k = i)) as [->|Hne].
        -- rewrite list_lookup_insert_eq in Hq by done. injection Hq as <-.
           cbn. split; [done|lia].
        -- rewrite list_lookup_insert_ne in Hq by done. by apply (Hok k).
Qed.

Lemma tick_not_running (now : Float.t) (s : t) : is_running s = false -> state_of (tick now s) = s.
Proof. intros H. unfold tick. by rewrite H. Qed.

(** [start_game] establishes what the countdown property assumes. *)
Lemma start_game_countdowns_ok (now : Float.t) (s : t) :
  (forall j p, players s !! j = Some p -> 0 <= Player.base_seconds p) ->
  is_Some (answer_list s) -> players s <> [] ->
  Spec.countdowns_ok (start_game now s).
Proof.
  intros Hbase [al Hal] Hne. unfold start_game. rewrite Hal.
  destruct (players s) as [|p0 ps] eqn:Hps; [done|].
  cbv zeta.
  match goal with |- context [current_player ?x] =>
    pose proof (f_equal players (current_player_state x)) as Hx;
    destruct (current_player x) as [cp s1] end.
  cbn [snd with_current_idx _emit_running_state emit players] in Hx.
  rewrite emit_current_player_players in Hx.
  cbn [_emit_all_players _notify emit with_last_tick with_is_running
       with_current_idx with_players players] in Hx.
  assert (Hs1 : Spec.countdowns_ok s1).
  { unfold Spec.countdowns_ok. rewrite Hx. intros j p Hp.
    apply list_lookup_fmap_Some in Hp as (p' & -> & Hp'). cbn.
    specialize (Hbase j p' Hp'). lia. }
  destruct cp; [|done].
  destruct (emit_player_state_shape (Z.to_nat (current_idx s1)) s1) as [evs ->].
  done.
Qed.

Lemma move_player_players (name : str) (target_index : Z) (s : t) :
  players (move_player normalize_text name target_index s) =
  match list_find (fun p => normalize_text (Player.name p) = normalize_text name)
                  (players s) with
  | None => players s
  | Some (orig_idx, p) =>
    let n := Z.of_nat (length (players s)) in
    let target := Z.max 0 (Z.min target_index n) in
    let ins := if Z.of_nat orig_idx <? target then target - 1 else target in
    if ins =? Z.of_nat orig_idx then players s
    else
      let ps := delete orig_idx (players s) in
      insert_at (Z.to_nat (Z.max 0 (Z.min ins (Z.of_nat (length ps))))) p ps
  end.
Proof.
  unfold move_player. destruct (list_find _ _) as [[orig p]|]; [|done].
  cbv zeta. destruct (_ =? Z.of_nat orig); [done|].
  by rewrite emit_current_player_players.
Qed.

Lemma move_player_is_running (name : str) (target_index : Z) (s : t) :
  is_running (move_player normalize_text name target_index s) = is_running s.
Proof.
  unfold move_player. destruct (list_find _ _) as [[orig p]|]; [|done].
  cbv zeta. destruct (_ =? Z.of_nat orig); [done|].
  match goal with |- context [_emit_current_player ?x] =>
    destruct (emit_current_player_state x) as (idx & cp & ->) end.
  done.
Qed.

Lemma insert_at_Permutation (k : nat) (p : Player.t) (ps : list Player.t) :
  insert_at k p ps ≡ₚ p :: ps.
Proof.
  unfold insert_at. rewrite <- Permutation_middle. by rewrite take_drop.
Qed.

(** *** Countdowns in every reachable state *)

Lemma countdowns_ok_players (s s' : t) :
  players s' = players s -> Spec.countdowns_ok s -> Spec.countdowns_ok s'.
Proof. unfold Spec.countdowns_ok. by intros ->. Qed.

Lemma countdowns_ok_update (i : nat) (g : Player.t -> Player.t) (s : t) :
  (forall p, players s !! i = Some p ->
             0 <= Player.base_seconds p /\ 0 <= Player.remaining_ms p ->
             0 <= Player.base_seconds (g p) /\ 0 <= Player.remaining_ms (g p)) ->
  Spec.countdowns_ok s -> Spec.countdowns_ok (update_player i g s).
Proof.
  intros Hg Hok j q. cbn. rewrite list_lookup_alter.
  case_decide as Hj; [subst j|apply Hok].
  destruct (players s !! i) as [p|] eqn:Hp; [|done].
  intros [= <-]. apply Hg; [done|]. by apply (Hok i).
Qed.

Lemma countdowns_ok_advance (r : reason) (s : t) :
  Spec.countdowns_ok s -> Spec.countdowns_ok (_advance_turn_after_event r s).
Proof.
  intros Hok. destruct (advance_shape r s) as (ps & idx & run & evs & -> & Hps).
  destruct Hps as [->|(j & np & Hj & _ & -> & _)]; [done|].
  intros k q. cbn. destruct (decide (k = j)) as [->|].
  - rewrite list_lookup_insert_eq by (by eapply lookup_lt_Some).
    intros [= <-]. cbn. destruct (Hok j np Hj). lia.
  - rewrite list_lookup_insert_ne by done. apply Hok.
Qed.

(** Peels one call off the state in a goal [Spec.countdowns_ok _]. *)
Ltac ok_step :=
  lazymatch goal with
  | |- Spec.countdowns_ok (_advance_turn_after_event _ _) => apply countdowns_ok_advance
  | |- Spec.countdowns_ok (update_player _ _ _) =>
    apply countdowns_ok_update; [by intros ? _ [? ?]|]
  | |- Spec.countdowns_ok (_emit_current_player ?x) =>
    apply (countdowns_ok_players x); [apply emit_current_player_players|]
  | |- Spec.countdowns_ok (_emit_player_state ?i ?x) =>
    apply (countdowns_ok_players x); [by apply (frame_emit_player_state players)|]
  | |- Spec.countdowns_ok (_emit_answers_updated ?x) =>
    apply (countdowns_ok_players x); [by apply (frame_emit_answers_updated players)|]
  | |- Spec.countdowns_ok (remember_class _ _ _ ?x) =>
    apply (countdowns_ok_players x); [by apply (frame_remember_class players)|]
  | |- Spec.countdowns_ok (stop_game ?x) =>
    apply (countdowns_ok_players x); [by apply (frame_stop_game players)|]
  | |- Spec.countdowns_ok (emit _ ?x) => apply (countdowns_ok_players x); [done|]
  | |- Spec.countdowns_ok (_notify _ _ ?x) => apply (countdowns_ok_players x); [done|]
  | |- Spec.countdowns_ok (_emit_all_players ?x) =>
    apply (countdowns_ok_players x); [done|]
  | |- Spec.countdowns_ok (_emit_running_state ?x) =>
    apply (countdowns_ok_players x); [done|]
  | |- Spec.countdowns_ok (with_current_idx _ ?x) =>
    apply (countdowns_ok_players x); [done|]
  | |- Spec.countdowns_ok (with_is_running _ ?x) =>
    apply (countdowns_ok_players x); [done|]
  | |- Spec.countdowns_ok (with_last_tick _ ?x) =>
    apply (countdowns_ok_players x); [done|]
  | |- Spec.countdowns_ok (with_last_answered_class _ ?x) =>
    apply (countdowns_ok_players x); [done|]
  | |- Spec.countdowns_ok (with_answer_list _ ?x) =>
    apply (countdowns_ok_players x); [done|]
  | |- Spec.countdowns_ok (with_answered_order _ ?x) =>
    apply (countdowns_ok_players x); [done|]
  end.

Ltac ok_steps := cbv zeta; repeat ok_step; try done.

(** Names the result of the call of [current_player] in the goal; the
    state it leaves differs from the one it was given in [current_idx]
    only. *)
Ltac ok_current_player cp :=
  lazymatch goal with
  | |- context [current_player ?x] =>
    let idx := fresh "idx" in
    let H := fresh "Hcp" in
    destruct (current_player_idx x) as [idx H];
    destruct (current_player x) as [cp ?]; cbn [snd] in H; subst
  end.

Lemma add_player_countdowns_ok (pid name : str) (b pl wl : Z) (s : t) :
  0 <= b -> Spec.countdowns_ok s ->
  Spec.countdowns_ok (add_player normalize_text pid name b pl wl s).
Proof.
  intros Hb Hok. unfold add_player. destruct (_ || _); [ok_steps|].
  destruct (_name_exists _ _ _); ok_steps.
  intros j p Hp. cbn in Hp.
  apply list_elem_of_lookup_2, elem_of_app in Hp as [Hp|Hp].
  - apply list_elem_of_lookup in Hp as [k Hp]. by apply (Hok k).
  - apply list_elem_of_singleton in Hp as ->. cbn. lia.
Qed.

Lemma remove_player_countdowns_ok (name : str) (s : t) :
  Spec.countdowns_ok s -> Spec.countdowns_ok (remove_player normalize_text name s).
Proof.
  intros Hok. unfold remove_player. ok_steps. destruct (0 <? _); ok_steps.
  all: intros j p Hp; cbn in Hp;
    apply list_elem_of_lookup_2, list_elem_of_filter in Hp as [_ Hp];
    apply list_elem_of_lookup in Hp as [k Hp]; by apply (Hok k).
Qed.

Lemma start_game_keeps_countdowns_ok (now : Float.t) (s : t) :
  Spec.countdowns_ok s -> Spec.countdowns_ok (start_game now s).
Proof.
  intros Hok. destruct (answer_list s) as [al|] eqn:Hal.
  - destruct (decide (players s = [])) as [Hnil|Hne].
    + unfold start_game. rewrite Hal, Hnil. ok_steps.
    + apply start_game_countdowns_ok; [|by eexists|done].
      intros j p Hp. by apply (Hok j).
  - unfold start_game. rewrite Hal. ok_steps.
Qed.

Lemma reject_answer_countdowns_ok (i : nat) (text : str) (s : t) :
  Spec.countdowns_ok s -> Spec.countdowns_ok (reject_answer i text s).
Proof.
  intros Hok. unfold reject_answer. destruct (players s !! i) as [p|] eqn:Hp; [|done].
  unfold Player.consume_wrong_answer.
  destruct (0 <? Player.remaining_wrong_answers p); ok_steps.
  apply countdowns_ok_update; [|done].
  intros q Hq _. cbn. rewrite Hp in Hq. injection Hq as <-. by apply (Hok i).
Qed.

Lemma accept_answer_countdowns_ok (i : nat) (al : AnswerList.t) (text answer_text : str)
    (prev m : option str) (s : t) :
  Spec.countdowns_ok s ->
  Spec.countdowns_ok (accept_answer normalize_text i al text answer_text prev m s).
Proof.
  intros Hok. unfold accept_answer.
  destruct (AnswerList.mark_used normalize_text al answer_text prev) as [ud al'].
  ok_steps.
  match goal with
  | |- Spec.countdowns_ok match last (_answered_order ?y) with _ => _ end =>
    apply (countdowns_ok_players y)
  end.
  { destruct (last _) as [d|]; [|done].
    by destruct (AnswerList._class_map al' !! d) as [[|??]|]. }
  ok_steps.
  destruct (match ud with Some d => Some d | None => m end) as [[|c d]|]; ok_steps.
  case_bool_decide; ok_steps.
Qed.

Lemma host_submit_answer_countdowns_ok (text : str) (s : t) :
  Spec.countdowns_ok s ->
  Spec.countdowns_ok (host_submit_answer normalize_text text s).
Proof.
  intros Hok. unfold host_submit_answer. ok_current_player cp.
  destruct cp as [p|]; [|ok_steps].
  cbn [answer_list with_current_idx]. destruct (answer_list s) as [al|]; [|ok_steps].
  cbv zeta. case_bool_decide; ok_steps.
  - apply accept_answer_countdowns_ok. ok_steps.
  - apply reject_answer_countdowns_ok. ok_steps.
Qed.

Lemma host_pass_countdowns_ok (s : t) :
  Spec.countdowns_ok s -> Spec.countdowns_ok (host_pass s).
Proof.
  intros Hok. unfold host_pass.
  destruct (current_player s) as [[p|] s1] eqn:Hcp.
  - apply current_player_some in Hcp as (idx & Hidx & -> & Hp & _).
    unfold Player.consume_pass. destruct (Player.can_pass p); ok_steps.
    apply countdowns_ok_update; [|ok_steps].
    intros q _ _. cbn. by apply (Hok (Z.to_nat idx)).
  - destruct (current_player_idx s) as [idx Hidx]. rewrite Hcp in Hidx.
    cbn in Hidx. subst s1. ok_steps.
Qed.

Lemma move_player_Permutation (name : str) (target_index : Z) (s : t) :
  players (move_player normalize_text name target_index s) ≡ₚ players s.
Proof.
  rewrite move_player_players.
  destruct (list_find _ _) as [[orig p]|] eqn:Hfind; [|done].
  cbv zeta. destruct (_ =? Z.of_nat orig); [done|].
  apply list_find_Some in Hfind as (Hp & _ & _).
  rewrite insert_at_Permutation. symmetry. by apply delete_Permutation.
Qed.

Lemma move_player_countdowns_ok (name : str) (target : Z) (s : t) :
  Spec.countdowns_ok s -> Spec.countdowns_ok (move_player normalize_text name target s).
Proof.
  intros Hok j p Hp.
  apply list_elem_of_lookup_2 in Hp.
  rewrite move_player_Permutation in Hp.
  apply list_elem_of_lookup in Hp as [k Hp]. by apply (Hok k).
Qed.

Lemma forfeit_player_countdowns_ok (name : str) (s : t) :
  Spec.countdowns_ok s -> Spec.countdowns_ok (forfeit_player normalize_text name s).
Proof.
  intros Hok. unfold forfeit_player. destruct (list_find _ _) as [[i p]|]; ok_steps.
Qed.

Lemma skip_player_countdowns_ok (name : str) (s : t) :
  Spec.countdowns_ok s -> Spec.countdowns_ok (skip_player normalize_text name s).
Proof.
  intros Hok. unfold skip_player. ok_current_player cp.
  destruct cp as [p|]; [|ok_steps]. case_bool_decide; ok_steps.
Qed.

Lemma clock_ok_reading (clock : option Float.t) (now : Float.t) (s : t) :
  Spec.clock_ok clock s -> Spec.reading clock now ->
  forall last, _last_tick_monotonic s = Some last ->
    Float.is_finite last = true /\ Spec.reading (Some last) now.
Proof.
  intros Hclock [Hfin Hle] last Hl.
  destruct (Hclock last Hl) as (Hlast & c & -> & Hc).
  split; [done|]. split; [done|]. by eapply FloatFacts.leb_trans.
Qed.

Lemma exec_countdowns_ok (clock : option Float.t) (o : op) (s : t) :
  Spec.valid_op clock o -> Spec.clock_ok clock s ->
  Spec.countdowns_ok s -> Spec.countdowns_ok (exec normalize_text o s).
Proof.
  intros Hvalid Hclock Hok. destruct o; simpl in *.
  - apply (countdowns_ok_players s); [by apply (frame_load_csv players)|done].
  - by apply add_player_countdowns_ok.
  - by apply remove_player_countdowns_ok.
  - by apply start_game_keeps_countdowns_ok.
  - ok_steps.
  - by apply host_submit_answer_countdowns_ok.
  - by apply host_pass_countdowns_ok.
  - apply (countdowns_ok_players s); [by apply (frame_unmark_answer players)|done].
  - apply tick_step; [done|]. by eapply clock_ok_reading.
  - apply (countdowns_ok_players s); [by apply (frame_reorder players)|done].
  - by apply move_player_countdowns_ok.
  - by apply forfeit_player_countdowns_ok.
  - by apply skip_player_countdowns_ok.
Qed.

Lemma start_game_last_tick (now : Float.t) (s : t) :
  _last_tick_monotonic (start_game now s) = _last_tick_monotonic s
  \/ _last_tick_monotonic (start_game now s) = Some now.
Proof.
  unfold start_game. destruct (answer_list s); [|by left].
  destruct (players s); [by left|]. right. cbv zeta.
  match goal with |- context [current_player ?x] =>
    pose proof (frame_current_player _last_tick_monotonic
                  ltac:(done) x) as Hcp;
    destruct (current_player x) as [cp s1] end.
  cbn [snd] in Hcp.
  change (_last_tick_monotonic (_emit_running_state ?x))
    with (_last_tick_monotonic x) in Hcp.
  rewrite (frame_emit_current_player _last_tick_monotonic) in Hcp by done.
  destruct cp; [|done].
  by rewrite (frame_emit_player_state _last_tick_monotonic) by done.
Qed.

Lemma tick_last_tick_cases (now : Float.t) (s : t) :
  _last_tick_monotonic (state_of (tick now s)) = _last_tick_monotonic s
  \/ _last_tick_monotonic (state_of (tick now s)) = Some now.
Proof.
  destruct (is_running s) eqn:Hrun.
  - right. by apply tick_last_tick.
  - left. by rewrite tick_not_running.
Qed.

Lemma exec_clock_ok (clock : option Float.t) (o : op) (s : t) :
  Spec.valid_op clock o -> Spec.clock_ok clock s ->
  Spec.clock_ok (Spec.clock_after clock o) (exec normalize_text o s).
Proof.
  intros Hvalid Hclock.
  assert (Hsame : forall s',
            _last_tick_monotonic s' = _last_tick_monotonic s ->
            Spec.clock_ok clock s').
  { intros s' Hs' last. rewrite Hs'. apply Hclock. }
  assert (Hnow : forall now s',
            Spec.reading clock now ->
            _last_tick_monotonic s' = _last_tick_monotonic s
            \/ _last_tick_monotonic s' = Some now ->
            Spec.clock_ok (Some now) s').
  { intros now s' Hread [Hs'|Hs'] last; rewrite Hs'.
    - intros Hl.
      destruct (clock_ok_reading clock now s Hclock Hread last Hl)
        as (Hlast & _ & Hle).
      split; [done|]. by exists now.
    - intros [= <-]. destruct Hread as [Hfin _]. split; [done|].
      exists now. split; [done|]. by apply FloatFacts.leb_refl. }
  destruct o; simpl in *.
  - by apply Hsame, (frame_load_csv _last_tick_monotonic).
  - by apply Hsame, (frame_add_player _last_tick_monotonic).
  - by apply Hsame, (frame_remove_player _last_tick_monotonic).
  - apply Hnow; [done|apply start_game_last_tick].
  - by apply Hsame, (frame_stop_game _last_tick_monotonic).
  - by apply Hsame, (frame_host_submit_answer _last_tick_monotonic).
  - by apply Hsame, (frame_host_pass _last_tick_monotonic).
  - by apply Hsame, (frame_unmark_answer _last_tick_monotonic).
  - apply Hnow; [done|apply tick_last_tick_cases].
  - by apply Hsame, (frame_reorder _last_tick_monotonic).
  - by apply Hsame, (frame_move_player _last_tick_monotonic).
  - by apply Hsame, (frame_forfeit_player _last_tick_monotonic).
  - by apply Hsame, (frame_skip_player _last_tick_monotonic).
Qed.

Lemma run_countdowns_ok (ops : list op) (clock : option Float.t) (s : t) :
  Spec.valid_run clock ops -> Spec.clock_ok clock s -> Spec.countdowns_ok s ->
  Spec.clock_ok (Spec.clock_of clock ops) (run normalize_text ops s)
  /\ Spec.countdowns_ok (run normalize_text ops s).
Proof.
  revert clock s. induction ops as [|o ops IH]; intros clock s Hvalid Hclock Hok;
    [done|].
  destruct Hvalid as [Ho Hrest]. apply IH; [done|..].
  - by apply exec_clock_ok.
  - by eapply exec_countdowns_ok.
Qed.

Lemma ticks_steps (nows : list Float.t) (clock : option Float.t) (s : t) :
  Spec.countdowns_ok s -> Spec.clock_ok clock s ->
  Spec.clock_readings clock nows ->
  Spec.all_steps Spec.countdown_step s (Spec.ticks nows s).
Proof.
  revert clock s. induction nows as [|now rest IH]; intros clock s Hok Hclock Hnows;
    [done|].
  cbn [Spec.clock_readings Spec.ticks Spec.all_steps] in *.
  destruct Hnows as [Hread Hrest].
  destruct (tick_step now s Hok) as [Hstep Hok'];
    [by eapply clock_ok_reading|].
  split; [done|]. apply (IH (Some now)); [done| |done].
  apply (exec_clock_ok clock (Tick now) s Hread Hclock).
Qed.

(** C2: in a game reached from a fresh controller by operations that are
    given non-negative time allotments and monotonic clock readings, along
    any further sequence of [tick] calls with monotonic readings, every
    player's countdown, the active player's in particular, stays
    non-negative and never increases from one tick to the next, except
    when that player's turn starts: the player whose turn it was has run
    out of time and is eliminated, the turn has passed to this player,
    and the countdown is set to [base_seconds * 1000]. *)
Theorem countdown_monotone (ops : list op) (nows : list Float.t) :
  Spec.valid_run None ops ->
  Spec.clock_readings (Spec.clock_of None ops) nows ->
  let s := run normalize_text ops init in
  Spec.all_steps Spec.countdown_step s (Spec.ticks nows s).
Proof.
  intros Hvalid Hnows s.
  destruct (run_countdowns_ok ops None init Hvalid) as [Hclock Hok]; [done..|].
  by eapply ticks_steps.
Qed.

(** *** Reordering the roster *)

(** C9 (amended): neither [reorder_players_by_name] nor [move_player]
    consults [is_running]: on two controllers that differ only in that
    flag each produces the same roster, and each leaves the flag as it
    was.  [move_player] therefore repositions a player also while the
    game is running; what it produces is a rearrangement of the roster
    it was given. *)
Theorem reorder_and_move_ignore_is_running (s : t) (b : bool) :
  (forall names,
      players (state_of (reorder_players_by_name names (with_is_running b s)))
      = players (state_of (reorder_players_by_name names s))
      /\ is_running (state_of (reorder_players_by_name names s)) = is_running s)
  /\ (forall name target_index,
      players (move_player normalize_text name target_index (with_is_running b s))
      = players (move_player normalize_text name target_index s)
      /\ is_running (move_player normalize_text name target_index s) = is_running s
      /\ players (move_player normalize_text name target_index s) ≡ₚ players s).
Proof.
  split.
  - intros names. unfold reorder_players_by_name. simpl.
    destruct names, (players s); done.
  - intros name target_index. split; [|split].
    + by rewrite !move_player_players.
    + apply move_player_is_running.
    + apply move_player_Permutation.
Qed.

End WithNormalizer.

(** C9 as stated fails: in the running sample game, moving P1 to the end
    of the roster swaps the two players, and the game is still running
    afterwards. *)
Lemma move_player_while_running_counterexample :
  is_running Spec.sample_game = true
  /\ Player.name <$> players Spec.sample_game = [Text.lit "P1"; Text.lit "P2"]
  /\ Player.name <$> players (move_player Text.normalize_ascii (Text.lit "P1") 2
                               Spec.sample_game)
     = [Text.lit "P2"; Text.lit "P1"]
  /\ is_running (move_player Text.normalize_ascii (Text.lit "P1") 2 Spec.sample_game)
     = true.
Proof. vm_compute. repeat split. Qed.

Lemma countdown_monotone_witness :
  Spec.valid_run None Spec.sample_setup
  /\ Spec.clock_readings (Spec.clock_of None Spec.sample_setup) Spec.sample_readings
  /\ Spec.all_steps Spec.countdown_step Spec.sample_game
       (Spec.ticks Spec.sample_readings Spec.sample_game).
Proof.
  assert (Hvalid : Spec.valid_run None Spec.sample_setup).
  { cbn [Spec.valid_run Spec.sample_setup Spec.valid_op Spec.clock_after].
    repeat split; try lia. }
  assert (Hclock : Spec.clock_readings (Spec.clock_of None Spec.sample_setup)
                     Spec.sample_readings).
  { repeat split. }
  split; [exact Hvalid|]. split; [exact Hclock|].
  exact (countdown_monotone Text.normalize_ascii Spec.sample_setup
           Spec.sample_readings Hvalid Hclock).
Defined.


(** C10 fails on the code: loading [Spec.repeated_rows] leaves the same
    display key twice in the chronology, and after unmarking that key the
    chronology still holds it although the consumed set no longer does.
    The loop over the rows before the separator appends every key to
    [items], whereas the loop over the rows after it first checks
    [norm_disp not in items]. *)
Lemma chronology_duplicate_after_load :
  let s := load_csv Text.normalize_ascii (Some Spec.repeated_rows) init in
  let s' := snd (unmark_answer (Text.lit "aioi") s) in
  reachable Text.normalize_ascii s
  /\ _answered_order s = [Text.lit "aioi"; Text.lit "aioi"]
  /\ ~ NoDup (_answered_order s)
  /\ reachable Text.normalize_ascii s'
  /\ _answered_order s' = [Text.lit "aioi"]
  /\ (AnswerList.used <$> answer_list s') = Some ∅.
Proof.
  intros s s'.
  assert (Hr : reachable Text.normalize_ascii s)
    by apply (reachable_exec _ (LoadCsv (Some Spec.repeated_rows))), reachable_init.
  split; [exact Hr|]. split; [vm_compute; reflexivity|]. split.
  { replace (_answered_order s) with [Text.lit "aioi"; Text.lit "aioi"]
      by (vm_compute; reflexivity).
    intros [Hn _]%NoDup_cons. apply Hn. left. }
  split; [apply (reachable_exec _ (UnmarkAnswer (Text.lit "aioi")) s Hr)|].
  split; vm_compute; reflexivity.
Qed.

(** *** The text that is matched *)

Lemma between_inside (o c : N) (pre ans post : str) :
  o <> c -> o ∉ ans ++ c :: post -> c ∉ post ->
  between o c (pre ++ o :: ans ++ c :: post) = ans.
Proof.
  intros Hoc Ho Hc. unfold between.
  rewrite (TextFacts.rfind_last o pre) by done.
  replace (pre ++ o :: ans ++ c :: post) with ((pre ++ o :: ans) ++ c :: post)
    by (by rewrite <- app_assoc).
  rewrite (TextFacts.rfind_last c) by done.
  rewrite length_app. simpl.
  destruct (Z.ltb_spec (Z.of_nat (length pre))
              (Z.of_nat (length pre + S (length ans)))); [|lia].
  unfold Text.slice.
  replace (Z.to_nat (Z.of_nat (length pre) + 1)) with (length (pre ++ [o]))
    by (rewrite length_app; simpl; lia).
  replace (Z.to_nat _) with (length ans) by lia.
  replace ((pre ++ o :: ans) ++ c :: post) with ((pre ++ [o]) ++ ans ++ c :: post)
    by (by rewrite <- !app_assoc).
  rewrite drop_app_length. by rewrite take_app_length.
Qed.

Lemma between_crossed (o c : N) (pre mid post : str) :
  c ∉ mid ++ o :: post ->
  between o c (pre ++ c :: mid ++ o :: post) = pre ++ c :: mid ++ o :: post.
Proof.
  intros Hc. unfold between.
  rewrite (TextFacts.rfind_last c pre) by done.
  pose proof (TextFacts.rfind_at_least o (pre ++ c :: mid) post) as Hge.
  rewrite <- app_assoc in Hge. simpl in Hge.
  rewrite length_app in Hge. simpl in Hge.
  destruct (Z.ltb_spec (Text.rfind o (pre ++ c :: mid ++ o :: post))
              (Z.of_nat (length pre))); [lia|done].
Qed.

Lemma extract_by_kind (text : str) :
  extract_answer_text text =
  match Spec.paren_kind text with
  | Some (o, c) => between o c text
  | None => text
  end.
Proof.
  unfold extract_answer_text, Spec.paren_kind.
  destruct (decide (fw_open ∈ text /\ fw_close ∈ text)) as [[H1 H2]|Hn].
  { apply TextFacts.contains_elem_of in H1, H2. by rewrite H1, H2. }
  destruct (Text.contains fw_open text && Text.contains fw_close text) eqn:E.
  { exfalso. apply Hn. apply andb_true_iff in E as [H1 H2].
    by rewrite <- !TextFacts.contains_elem_of. }
  destruct (decide (ascii_open ∈ text /\ ascii_close ∈ text)) as [[H1 H2]|Hn'].
  { apply TextFacts.contains_elem_of in H1, H2. by rewrite H1, H2. }
  destruct (Text.contains ascii_open text && Text.contains ascii_close text) eqn:E'.
  { exfalso. apply Hn'. apply andb_true_iff in E' as [H1 H2].
    by rewrite <- !TextFacts.contains_elem_of. }
  done.
Qed.

Lemma paren_kind_distinct (text : str) (o c : N) :
  Spec.paren_kind text = Some (o, c) -> o <> c.
Proof.
  unfold Spec.paren_kind. repeat case_decide; intros [= <- <-]; done.
Qed.

(** C8 (amended): the text [host_submit_answer] hands to [find_match] is
    determined by one kind of parenthesis, the full-width kind when the
    raw text holds both "（" and "）" and otherwise the ASCII kind when it
    holds both "(" and ")".  When the last opening parenthesis of that
    kind comes before the last closing one, it is what stands strictly
    between these two; when the last closing one comes first, and when
    the text holds neither kind completely, it is the whole text.  So
    "兵庫（あいおい）" is matched as "あいおい". *)
Theorem extract_answer_text_last_pair (text : str) :
  (forall o c pre ans post,
      Spec.paren_kind text = Some (o, c) ->
      text = pre ++ o :: ans ++ c :: post ->
      o ∉ ans ++ c :: post -> c ∉ post ->
      extract_answer_text text = ans)
  /\ (forall o c pre mid post,
      Spec.paren_kind text = Some (o, c) ->
      text = pre ++ c :: mid ++ o :: post ->
      c ∉ mid ++ o :: post ->
      extract_answer_text text = text)
  /\ (Spec.paren_kind text = None -> extract_answer_text text = text)
  /\ extract_answer_text Spec.hyogo_aioi = Spec.aioi.
Proof.
  rewrite extract_by_kind. repeat split.
  - intros o c pre ans post Hk -> Ho Hc. rewrite Hk.
    apply between_inside; [by eapply paren_kind_distinct|done..].
  - intros o c pre mid post Hk -> Hc. rewrite Hk. by apply between_crossed.
  - by intros ->.
Qed.

(** C8 as stated fails: "(a)(b" holds the well-ordered pair "(a)", yet
    the text that is matched is the whole string, which is not the
    interior of any pair. *)
Lemma extract_answer_text_counterexample :
  Spec.has_pair ascii_open ascii_close (Text.lit "(a)(b")
  /\ extract_answer_text (Text.lit "(a)(b") = Text.lit "(a)(b"
  /\ ~ Spec.interior_of_a_pair (Text.lit "(a)(b")
         (extract_answer_text (Text.lit "(a)(b")).
Proof.
  split; [|split].
  - exists 0%nat, 2%nat. split; [lia|]. split; reflexivity.
  - reflexivity.
  - intros (o & c & i & j & _ & Hij & _ & Hj & Heq).
    apply (f_equal length) in Heq.
    rewrite length_take, length_drop in Heq.
    change (length (extract_answer_text (Text.lit "(a)(b"))) with 5%nat in Heq.
    change (length (Text.lit "(a)(b")) with 5%nat in Heq. lia.
Qed.

End GameControllerFacts.

(** * Further properties of the catalog *)

Module AnswerListProps.
Import AnswerList Spec Invariants AnswerListFacts.

Section WithNormalizer.

Variable normalize_text : str -> str.

Lemma parse_row_some (row : list str) (d : str) (ds ms : list str) :
  parse_row normalize_text row = Some (d, (ds, ms)) ->
  d <> [] /\ ds <> [] /\ ms <> []
  /\ ds = displays_of row /\ ms = matches_of row
  /\ d = normalize_text (Text.join [45%N] ds).
Proof.
  unfold parse_row. destruct row as [|c row]; [done|].
  destruct (displays_of (c :: row)) as [|d0 ds0] eqn:Hd; [done|].
  destruct (matches_of (c :: row)) as [|m0 ms0] eqn:Hm; [done|].
  destruct (Text.truthy _) eqn:Ht; [|done].
  intros [= <- <- <-]. split; [|done].
  by destruct (normalize_text _).
Qed.

(** *** What a loaded catalog holds *)

Lemma add_unanswered_stored (acc : t) (row : list str) :
  stored_tight acc -> stored_tight (add_unanswered normalize_text acc row).
Proof.
  intros [Hst Hdom]. unfold add_unanswered.
  destruct (parse_row normalize_text row) as [[d [ds ms]]|] eqn:Hp; [|done].
  apply parse_row_some in Hp as (Hd & Hds & Hms & _).
  split.
  - intros x Hx. cbn in *. destruct (decide (x = d)) as [->|Hne].
    + rewrite !lookup_insert_eq. split; [done|]. repeat (split; [by eexists|]).
      by exists ds, ms.
    + rewrite !lookup_insert_ne by done. apply Hst.
      apply elem_of_app in Hx as [Hx|Hx%list_elem_of_singleton]; [done|].
      by destruct Hne.
  - intros k Hk. cbn in *. apply not_elem_of_app in Hk as [Hk Hkd].
    rewrite lookup_insert_ne; [by apply Hdom|].
    intros ->. apply Hkd. by apply list_elem_of_singleton.
Qed.

Lemma add_answered_stored (acc : t) (row : list str) :
  stored_tight acc -> stored_tight (add_answered normalize_text acc row).
Proof.
  intros [Hst Hdom]. unfold add_answered.
  destruct (parse_row normalize_text row) as [[d [ds ms]]|] eqn:Hp; [|done].
  apply parse_row_some in Hp as (Hd & Hds & Hms & _).
  cbv zeta. case_bool_decide as Hin.
  - destruct (Hst d Hin) as (_ & _ & _ & _ & ds' & ms' & Hdm & _).
    rewrite Hdm. split; [|done]. intros x Hx. cbn in *. by apply Hst.
  - rewrite (Hdom d Hin). split.
    + intros x Hx. cbn in *. destruct (decide (x = d)) as [->|Hne].
      * rewrite !lookup_insert_eq. split; [done|]. repeat (split; [by eexists|]).
        by exists ds, ms.
      * rewrite !lookup_insert_ne by done. apply Hst.
        apply elem_of_app in Hx as [Hx|Hx%list_elem_of_singleton]; [done|].
        by destruct Hne.
    + intros k Hk. cbn in *. apply not_elem_of_app in Hk as [Hk Hkd].
      rewrite lookup_insert_ne; [by apply Hdom|].
      intros ->. apply Hkd. by apply list_elem_of_singleton.
Qed.

Lemma foldl_stored (f : t -> list str -> t) (rows : list (list str)) (acc : t) :
  (forall acc row, stored_tight acc -> stored_tight (f acc row)) ->
  stored_tight acc -> stored_tight (foldl f acc rows).
Proof.
  intros Hf. revert acc. induction rows as [|row rows IH]; intros acc H; simpl.
  - done.
  - apply IH, Hf, H.
Qed.

(** X1: in a catalog that [load_from_csv] returns, whatever the rows of
    the file, every entry has a non-empty display key, a full-match, a
    category and an element key, and a stored row with at least one
    display and one match fragment: the [.get] defaults and the fallback
    row of [save_to_csv] are never needed for it. *)
Theorem load_from_csv_stored (rows : list (list str)) :
  stored (load_from_csv normalize_text rows).
Proof.
  assert (H0 : stored_tight empty).
  { split; [|done]. intros d Hd. by apply elem_of_nil in Hd. }
  unfold load_from_csv. cbv zeta.
  destruct (separator_idx rows) as [i|]; cbn [default from_option id].
  - apply foldl_stored; [apply add_answered_stored|].
    apply foldl_stored; [apply add_unanswered_stored|done].
  - apply foldl_stored; [apply add_unanswered_stored|done].
Qed.

(** *** The two sections of a file *)

Lemma fold_unanswered_keys (rows : list (list str)) (acc : t) :
  let acc' := foldl (add_unanswered normalize_text) acc rows in
  items acc' = items acc ++ keys_of_rows normalize_text rows
  /\ used acc' = used acc.
Proof.
  revert acc. induction rows as [|row rows IH]; intros acc; simpl.
  { by rewrite app_nil_r. }
  destruct (IH (add_unanswered normalize_text acc row)) as [Hi Hu].
  cbv zeta in *. rewrite Hi, Hu. unfold add_unanswered, keys_of_rows.
  cbn [omap]. fold (keys_of_rows normalize_text rows).
  destruct (parse_row normalize_text row) as [[d [ds ms]]|]; cbn.
  - by rewrite <- app_assoc.
  - done.
Qed.

Lemma fold_answered_keys (rows : list (list str)) (acc : t) :
  let acc' := foldl (add_answered normalize_text) acc rows in
  used acc' = list_to_set (keys_of_rows normalize_text rows) ∪ used acc
  /\ exists rest,
       items acc' = items acc ++ rest
       /\ forall d, d ∈ rest -> d ∈ keys_of_rows normalize_text rows.
Proof.
  revert acc. induction rows as [|row rows IH]; intros acc; simpl.
  { split; [set_solver|]. exists []. rewrite app_nil_r. split; [done|].
    intros d Hd. by apply elem_of_nil in Hd. }
  destruct (IH (add_answered normalize_text acc row)) as (Hu & rest & Hi & Hrest).
  cbv zeta in *. rewrite Hu, Hi. unfold add_answered, keys_of_rows.
  cbn [omap]. fold (keys_of_rows normalize_text rows).
  destruct (parse_row normalize_text row) as [[d [ds ms]]|]; cbn.
  - split; [set_solver|]. case_bool_decide.
    + exists rest. split; [done|]. intros x Hx. right. by apply Hrest.
    + exists (d :: rest). rewrite <- app_assoc. split; [done|].
      intros x [->|Hx]%elem_of_cons; [by left|]. right. by apply Hrest.
  - split; [done|]. by exists rest.
Qed.

(** X2: what the two sections of a file become.  Without a separator
    row every row that is not skipped is an unanswered entry, in file
    order, and nothing is marked used.  With one, the entries start with
    the keys of the rows before the first separator, in file order (a key
    listed twice there is an entry twice); the used set is exactly the set
    of keys of the rows after it; every other entry comes from a row after
    it. *)
Theorem load_from_csv_sections (rows : list (list str)) :
  let a := load_from_csv normalize_text rows in
  match separator_idx rows with
  | None => items a = keys_of_rows normalize_text rows /\ used a = ∅
  | Some i =>
    used a = list_to_set (keys_of_rows normalize_text (drop (S i) rows))
    /\ exists rest,
         items a = keys_of_rows normalize_text (take i rows) ++ rest
         /\ forall d, d ∈ rest ->
              d ∈ keys_of_rows normalize_text (drop (S i) rows)
  end.
Proof.
  unfold load_from_csv. cbv zeta.
  destruct (separator_idx rows) as [i|]; cbn [default from_option id].
  - destruct (fold_unanswered_keys (take i rows) empty) as [Hi Hu].
    destruct (fold_answered_keys (drop (S i) rows)
                (foldl (add_unanswered normalize_text) empty (take i rows)))
      as (Hu' & rest & Hi' & Hrest).
    cbv zeta in *. rewrite Hu', Hi', Hi, Hu. cbn [items used empty app].
    split; [set_solver|]. by exists rest.
  - destruct (fold_unanswered_keys (take (length rows) rows) empty) as [Hi Hu].
    cbv zeta in *. rewrite Hi, Hu, firstn_all. done.
Qed.

(** *** Marking and unmarking *)

Lemma mark_used_cases (a : t) (text : str) (prev : option str) :
  let a' := snd (mark_used normalize_text a text prev) in
  match fst (mark_used normalize_text a text prev) with
  | Some d =>
    find_match normalize_text a text prev = Some d
    /\ d ∈ items a /\ (d ∉ used a)
    /\ used a' = {[d]} ∪ used a
    /\ items a' = items a
    /\ remaining a' = filter (fun x => x <> d) (remaining a)
    /\ (remaining_count a' < remaining_count a)%Z
  | None => a' = a
  end.
Proof.
  unfold mark_used.
  destruct (find_match normalize_text a text prev) as [d|] eqn:Hfind; [|done].
  destruct (Text.truthy d); [|done]. cbn [fst snd].
  pose proof (AnswerListFacts.find_match_loop_first normalize_text a (normalize_text text) prev
                (items a)) as Hfirst.
  unfold find_match in Hfind. rewrite Hfind in Hfirst.
  destruct Hfirst as (l1 & l2 & Hitems & [Hunused _] & _).
  assert (Hd : d ∈ items a) by (rewrite Hitems; set_solver).
  assert (Hrem : remaining
                   (mk (items a) ({[d]} ∪ used a) (_match_map a) (_class_map a)
                       (_element_map a) (_display_map a))
                 = filter (fun x => x <> d) (remaining a)).
  { unfold remaining. cbn [items used]. rewrite list_filter_filter.
    apply list_filter_iff. intros x. set_solver. }
  split; [done|]. split; [done|]. split; [done|]. split; [done|].
  split; [done|]. split; [done|].
  unfold remaining_count. rewrite Hrem.
  assert (Hin : d ∈ remaining a).
  { unfold remaining. apply list_elem_of_filter. done. }
  pose proof (length_filter_lt (fun x => x <> d) (remaining a) d Hin) as Hlt.
  specialize (Hlt ltac:(naive_solver)). lia.
Qed.

(** X3: what [mark_used] does.  When it reports a key, that key is the
    entry [find_match] finds, it was an unused entry, it is added to the
    used set and to nothing else, it leaves the remaining list (together
    with every other copy of the same key), and the count of remaining
    entries drops; when it reports nothing the catalog is unchanged. *)
Theorem mark_used_effect (a : t) (text : str) (prev : option str) :
  let a' := snd (mark_used normalize_text a text prev) in
  match fst (mark_used normalize_text a text prev) with
  | Some d =>
    find_match normalize_text a text prev = Some d
    /\ d ∈ items a /\ (d ∉ used a)
    /\ used a' = {[d]} ∪ used a
    /\ items a' = items a
    /\ remaining a' = filter (fun x => x <> d) (remaining a)
    /\ (remaining_count a' < remaining_count a)%Z
  | None => a' = a
  end.
Proof. apply mark_used_cases. Qed.

(** X4: when no entry has the empty display key, as in every loaded
    catalog, the truthiness test of [mark_used] never discards a match:
    [mark_used] reports exactly what [find_match] finds, and [contains]
    holds exactly when [mark_used] would mark an entry. *)
Theorem mark_used_reports_match (a : t) (text : str) (prev : option str) :
  [] ∉ items a ->
  fst (mark_used normalize_text a text prev) = find_match normalize_text a text prev
  /\ (contains normalize_text a text prev = true
      <-> is_Some (fst (mark_used normalize_text a text prev))).
Proof.
  intros Hne.
  assert (H : fst (mark_used normalize_text a text prev)
              = find_match normalize_text a text prev).
  { unfold mark_used.
    destruct (find_match normalize_text a text prev) as [d|] eqn:Hfind; [|done].
    destruct d as [|c d]; [|done]. exfalso. apply Hne.
    by eapply AnswerListFacts.find_match_loop_elem. }
  split; [done|]. rewrite H. unfold contains. apply bool_decide_eq_true.
Qed.

(** X5: unmarking the key that [mark_used] has just reported gives back
    the catalog as it was before the call. *)
Theorem mark_used_then_discard (a : t) (text : str) (prev : option str) (d : str) :
  fst (mark_used normalize_text a text prev) = Some d ->
  discard_used (snd (mark_used normalize_text a text prev)) d = a.
Proof.
  intros Hd. pose proof (mark_used_cases a text prev) as H.
  cbv zeta in H. rewrite Hd in H. destruct H as (_ & _ & Hun & Hu & _).
  unfold mark_used in *.
  destruct (find_match normalize_text a text prev) as [m|]; [|done].
  destruct (Text.truthy m); [|done]. cbn [fst snd] in *. injection Hd as ->.
  unfold discard_used. cbn [items used _match_map _class_map _element_map
                             _display_map].
  destruct a as [its us mm cm em dm]. cbn [used] in *. f_equal. set_solver.
Qed.

(** *** Saving a game in progress *)

(** The catalog loaded from a well-formed file. *)
Lemma load_wf_file (pre post : list (list str)) (sep : list str) :
  wf_file normalize_text pre sep post ->
  let a := load_from_csv normalize_text (pre ++ sep :: post) in
  items a = (key_of normalize_text <$> pre) ++ (key_of normalize_text <$> post)
  /\ used a = list_to_set (key_of normalize_text <$> post)
  /\ forall r, r ∈ pre ++ post ->
       _display_map a !! key_of normalize_text r
       = Some (every_other r, every_other (tail r)).
Proof.
  intros (Hwf & Hkeys & Hnd & Hsep).
  apply Forall_app in Hwf as [Hwf1 Hwf2].
  apply Forall_app in Hkeys as [Hk1 Hk2].
  rewrite fmap_app in Hnd. apply NoDup_app in Hnd as (Hnd1 & Hdisj & Hnd2).
  unfold load_from_csv. rewrite separator_idx_found by done.
  cbn [default from_option id]. rewrite take_app_length.
  replace (drop (S (length pre)) (pre ++ sep :: post)) with post.
  2:{ rewrite (cons_middle sep pre post), app_assoc. symmetry.
      apply drop_app_length'. rewrite length_app. simpl. lia. }
  destruct (fold_unanswered normalize_text pre empty Hwf1 Hk1)
    as (Hi1 & Hu1 & Hd1 & Hl1).
  cbv zeta in *. cbn [items used _display_map empty app] in *.
  set (acc := foldl (add_unanswered normalize_text) empty pre) in *.
  destruct (fold_answered normalize_text post acc Hwf2 Hk2 Hnd2)
    as (Hi2 & Hu2 & Hd2 & Hl2).
  { intros k Hk. rewrite Hi1. intros Hk'. by apply (Hdisj k). }
  { intros k Hk. rewrite Hi1 in Hk. by rewrite Hd1. }
  cbv zeta in *. rewrite Hi2, Hi1, Hu2, Hu1.
  split; [done|]. split; [set_solver|].
  intros r [Hr|Hr]%elem_of_app; [|by apply Hl2].
  rewrite Hd2; [by apply Hl1|]. apply Hdisj. by apply list_elem_of_fmap_2.
Qed.

Lemma filter_fmap_keys {A B} (g : A -> B) (P : B -> Prop)
    {Hdec : forall y, Decision (P y)} (l : list A) :
  filter P (g <$> l) = g <$> filter (fun x => P (g x)) l.
Proof.
  induction l as [|x l IH]; [done|]. cbn [fmap list_fmap].
  rewrite !filter_cons. destruct (decide (P (g x))); cbn; by rewrite IH.
Qed.

(** What [save_to_csv] writes for a catalog that has the entries and the
    stored rows of a well-formed file, whichever of them are used: the
    rows of the unused entries, the empty row, the rows of the used
    ones. *)
Lemma save_wf_catalog (pre post : list (list str)) (sep : list str) (a : t) :
  wf_file normalize_text pre sep post ->
  items a = items (load_from_csv normalize_text (pre ++ sep :: post)) ->
  _display_map a = _display_map (load_from_csv normalize_text (pre ++ sep :: post)) ->
  let rows := pre ++ post in
  let pre' := filter (fun r => key_of normalize_text r ∉ used a) rows in
  let post' := filter (fun r => key_of normalize_text r ∈ used a) rows in
  save_to_csv a = pre' ++ [] :: post'
  /\ wf_file normalize_text pre' [] post'.
Proof.
  intros Hfile Hitems Hdm. cbv zeta.
  destruct (load_wf_file pre post sep Hfile) as (Hi & _ & Hl). cbv zeta in *.
  destruct Hfile as (Hwf & Hkeys & Hnd & Hsep).
  rewrite <- fmap_app in Hi. rewrite <- Hitems in Hi. rewrite <- Hdm in Hl.
  set (rows := pre ++ post) in *.
  split.
  - unfold save_to_csv, remaining, answered. rewrite Hi, !filter_fmap_keys.
    rewrite !(rows_rebuilt normalize_text a); [done|..].
    + apply Forall_forall. intros r [_ Hr]%list_elem_of_filter.
      by apply (proj1 (Forall_forall _ _) Hwf).
    + intros r [_ Hr]%list_elem_of_filter. by apply Hl.
    + apply Forall_forall. intros r [_ Hr]%list_elem_of_filter.
      by apply (proj1 (Forall_forall _ _) Hwf).
    + intros r [_ Hr]%list_elem_of_filter. by apply Hl.
  - assert (Hperm : filter (fun r => key_of normalize_text r ∉ used a) rows
                    ++ filter (fun r => key_of normalize_text r ∈ used a) rows
                    ≡ₚ rows).
    { rewrite (comm (++)). apply filter_app_complement. }
    split; [|split; [|split]].
    + by rewrite Hperm.
    + by rewrite Hperm.
    + by rewrite Hperm.
    + done.
Qed.

(** X6: saving a game in progress and loading it back.  For a catalog
    that has the entries and the stored rows of a well-formed file and
    any of its entries marked used, the file [save_to_csv] writes is
    loaded back with exactly the same entries marked used, the unused
    entries first and then the used ones, each group in its former order;
    saving again reproduces the file. *)
Theorem save_then_load_keeps_progress (pre post : list (list str)) (a : t) :
  wf_file normalize_text pre [] post ->
  items a = items (load_from_csv normalize_text (pre ++ [] :: post)) ->
  _display_map a = _display_map (load_from_csv normalize_text (pre ++ [] :: post)) ->
  used_in_items a ->
  let a' := load_from_csv normalize_text (save_to_csv a) in
  used a' = used a
  /\ items a' = remaining a ++ answered a
  /\ save_to_csv a' = save_to_csv a.
Proof.
  intros Hfile Hitems Hdm Hused. cbv zeta.
  destruct (save_wf_catalog pre post [] a Hfile Hitems Hdm) as [Hsave Hfile'].
  cbv zeta in *. rewrite Hsave.
  destruct (load_wf_file _ _ _ Hfile') as (Hi & Hu & _). cbv zeta in *.
  destruct (load_wf_file pre post [] Hfile) as (Hi0 & _ & _). cbv zeta in *.
  rewrite <- fmap_app in Hi0. rewrite <- Hitems in Hi0.
  split; [|split].
  - rewrite Hu. apply set_eq. intros d. rewrite elem_of_list_to_set. split.
    + intros (r & -> & [Hr _]%list_elem_of_filter)%list_elem_of_fmap. done.
    + intros Hd. pose proof (Hused d Hd) as Hin. rewrite Hi0 in Hin.
      apply list_elem_of_fmap in Hin as (r & -> & Hr).
      apply list_elem_of_fmap_2. by apply list_elem_of_filter.
  - rewrite Hi. unfold remaining, answered. by rewrite Hi0, !filter_fmap_keys.
  - by apply save_load_any_separator.
Qed.

End WithNormalizer.

Lemma mark_used_reports_match_witness :
  ([] ∉ items Spec.sample_catalog)
  /\ fst (mark_used Text.normalize_ascii Spec.sample_catalog (Text.lit "hyogokobe") None)
     = find_match Text.normalize_ascii Spec.sample_catalog (Text.lit "hyogokobe") None.
Proof.
  assert (H : [] ∉ items Spec.sample_catalog).
  { refine (bool_decide_unpack _ _). vm_compute. exact I. }
  split; [exact H|].
  exact (proj1 (mark_used_reports_match Text.normalize_ascii Spec.sample_catalog
                  (Text.lit "hyogokobe") None H)).
Defined.

Lemma mark_used_then_discard_witness :
  fst (mark_used Text.normalize_ascii Spec.sample_catalog (Text.lit "hyogokobe") None)
  = Some (Text.lit "hyogo-kobe")
  /\ discard_used
       (snd (mark_used Text.normalize_ascii Spec.sample_catalog
               (Text.lit "hyogokobe") None))
       (Text.lit "hyogo-kobe")
     = Spec.sample_catalog.
Proof.
  assert (H : fst (mark_used Text.normalize_ascii Spec.sample_catalog
                     (Text.lit "hyogokobe") None)
              = Some (Text.lit "hyogo-kobe")) by (vm_compute; reflexivity).
  split; [exact H|].
  exact (mark_used_then_discard Text.normalize_ascii Spec.sample_catalog
           (Text.lit "hyogokobe") None (Text.lit "hyogo-kobe") H).
Defined.

Lemma save_then_load_keeps_progress_witness :
  wf_file Text.normalize_ascii (take 2 sample_rows) [] (drop 3 sample_rows)
  /\ used (load_from_csv Text.normalize_ascii
             (save_to_csv
                (snd (mark_used Text.normalize_ascii
                        (load_from_csv Text.normalize_ascii sample_rows)
                        (Text.lit "hyogokobe") None))))
     = used (snd (mark_used Text.normalize_ascii
                    (load_from_csv Text.normalize_ascii sample_rows)
                    (Text.lit "hyogokobe") None)).
Proof.
  assert (H : wf_file Text.normalize_ascii (take 2 sample_rows) []
                (drop 3 sample_rows)).
  { unfold wf_file. cbn [take drop sample_rows app].
    split; [|split; [|split]].
    - repeat (apply Forall_cons; split; [split; [discriminate|reflexivity]|]).
      apply Forall_nil_2.
    - repeat (apply Forall_cons; split; [vm_compute; discriminate|]).
      apply Forall_nil_2.
    - refine (bool_decide_unpack _ _). vm_compute. exact I.
    - reflexivity. }
  split; [exact H|].
  apply (save_then_load_keeps_progress Text.normalize_ascii
           (take 2 sample_rows) (drop 3 sample_rows) _ H).
  - vm_compute. reflexivity.
  - vm_compute. reflexivity.
  - apply mark_used_ok, load_from_csv_ok.
Defined.

End AnswerListProps.

(** * Further properties of the turn engine *)

Module GameControllerProps.
Import GameController Invariants GameControllerFacts.

Local Open Scope Z_scope.

Lemma Forall2_insert_at {A} (R : A -> A -> Prop) (l : list A) (i : nat) (x y : A) :
  (forall z, R z z) -> l !! i = Some x -> R x y -> Forall2 R l (<[i := y]> l).
Proof.
  intros Hrefl Hx Hxy. apply Forall2_same_length_lookup_2.
  - by rewrite length_insert.
  - intros j a b Ha Hb. destruct (decide (j = i)) as [->|Hne].
    + rewrite list_lookup_insert_eq in Hb by (by eapply lookup_lt_Some).
      congruence.
    + rewrite list_lookup_insert_ne in Hb by done. by simplify_eq.
Qed.

Lemma Forall2_refl_same {A} (R : A -> A -> Prop) (l : list A) :
  (forall z, R z z) -> Forall2 R l l.
Proof. intros Hrefl. induction l; by constructor. Qed.

Lemma Forall2_trans_same {A} (R : A -> A -> Prop) (l1 l2 l3 : list A) :
  (forall x y z, R x y -> R y z -> R x z) ->
  Forall2 R l1 l2 -> Forall2 R l2 l3 -> Forall2 R l1 l3.
Proof.
  intros Htrans H12. revert l3. induction H12; intros l3 H23.
  - by inversion H23.
  - inversion H23; subst. constructor; eauto.
Qed.

Lemma Forall2_keeps {A} (Q : A -> Prop) (l l' : list A) :
  Forall2 (fun x y => Q x -> Q y) l l' -> Forall Q l -> Forall Q l'.
Proof.
  induction 1 as [|x y l l' Hxy _ IH]; [done|].
  intros [Hx Hl]%Forall_cons. constructor; auto.
Qed.

Lemma Forall2_same_image {A B} (g : A -> B) (l l' : list A) :
  Forall2 (fun x y => g x = g y) l l' -> g <$> l = g <$> l'.
Proof. induction 1 as [|x y l l' Hxy _ IH]; [done|]. cbn. by rewrite Hxy, IH. Qed.

Lemma NoDup_fmap_filter {A B} (g : A -> B) (P : A -> Prop)
    {Hdec : forall x, Decision (P x)} (l : list A) :
  NoDup (g <$> l) -> NoDup (g <$> filter P l).
Proof.
  induction l as [|x l IH]; [done|]. cbn [fmap list_fmap].
  intros [Hx Hl]%NoDup_cons. rewrite filter_cons. destruct (decide (P x)); [|auto].
  cbn [fmap list_fmap]. apply NoDup_cons. split; [|auto].
  intros (y & Hy & [_ Hin]%list_elem_of_filter)%list_elem_of_fmap.
  apply Hx. rewrite Hy. by apply list_elem_of_fmap_2.
Qed.

(** ** The remembered category *)

Lemma insert_by_len_elem (x y : str) (l : list str) :
  y ∈ insert_by_len x l <-> y = x \/ y ∈ l.
Proof.
  induction l as [|z l IH]; cbn.
  - set_solver.
  - destruct (length z <=? length x)%nat; [set_solver|].
    rewrite !elem_of_cons, IH. naive_solver.
Qed.

Lemma sort_by_len_desc_elem (y : str) (l : list str) :
  y ∈ sort_by_len_desc l <-> y ∈ l.
Proof.
  unfold sort_by_len_desc. induction l as [|x l IH]; cbn; [done|].
  rewrite insert_by_len_elem, elem_of_cons, IH. done.
Qed.

Lemma insert_by_len_longest_first (x : str) (l : list str) :
  longest_first l -> longest_first (insert_by_len x l).
Proof.
  induction l as [|z l IH]; cbn; [intros _; split; [|done]; set_solver|].
  intros [Hz Hl]. destruct (Nat.leb_spec (length z) (length x)) as [Hle|Hgt].
  - cbn. split; [|done]. intros b [->|Hb]%elem_of_cons; [done|].
    specialize (Hz b Hb). lia.
  - cbn. split; [|auto]. intros b [->|Hb]%insert_by_len_elem; [lia|auto].
Qed.

Lemma sort_by_len_desc_longest_first (l : list str) :
  longest_first (sort_by_len_desc l).
Proof.
  unfold sort_by_len_desc. induction l as [|x l IH]; cbn; [done|].
  by apply insert_by_len_longest_first.
Qed.

Lemma find_longest_first (P : str -> bool) (l : list str) :
  longest_first l ->
  match List.find P l with
  | Some x => x ∈ l /\ P x = true
               /\ forall y, y ∈ l -> P y = true -> (length y <= length x)%nat
  | None => forall y, y ∈ l -> P y = false
  end.
Proof.
  induction l as [|a l IH]; cbn; [intros _ y Hy; by apply elem_of_nil in Hy|].
  intros [Ha Hl]. destruct (P a) eqn:HPa.
  - split; [by left|]. split; [done|].
    intros y [->|Hy]%elem_of_cons _; [done|auto].
  - specialize (IH Hl). destruct (List.find P l) as [x|].
    + destruct IH as (Hx & HPx & Hmax). split; [by right|]. split; [done|].
      intros y [->|Hy]%elem_of_cons HPy; [congruence|auto].
    + intros y [->|Hy]%elem_of_cons; [done|auto].
Qed.

Lemma startswith_take (s prefix : str) :
  Text.startswith s prefix = true <-> take (length prefix) s = prefix.
Proof.
  revert s. induction prefix as [|a prefix IH]; intros s; cbn.
  { by destruct s. }
  destruct s as [|b s]; cbn; [done|].
  rewrite andb_true_iff, N.eqb_eq, IH. split; [by intros [-> ->]|].
  by intros [= -> ->].
Qed.

(** X7: the category [host_submit_answer] remembers when the text
    matches no entry.  It is the longest non-empty category key of the
    catalog with which the normalized text starts; there is only one of
    that length, so the order in which the keys are enumerated does not
    matter.  When the text starts with no category key, the remembered
    category stays. *)
Theorem remember_class_longest_prefix (al : AnswerList.t) (t_norm : str) (s : t) :
  let s' := remember_class al None t_norm s in
  (s' = s /\ forall cv, ~ class_prefix al t_norm cv)
  \/ exists cv,
       s' = with_last_answered_class (Some cv) s
       /\ class_prefix al t_norm cv
       /\ forall cv', class_prefix al t_norm cv' ->
            (length cv' <= length cv)%nat
            /\ (length cv' = length cv -> cv' = cv).
Proof.
  cbv zeta. unfold remember_class.
  pose proof (find_longest_first
                (fun cv => Text.truthy cv && Text.startswith t_norm cv)
                (class_values al)
                (sort_by_len_desc_longest_first _)) as Hfind.
  assert (Hin : forall cv, cv ∈ class_values al
                           <-> exists d, AnswerList._class_map al !! d = Some cv).
  { intros cv. unfold class_values.
    rewrite sort_by_len_desc_elem, elem_of_elements, elem_of_map_img. done. }
  assert (HP : forall cv, Text.truthy cv && Text.startswith t_norm cv = true
                          <-> cv <> [] /\ Text.startswith t_norm cv = true).
  { intros cv. rewrite andb_true_iff. destruct cv; cbn; [|naive_solver].
    split; intros [? ?]; done. }
  destruct (List.find _ (class_values al)) as [cv|].
  - right. exists cv. destruct Hfind as (Hcv & HPcv & Hmax).
    apply Hin in Hcv. apply HP in HPcv as [Hne Hpre].
    split; [done|]. split; [done|].
    intros cv' (Hcv' & Hne' & Hpre').
    assert (Hle : (length cv' <= length cv)%nat).
    { apply Hmax; [by apply Hin|]. by apply HP. }
    split; [done|]. intros Hlen.
    apply startswith_take in Hpre, Hpre'. by rewrite <- Hpre, <- Hpre', Hlen.
  - left. split; [done|]. intros cv (Hcv & Hne & Hpre).
    apply Hin in Hcv. specialize (Hfind cv Hcv).
    assert (Text.truthy cv && Text.startswith t_norm cv = true) by (by apply HP).
    congruence.
Qed.

(** ** Moving a player *)

Lemma insert_at_lookup (k : nat) (p : Player.t) (ps : list Player.t) :
  (k <= length ps)%nat ->
  insert_at k p ps !! k = Some p /\ delete k (insert_at k p ps) = ps.
Proof.
  intros Hk. unfold insert_at.
  assert (Hlen : length (take k ps) = k) by (rewrite length_take; lia).
  split.
  - rewrite lookup_app_r by lia. by rewrite Hlen, Nat.sub_diag.
  - rewrite <- Hlen at 1. rewrite delete_middle. apply take_drop.
Qed.

Section WithNormalizer.

Variable normalize_text : str -> str.

(** X8: [move_player].  A name that no player has gives one error
    notification and nothing else.  Otherwise the first player with that
    name, up to normalization, ends up at the position computed from the
    drop target (the target clamped to the roster, minus one when it lies
    behind the player's old position), and the other players keep their
    relative order; when that position is the old one, nothing at all
    changes. *)
Theorem move_player_result (name : str) (target_index : Z) (s : t) :
  let s' := move_player normalize_text name target_index s in
  match list_find (fun p => normalize_text (Player.name p) = normalize_text name)
                  (players s) with
  | None => s' = emit (Notification error (msg_player_not_found name)) s
  | Some (orig, p) =>
    let n := Z.of_nat (length (players s)) in
    let target := Z.max 0 (Z.min target_index n) in
    let ins := Z.to_nat (if Z.of_nat orig <? target then target - 1 else target) in
    if decide (ins = orig) then s' = s
    else players s' !! ins = Some p
         /\ delete ins (players s') = delete orig (players s)
  end.
Proof.
  cbv zeta.
  pose proof (move_player_players normalize_text name target_index s) as Hps.
  unfold move_player in *.
  destruct (list_find _ _) as [[orig p]|] eqn:Hfind; [|done].
  apply list_find_Some in Hfind as (Hp & _ & _).
  pose proof (lookup_lt_Some _ _ _ Hp) as Hlt.
  cbv zeta in *.
  set (target := Z.max 0 (Z.min target_index (Z.of_nat (length (players s))))) in *.
  set (ins := if Z.of_nat orig <? target then target - 1 else target) in *.
  assert (Hins : 0 <= ins <= Z.of_nat (length (players s)) - 1).
  { subst ins target. destruct (Z.ltb_spec (Z.of_nat orig)
      (Z.max 0 (Z.min target_index (Z.of_nat (length (players s)))))); lia. }
  destruct (Z.eqb_spec ins (Z.of_nat orig)) as [Heq|Hne].
  - rewrite decide_True by lia. done.
  - rewrite decide_False by lia. rewrite Hps.
    assert (Hdel : length (delete orig (players s)) = (length (players s) - 1)%nat).
    { rewrite length_delete by (by eexists). lia. }
    rewrite Hdel.
    replace (Z.max 0 (Z.min ins (Z.of_nat (length (players s) - 1)))) with ins by lia.
    apply insert_at_lookup. lia.
Qed.

(** ** How an operation transforms the players
    
    [R] relates a player before and after; each hypothesis says that
    one of the mutations the engine applies to a player is an [R]-step.
    A lemma of this section depends on the hypotheses for the mutations
    its operation applies, no more. *)
Section RosterStep.

Variable R : Player.t -> Player.t -> Prop.

Hypothesis R_refl : forall p, R p p.
Hypothesis R_trans : forall p q r, R p q -> R q r -> R p r.
Hypothesis R_set_ms : forall ms p, R p (Player.set_remaining_ms ms p).
Hypothesis R_eliminate : forall p, R p (Player.eliminate p).
Hypothesis R_record :
  forall txt ok p, R p (Player.record_answer normalize_text txt ok p).
Hypothesis R_reset_wrong : forall p, R p (Player.reset_wrong_answers p).
Hypothesis R_consume_wrong : forall p, R p (snd (Player.consume_wrong_answer p)).
Hypothesis R_consume_pass : forall p, R p (snd (Player.consume_pass p)).
Hypothesis R_reset_runtime : forall p, R p (Player.reset_runtime p).

(** The roster keeps its length and order, and each player has made an
    [R]-step. *)
Definition steps (s s' : t) : Prop := Forall2 R (players s) (players s').

Lemma steps_same (s s' : t) : players s' = players s -> steps s s'.
Proof. unfold steps. intros ->. by apply Forall2_refl_same. Qed.

Lemma steps_trans (s1 s2 s3 : t) : steps s1 s2 -> steps s2 s3 -> steps s1 s3.
Proof. by apply Forall2_trans_same. Qed.

Lemma steps_update (i : nat) (g : Player.t -> Player.t) (s : t) :
  (forall p, players s !! i = Some p -> R p (g p)) ->
  steps s (update_player i g s).
Proof.
  intros Hg. unfold steps, update_player. cbn.
  apply Forall2_same_length_lookup_2; [by rewrite length_alter|].
  intros j a b Ha Hb. rewrite list_lookup_alter in Hb. case_decide as Hj.
  - subst j. rewrite Ha in Hb. cbn in Hb. injection Hb as <-. by apply Hg.
  - rewrite Ha in Hb. injection Hb as <-. apply R_refl.
Qed.

Lemma steps_advance (r : reason) (s : t) :
  steps s (_advance_turn_after_event r s).
Proof.
  destruct (advance_shape r s) as (ps & idx & run & evs & -> & Hps).
  unfold steps. cbn.
  destruct Hps as [->|(j & np & Hj & _ & -> & _)].
  - by apply Forall2_refl_same.
  - apply (Forall2_insert_at _ _ _ np); auto.
Qed.

(** Peels the outermost call off the state on the right of a goal
    [steps s _]. *)
Ltac steps_peel :=
  lazymatch goal with
  | |- steps ?s ?s => apply steps_same; reflexivity
  | |- steps ?s (_advance_turn_after_event ?r ?x) =>
    apply (steps_trans s x); [|apply steps_advance]
  | |- steps ?s (update_player ?i ?g ?x) =>
    apply (steps_trans s x); [|apply steps_update; intros; auto]
  | |- steps ?s (_emit_current_player ?x) =>
    apply (steps_trans s x); [|apply steps_same, emit_current_player_players]
  | |- steps ?s (_emit_player_state ?i ?x) =>
    apply (steps_trans s x);
    [|apply steps_same; by apply (frame_emit_player_state players)]
  | |- steps ?s (_emit_answers_updated ?x) =>
    apply (steps_trans s x);
    [|apply steps_same; by apply (frame_emit_answers_updated players)]
  | |- steps ?s (remember_class ?a ?m ?t ?x) =>
    apply (steps_trans s x);
    [|apply steps_same; by apply (frame_remember_class players)]
  | |- steps ?s (stop_game ?x) =>
    apply (steps_trans s x);
    [|apply steps_same; by apply (frame_stop_game players)]
  | |- steps ?s (snd (_end_if_finished ?x)) =>
    apply (steps_trans s x);
    [|apply steps_same; by apply (frame_end_if_finished players)]
  | |- steps ?s (snd (current_player ?x)) =>
    apply (steps_trans s x);
    [|apply steps_same; by apply (frame_current_player players)]
  | |- steps ?s (emit _ ?x) => change (steps s x)
  | |- steps ?s (_notify _ _ ?x) => change (steps s x)
  | |- steps ?s (_emit_all_players ?x) => change (steps s x)
  | |- steps ?s (_emit_running_state ?x) => change (steps s x)
  | |- steps ?s (with_current_idx _ ?x) => change (steps s x)
  | |- steps ?s (with_is_running _ ?x) => change (steps s x)
  | |- steps ?s (with_last_tick _ ?x) => change (steps s x)
  | |- steps ?s (with_last_answered_class _ ?x) => change (steps s x)
  | |- steps ?s (with_answer_list _ ?x) => change (steps s x)
  | |- steps ?s (with_answered_order _ ?x) => change (steps s x)
  end.

Ltac steps_auto := cbv zeta; repeat steps_peel.

(** Replaces the call of [current_player] in the goal by its two
    results. *)
Ltac split_current_player cp :=
  lazymatch goal with
  | |- context [current_player ?x] =>
    let H := fresh "Hcp" in
    rewrite (surjective_pairing (current_player x));
    destruct (current_player_idx x) as [? H]; rewrite H; clear H;
    destruct (fst (current_player x)) as [cp|]
  end.

Lemma steps_reject_answer (i : nat) (text : str) (s : t) :
  steps s (reject_answer i text s).
Proof.
  unfold reject_answer. destruct (players s !! i) as [p|] eqn:Hp; [|steps_auto].
  pose proof (R_consume_wrong p) as Hc.
  destruct (Player.consume_wrong_answer p) as [[] p']; steps_auto.
  cbn in *. by simplify_eq.
Qed.

Lemma steps_accept_answer (i : nat) (al : AnswerList.t) (text answer_text : str)
    (prev m : option str) (s : t) :
  steps s (accept_answer normalize_text i al text answer_text prev m s).
Proof.
  unfold accept_answer.
  destruct (AnswerList.mark_used normalize_text al answer_text prev) as [ud al'].
  steps_auto.
  match goal with
  | |- steps _ match last (_answered_order ?y) with _ => _ end =>
    apply (steps_trans s y)
  end.
  2:{ apply steps_same. destruct (last _) as [d|]; [|done].
      by destruct (AnswerList._class_map al' !! d) as [[|??]|]. }
  steps_auto.
  destruct (match ud with Some d => Some d | None => m end) as [[|c d]|]; steps_auto.
  case_bool_decide; steps_auto.
Qed.

Lemma steps_host_submit_answer (text : str) (s : t) :
  steps s (host_submit_answer normalize_text text s).
Proof.
  unfold host_submit_answer. split_current_player cp; [|steps_auto].
  cbn [answer_list with_current_idx]. destruct (answer_list s) as [al|]; [|steps_auto].
  cbv zeta. case_bool_decide; steps_auto.
  - eapply steps_trans; [|apply steps_accept_answer]. steps_auto.
  - eapply steps_trans; [|apply steps_reject_answer]. steps_auto.
Qed.

Lemma steps_host_pass (s : t) : steps s (host_pass s).
Proof.
  unfold host_pass. destruct (current_player s) as [[p|] s1] eqn:Hcp.
  - apply current_player_some in Hcp as (idx & Hidx & -> & Hp & _).
    pose proof (R_consume_pass p) as Hc.
    destruct (Player.consume_pass p) as [[] p']; steps_auto.
    cbn in *. by simplify_eq.
  - destruct (current_player_idx s) as [idx Hidx]. rewrite Hcp in Hidx.
    cbn in Hidx. subst s1. steps_auto.
Qed.

Lemma steps_tick (now : Float.t) (s : t) : steps s (state_of (tick now s)).
Proof.
  unfold tick. destruct (is_running s); cbn [negb state_of]; [|steps_auto].
  destruct (_last_tick_monotonic s) as [last|]; cbn [state_of]; [|steps_auto].
  cbv zeta. split_current_player cp.
  - destruct (Float.to_int _); cbn [state_of]; [|steps_auto..].
    destruct (_ =? 0); steps_auto.
  - rewrite (surjective_pairing (_end_if_finished _)). cbn [state_of]. steps_auto.
Qed.

Lemma steps_forfeit_player (name : str) (s : t) :
  steps s (forfeit_player normalize_text name s).
Proof. unfold forfeit_player. destruct (list_find _ _) as [[i p]|]; steps_auto. Qed.

Lemma steps_skip_player (name : str) (s : t) :
  steps s (skip_player normalize_text name s).
Proof.
  unfold skip_player. split_current_player cp; [|steps_auto].
  case_bool_decide; steps_auto.
Qed.

Lemma steps_start_game (now : Float.t) (s : t) : steps s (start_game now s).
Proof.
  unfold start_game. destruct (answer_list s); [|steps_auto].
  destruct (players s) as [|p0 ps] eqn:Hps; [steps_auto; by rewrite Hps|].
  rewrite <- Hps. cbv zeta. split_current_player cp; steps_auto.
  all: unfold steps; cbn; apply Forall2_fmap_r, Forall_Forall2_diag, Forall_forall;
    intros p _; eauto.
Qed.

(** Every operation other than adding, removing and moving a player
    keeps the roster's length and order and changes each player by
    [R]-steps only. *)
Lemma steps_exec (o : op) (s : t) :
  edits_roster o = false -> steps s (exec normalize_text o s).
Proof.
  destruct o; cbn [edits_roster exec]; try done; intros _.
  - apply steps_same. by apply (frame_load_csv normalize_text players).
  - apply steps_start_game.
  - steps_auto.
  - apply steps_host_submit_answer.
  - apply steps_host_pass.
  - apply steps_same. by apply (frame_unmark_answer players).
  - apply steps_tick.
  - apply steps_same. by apply (frame_reorder players).
  - apply steps_forfeit_player.
  - apply steps_skip_player.
Qed.

End RosterStep.

Lemma run_snoc (ops : list op) (o : op) (s : t) :
  run normalize_text (ops ++ [o]) s
  = exec normalize_text o (run normalize_text ops s).
Proof. unfold run. by rewrite foldl_app. Qed.

Lemma events_emit_current_player (s : t) :
  exists cp, events (_emit_current_player s) = events s ++ [CurrentPlayer cp].
Proof. destruct (emit_current_player_state s) as (idx & cp & ->). by exists cp. Qed.

Lemma add_player_players (pid name : str) (b pl wl : Z) (s : t) :
  players (add_player normalize_text pid name b pl wl s) = players s
  \/ (name <> [] /\ (length name <= 60)%nat
      /\ _name_exists normalize_text name s = false
      /\ players (add_player normalize_text pid name b pl wl s)
         = players s ++ [Player.reset_runtime (Player.new pid name b pl wl)]).
Proof.
  unfold add_player.
  destruct (negb (Text.truthy name) || (60 <? length name)%nat) eqn:Hlen; [by left|].
  apply orb_false_iff in Hlen as [Hne Hlt]. apply Nat.ltb_ge in Hlt.
  destruct (_name_exists normalize_text name s) eqn:Hex; [by left|].
  right. rewrite emit_current_player_players. cbn.
  split; [by destruct name|done].
Qed.

Lemma remove_player_players (name : str) (s : t) :
  players (remove_player normalize_text name s)
  = filter (fun p => normalize_text (Player.name p) <> normalize_text name)
           (players s).
Proof.
  unfold remove_player. cbv zeta. rewrite emit_current_player_players.
  by destruct (0 <? _).
Qed.

(** ** Budgets *)

Lemma budgets_ok_steps (s s' : t) :
  steps (fun p q => budgets_ok p -> budgets_ok q) s s' ->
  Forall budgets_ok (players s) -> Forall budgets_ok (players s').
Proof. apply Forall2_keeps. Qed.

Lemma exec_budgets_ok (o : op) (s : t) :
  limits_ok o ->
  Forall budgets_ok (players s) ->
  Forall budgets_ok (players (exec normalize_text o s)).
Proof.
  intros Hlim Hok. destruct (edits_roster o) eqn:Hedit.
  - destruct o; try done; cbn [exec].
    + destruct (add_player_players pid name base_seconds pass_limit
                  wrong_answer_limit s) as [->|(_ & _ & _ & ->)]; [done|].
      apply Forall_app. split; [done|]. apply Forall_singleton.
      cbn in Hlim. unfold budgets_ok. cbn. lia.
    + rewrite remove_player_players. rewrite Forall_forall in *.
      intros p [_ Hp]%list_elem_of_filter. by apply Hok.
    + by rewrite move_player_Permutation.
  - revert Hok. apply budgets_ok_steps, steps_exec; try done.
    + auto.
    + unfold budgets_ok. intros p. cbn. lia.
    + unfold budgets_ok. intros p Hp. unfold Player.consume_wrong_answer.
      destruct (Z.ltb_spec 0 (Player.remaining_wrong_answers p)); cbn; lia.
    + unfold budgets_ok. intros p Hp. unfold Player.consume_pass, Player.can_pass.
      destruct (Z.ltb_spec 0 (Player.remaining_passes p)); cbn; lia.
    + unfold budgets_ok. intros p. cbn. lia.
Qed.

(** X9: in every state reached from a fresh controller by operations
    whose [add_player] calls give limits that are not negative, each
    player's remaining passes lie between 0 and the pass limit and the
    remaining wrong answers between 0 and the wrong-answer limit. *)
Theorem budgets_in_range (ops : list op) :
  Forall limits_ok ops ->
  Forall budgets_ok (players (run normalize_text ops init)).
Proof.
  induction ops as [|o ops IH] using rev_ind; intros Hlim; [by constructor|].
  apply Forall_app in Hlim as [Hops [Ho _]%Forall_cons].
  rewrite run_snoc. apply exec_budgets_ok; auto.
Qed.

(** ** What is registered about a player *)

(** X10: adding, removing and moving a player apart, no operation changes
    the length or the order of the roster, nor the identifier, name, base
    time and limits a player was registered with. *)
Theorem exec_keeps_config (o : op) (s : t) :
  edits_roster o = false ->
  config <$> players (exec normalize_text o s) = config <$> players s.
Proof.
  intros Hedit. symmetry. apply Forall2_same_image.
  apply (steps_exec (fun p q => config p = config q)); try done.
  - intros p q r. congruence.
  - intros p. unfold Player.consume_wrong_answer. by destruct (_ <? _).
  - intros p. unfold Player.consume_pass. by destruct (Player.can_pass p).
Qed.

(** ** Names *)

Lemma names_ok_steps (s s' : t) :
  steps (fun p q => Player.name p = Player.name q) s s' ->
  names_ok normalize_text s -> names_ok normalize_text s'.
Proof.
  unfold steps, names_ok. intros Hst [Hnd Hlen].
  assert (Hn : Player.name <$> players s = Player.name <$> players s')
    by (by apply Forall2_same_image).
  split.
  - rewrite (list_fmap_compose Player.name normalize_text) in *.
    by rewrite <- Hn.
  - intros q Hq. apply (list_elem_of_fmap_2 Player.name) in Hq.
    rewrite <- Hn in Hq. apply list_elem_of_fmap in Hq as (p & -> & Hp).
    by apply Hlen.
Qed.

Lemma exec_names_ok (o : op) (s : t) :
  names_ok normalize_text s -> names_ok normalize_text (exec normalize_text o s).
Proof.
  intros Hok. destruct (edits_roster o) eqn:Hedit.
  - destruct Hok as [Hnd Hlen]. destruct o; try done; cbn [exec]; unfold names_ok.
    + destruct (add_player_players pid name base_seconds pass_limit
                  wrong_answer_limit s) as [->|(Hne & Hle & Hex & ->)]; [done|].
      split.
      * rewrite fmap_app. apply NoDup_app. split; [done|]. split.
        -- intros x Hx [->|[]%elem_of_nil]%elem_of_cons. cbn in Hx.
           apply list_elem_of_fmap in Hx as (p & Hp & Hin).
           assert (Hyes : _name_exists normalize_text name s = true).
           { apply name_exists_iff. by exists p. }
           congruence.
        -- apply NoDup_singleton.
      * intros p [Hp| ->%list_elem_of_singleton]%elem_of_app; [by apply Hlen|].
        done.
    + rewrite remove_player_players. split.
      * by apply NoDup_fmap_filter.
      * intros p [_ Hp]%list_elem_of_filter. by apply Hlen.
    + split.
      * by rewrite move_player_Permutation.
      * intros p Hp. rewrite move_player_Permutation in Hp. by apply Hlen.
  - revert Hok. apply names_ok_steps, steps_exec; try done.
    + intros p q r. congruence.
    + intros p. unfold Player.consume_wrong_answer. by destruct (_ <? _).
    + intros p. unfold Player.consume_pass. by destruct (Player.can_pass p).
Qed.

(** X11: in every state reached from a fresh controller, no two players
    have the same name up to normalization, and every name has between 1
    and 60 characters; a name therefore designates at most one player. *)
Theorem names_stay_distinct (ops : list op) :
  names_ok normalize_text (run normalize_text ops init).
Proof.
  induction ops as [|o ops IH] using rev_ind.
  - split; [constructor|]. intros p Hp. by apply elem_of_nil in Hp.
  - rewrite run_snoc. by apply exec_names_ok.
Qed.

(** ** The position of the current player *)

Lemma idx_ok_same (x s' : t) :
  length (players s') = length (players x) -> current_idx s' = current_idx x ->
  idx_ok x -> idx_ok s'.
Proof. unfold idx_ok. by intros -> ->. Qed.

Lemma idx_ok_set (i : Z) (s : t) :
  0 <= i < Z.of_nat (length (players s)) -> idx_ok (with_current_idx i s).
Proof. unfold idx_ok. cbn. lia. Qed.

Lemma idx_ok_current_player (s : t) : idx_ok s -> idx_ok (snd (current_player s)).
Proof.
  intros Hok. pose proof (current_player_cases s) as H. cbv zeta in H.
  destruct (current_player s) as [[p|] s'].
  - destruct H as (i & Hi & _ & _ & _ & ->). apply idx_ok_set.
    apply Z.mod_pos_bound. lia.
  - by destruct H as [-> _].
Qed.

Lemma idx_ok_emit_current_player (s : t) : idx_ok s -> idx_ok (_emit_current_player s).
Proof.
  intros Hok. unfold _emit_current_player.
  rewrite (surjective_pairing (current_player s)).
  by apply (idx_ok_current_player s).
Qed.

Lemma idx_ok_emit_player_state (i : nat) (s : t) :
  idx_ok s -> idx_ok (_emit_player_state i s).
Proof. by destruct (emit_player_state_shape i s) as [evs ->]. Qed.

Lemma idx_ok_update (i : nat) (g : Player.t -> Player.t) (s : t) :
  idx_ok s -> idx_ok (update_player i g s).
Proof. apply idx_ok_same; [apply length_alter|done]. Qed.

(** Peels the outermost call off the state of a goal [idx_ok _]. *)
Ltac idx_peel :=
  lazymatch goal with
  | |- idx_ok (update_player _ _ _) => apply idx_ok_update
  | |- idx_ok (_emit_current_player _) => apply idx_ok_emit_current_player
  | |- idx_ok (_emit_player_state _ _) => apply idx_ok_emit_player_state
  | |- idx_ok (snd (current_player _)) => apply idx_ok_current_player
  | |- idx_ok (emit _ ?x) => change (idx_ok x)
  | |- idx_ok (_notify _ _ ?x) => change (idx_ok x)
  | |- idx_ok (_emit_all_players ?x) => change (idx_ok x)
  | |- idx_ok (_emit_running_state ?x) => change (idx_ok x)
  | |- idx_ok (with_is_running _ ?x) => change (idx_ok x)
  | |- idx_ok (with_last_tick _ ?x) => change (idx_ok x)
  | |- idx_ok (with_last_answered_class _ ?x) => change (idx_ok x)
  | |- idx_ok (with_answer_list _ ?x) => change (idx_ok x)
  | |- idx_ok (with_answered_order _ ?x) => change (idx_ok x)
  end.

Ltac idx_auto := cbv zeta; repeat idx_peel; try done.

Ltac pair_current_player :=
  lazymatch goal with
  | |- context [current_player ?x] =>
    rewrite (surjective_pairing (current_player x));
    let cp := fresh "cp" in
    generalize (fst (current_player x)); intros cp
  end.

Lemma idx_ok_stop_game (s : t) : idx_ok s -> idx_ok (stop_game s).
Proof. intros Hok. unfold stop_game. idx_auto. Qed.

Lemma idx_ok_end_if_finished (s : t) : idx_ok s -> idx_ok (snd (_end_if_finished s)).
Proof.
  intros Hok. unfold _end_if_finished.
  destruct (_ && _); [by apply idx_ok_stop_game|].
  destruct (answer_list s); [|done].
  destruct (_ =? 0); [by apply idx_ok_stop_game|done].
Qed.

Lemma idx_ok_advance (r : reason) (s : t) :
  idx_ok s -> idx_ok (_advance_turn_after_event r s).
Proof.
  intros Hok. unfold _advance_turn_after_event.
  pose proof (idx_ok_end_if_finished s Hok) as Hfin.
  destruct (end_if_finished_shape s) as [Heq|(idx & evs & Heq)];
    rewrite Heq in *; [|done].
  destruct (length (players s)) as [|n] eqn:Hn; [idx_auto|].
  cbv zeta. pair_current_player. destruct cp; idx_auto.
  all: destruct (List.find _ _) as [i|]; [|done];
    apply idx_ok_set; rewrite Hn; apply Z.mod_pos_bound; lia.
Qed.

Lemma idx_ok_remember_class (al : AnswerList.t) (m : option str) (t_norm : str) (s : t) :
  idx_ok s -> idx_ok (remember_class al m t_norm s).
Proof. by destruct (remember_class_roster al m t_norm s) as [c ->]. Qed.

Lemma idx_ok_emit_answers_updated (s : t) :
  idx_ok s -> idx_ok (_emit_answers_updated s).
Proof. unfold _emit_answers_updated. by destruct (answer_list s). Qed.

Ltac idx_more :=
  cbv zeta;
  repeat first
    [ idx_peel
    | apply idx_ok_advance
    | apply idx_ok_stop_game
    | apply idx_ok_remember_class
    | apply idx_ok_emit_answers_updated ];
  try done.

Lemma idx_ok_clamp (cur : Z) (s : t) :
  idx_ok (with_current_idx (clamp_idx cur (length (players s))) s).
Proof. unfold idx_ok, clamp_idx. cbn. lia. Qed.

Lemma exec_idx_ok (o : op) (s : t) :
  idx_ok s -> idx_ok (exec normalize_text o s).
Proof.
  intros Hok. destruct o; cbn [exec].
  - unfold load_csv. destruct rows; idx_more.
  - unfold add_player. destruct (_ || _); [idx_more|].
    destruct (_name_exists _ _ _); idx_more.
    unfold idx_ok in *. cbn. rewrite length_app. cbn. lia.
  - unfold remove_player. idx_more. destruct (0 <? _); apply idx_ok_clamp.
  - unfold start_game. destruct (answer_list s); [|idx_more].
    destruct (players s) as [|p0 ps] eqn:Hps; [idx_more|].
    cbv zeta. pair_current_player. destruct cp; idx_more.
    all: unfold idx_ok; cbn; lia.
  - idx_more.
  - unfold host_submit_answer. pair_current_player. destruct cp; [|idx_more].
    destruct (answer_list _); [|idx_more]. cbv zeta.
    case_bool_decide; idx_more.
    + unfold accept_answer.
      destruct (AnswerList.mark_used _ _ _ _) as [ud al']. idx_more.
      match goal with
      | |- idx_ok match last (_answered_order ?y) with _ => _ end =>
        assert (idx_ok y) as Hy; [|destruct (last _) as [d|]; [|done];
          by destruct (AnswerList._class_map al' !! d) as [[|??]|]]
      end.
      idx_more.
      destruct (match ud with Some d => Some d | None => _ end) as [[|c d]|];
        idx_more. case_bool_decide; idx_more.
    + unfold reject_answer. destruct (players _ !! _); [|idx_more].
      destruct (Player.consume_wrong_answer _) as [[] p']; idx_more.
  - unfold host_pass. pair_current_player. destruct cp as [p|]; [|idx_more].
    destruct (Player.consume_pass p) as [[] p']; idx_more.
  - unfold unmark_answer. destruct (answer_list s); [|idx_more].
    case_bool_decide; idx_more. cbn [snd]. idx_more.
    case_bool_decide; idx_more.
  - unfold tick. destruct (is_running s); [|done]. cbn [negb].
    destruct (_last_tick_monotonic s); cbn [state_of]; [|idx_more].
    cbv zeta. pair_current_player. destruct cp.
    + destruct (Float.to_int _); cbn [state_of]; [|idx_more..].
      destruct (_ =? 0); idx_more.
    + rewrite (surjective_pairing (_end_if_finished _)). cbn [state_of]. idx_more.
      apply idx_ok_end_if_finished. idx_more.
  - unfold reorder_players_by_name. destruct names, (players s); done.
  - unfold move_player. destruct (list_find _ _) as [[orig p]|]; [|idx_more].
    cbv zeta. destruct (_ =? Z.of_nat orig); [done|]. idx_more.
    apply idx_ok_clamp.
  - unfold forfeit_player. destruct (list_find _ _) as [[i p]|]; idx_more.
  - unfold skip_player. pair_current_player. destruct cp; [|idx_more].
    case_bool_decide; idx_more.
Qed.

(** X12: in every state reached from a fresh controller, [current_idx]
    is a position of the roster, or 0 when the roster is empty. *)
Theorem current_idx_in_range (ops : list op) :
  idx_ok (run normalize_text ops init).
Proof.
  induction ops as [|o ops IH] using rev_ind.
  - unfold idx_ok. cbn. lia.
  - rewrite run_snoc. by apply exec_idx_ok.
Qed.

(** ** Starting and stopping *)

(** X13: [stop_game] clears [is_running] and leaves the roster, the
    catalog, the chronology and the clock reference as they are; the
    [tick]s that follow change nothing at all. *)
Theorem stop_game_halts (s : t) :
  is_running (stop_game s) = false
  /\ players (stop_game s) = players s
  /\ answer_list (stop_game s) = answer_list s
  /\ _answered_order (stop_game s) = _answered_order s
  /\ _last_tick_monotonic (stop_game s) = _last_tick_monotonic s
  /\ forall nows, foldl (fun s now => state_of (tick now s)) (stop_game s) nows = stop_game s.
Proof.
  destruct (stop_game_shape s) as (idx & evs & Heq). rewrite Heq. cbn.
  repeat (split; [done|]).
  induction nows as [|now nows IH]; [done|]. cbn [foldl].
  by rewrite tick_not_running.
Qed.

Lemma start_game_closed (now : Float.t) (s : t) :
  start_game now s =
  match answer_list s, players s with
  | None, _ => emit (Notification error msg_load_answer_list_first) s
  | Some _, [] => emit (Notification error msg_no_players) s
  | Some _, p0 :: _ =>
    let ps := (fun p => Player.mk (Player.id p) (Player.name p)
                          (Player.base_seconds p) (Player.pass_limit p)
                          (Player.wrong_answer_limit p) (Player.pass_limit p)
                          (Player.wrong_answer_limit p) false [] []
                          (Some (Player.base_seconds p * 1000)))
              <$> players s in
    mk ps (answer_list s) 0 true (Some now) (_answered_order s)
       (_last_answered_class s)
       (events s ++
        [Notification info msg_game_started; AllPlayers ps;
         CurrentPlayer (Some (Player.name p0)); RunningState true;
         PlayerState (Player.name p0) (Player.base_seconds p0 * 1000)
           (Player.pass_limit p0) (Player.wrong_answer_limit p0) false])
  end.
Proof.
  unfold start_game. destruct (answer_list s) as [al|] eqn:Hal; [|done].
  destruct (players s) as [|p0 ps] eqn:Hps; [done|]. cbv zeta.
  set (p0' := Player.set_remaining_ms (Player.base_seconds p0 * 1000)
                (Player.reset_runtime p0)).
  erewrite (emit_current_player_stable _ p0'); [|done..].
  erewrite (current_player_stable _ p0'); [|done..].
  unfold _emit_player_state. simpl.
  unfold _emit_running_state, _emit_all_players, _notify, emit. cbn.
  rewrite Hal, <- ?app_assoc. reflexivity.
Qed.

(** X14: [start_game] in closed form.  Without a catalog, or with an
    empty roster, it emits one error notification and changes nothing
    else.  Otherwise every player gets both budgets back at their
    limits, is no longer eliminated, has an empty history and a
    countdown of [base_seconds * 1000]; the first player of the roster
    is the current one; the game runs and the clock reference is the
    reading taken; the catalog, the chronology and the remembered
    category are not touched. *)
Theorem start_game_result (now : Float.t) (s : t) :
  start_game now s =
  match answer_list s, players s with
  | None, _ => emit (Notification error msg_load_answer_list_first) s
  | Some _, [] => emit (Notification error msg_no_players) s
  | Some _, p0 :: _ =>
    let ps := (fun p => Player.mk (Player.id p) (Player.name p)
                          (Player.base_seconds p) (Player.pass_limit p)
                          (Player.wrong_answer_limit p) (Player.pass_limit p)
                          (Player.wrong_answer_limit p) false [] []
                          (Some (Player.base_seconds p * 1000)))
              <$> players s in
    mk ps (answer_list s) 0 true (Some now) (_answered_order s)
       (_last_answered_class s)
       (events s ++
        [Notification info msg_game_started; AllPlayers ps;
         CurrentPlayer (Some (Player.name p0)); RunningState true;
         PlayerState (Player.name p0) (Player.base_seconds p0 * 1000)
           (Player.pass_limit p0) (Player.wrong_answer_limit p0) false])
  end.
Proof. apply start_game_closed. Qed.

(** ** A running game *)

Lemma advance_is_running (r : reason) (s : t) :
  is_running (_advance_turn_after_event r s) = true -> is_running s = true.
Proof.
  unfold _advance_turn_after_event.
  destruct (end_if_finished_shape s) as [->|(idx & evs & ->)]; [|done].
  destruct (length (players s)); [done|]. cbv zeta.
  pair_current_player.
  rewrite (frame_emit_current_player is_running) by done.
  cbn [_emit_all_players emit is_running].
  destruct cp.
  - rewrite (frame_emit_player_state is_running) by done.
    cbn [update_player with_players is_running].
    rewrite (frame_current_player is_running) by done. by destruct (List.find _ _).
  - rewrite (frame_current_player is_running) by done. by destruct (List.find _ _).
Qed.

(** Traces the hypothesis [H : is_running _ = true] back through the
    calls of an operation. *)
Ltac run_back H :=
  cbv zeta in H;
  repeat first
    [ rewrite (frame_emit_current_player is_running) in H by done
    | rewrite (frame_emit_player_state is_running) in H by done
    | rewrite (frame_current_player is_running) in H by done
    | rewrite (frame_emit_answers_updated is_running) in H by done
    | rewrite (frame_remember_class is_running) in H by done
    | apply advance_is_running in H
    | progress cbn [is_running emit _notify _emit_all_players _emit_running_state
                    update_player with_players with_current_idx with_last_tick
                    with_answer_list with_answered_order with_last_answered_class
                    snd] in H ].

Lemma exec_is_running (o : op) (s : t) :
  (forall now, o <> StartGame now) ->
  is_running (exec normalize_text o s) = true -> is_running s = true.
Proof.
  intros Hstart H. destruct o; cbn [exec] in H.
  - by rewrite (frame_load_csv normalize_text is_running) in H.
  - by rewrite (frame_add_player normalize_text is_running) in H.
  - by rewrite (frame_remove_player normalize_text is_running) in H.
  - by destruct (Hstart now).
  - by destruct (stop_game_shape s) as (idx & evs & Heq); rewrite Heq in H.
  - unfold host_submit_answer in H. revert H. pair_current_player. intros H.
    destruct cp; [|by run_back H].
    rewrite (frame_current_player answer_list) in H by done.
    destruct (answer_list s); [|by run_back H].
    run_back H. revert H. case_bool_decide as Hm; intros H.
    + unfold accept_answer in H.
      destruct (AnswerList.mark_used _ _ _ _) as [ud al']. run_back H.
      revert H.
      match goal with
      | |- is_running match last (_answered_order ?y) with _ => _ end = true -> _ =>
        assert (Hy : is_running match last (_answered_order y) with
                                | Some d =>
                                  match AnswerList._class_map al' !! d with
                                  | Some ((_ :: _) as cls_key) =>
                                    with_last_answered_class (Some cls_key) y
                                  | _ => y
                                  end
                                | None => y
                                end = is_running y)
      end.
      { destruct (last _) as [d|]; [|done].
        by destruct (AnswerList._class_map al' !! d) as [[|??]|]. }
      rewrite Hy. clear Hy. intros H. run_back H. revert H.
      destruct (match ud with Some d => Some d | None => _ end) as [[|c d]|];
        intros H; run_back H; try done.
      revert H. case_bool_decide as Hd; intros H; by run_back H.
    + unfold reject_answer in H. revert H.
      destruct (players _ !! _); [|intros H; by run_back H].
      destruct (Player.consume_wrong_answer _) as [[] p']; intros H; by run_back H.
  - unfold host_pass in H. revert H. pair_current_player. intros H.
    destruct cp as [p|]; [|by run_back H].
    revert H. destruct (Player.consume_pass p) as [[] p']; intros H; by run_back H.
  - by rewrite (frame_unmark_answer is_running) in H.
  - unfold tick in H. destruct (is_running s) eqn:Hr; [done|]. cbn in H. congruence.
  - by rewrite (frame_reorder is_running) in H.
  - by rewrite (frame_move_player normalize_text is_running) in H.
  - unfold forfeit_player in H.
    destruct (list_find _ _) as [[i p]|]; by run_back H.
  - unfold skip_player in H. revert H. pair_current_player. intros H.
    destruct cp; [|by run_back H].
    revert H. case_bool_decide as Hn; intros H; by run_back H.
Qed.

Lemma exec_answer_list (o : op) (s : t) :
  is_Some (answer_list s) -> is_Some (answer_list (exec normalize_text o s)).
Proof.
  intros Hal. destruct o; cbn [exec].
  - pose proof (load_csv_catalog normalize_text rows s) as H.
    destruct rows; [by destruct H as [-> _]|by destruct H as [-> _]].
  - by rewrite (frame_add_player normalize_text answer_list).
  - by rewrite (frame_remove_player normalize_text answer_list).
  - by rewrite (frame_start_game answer_list).
  - by rewrite (frame_stop_game answer_list).
  - destruct (host_submit_answer_catalog normalize_text text s)
      as [[-> _]|(al & ? & ? & ? & _ & _ & _ & -> & _)]; [done|by eexists].
  - by rewrite (frame_host_pass answer_list).
  - destruct (unmark_answer_catalog display_key s)
      as [[-> _]|(al & _ & _ & -> & _)]; [done|by eexists].
  - by rewrite (frame_tick answer_list).
  - by rewrite (frame_reorder answer_list).
  - by rewrite (frame_move_player normalize_text answer_list).
  - by rewrite (frame_forfeit_player normalize_text answer_list).
  - by rewrite (frame_skip_player normalize_text answer_list).
Qed.

Lemma exec_last_tick (o : op) (s : t) :
  is_Some (_last_tick_monotonic s) ->
  is_Some (_last_tick_monotonic (exec normalize_text o s)).
Proof.
  intros Hlt. destruct o; cbn [exec].
  - by rewrite (frame_load_csv normalize_text _last_tick_monotonic).
  - by rewrite (frame_add_player normalize_text _last_tick_monotonic).
  - by rewrite (frame_remove_player normalize_text _last_tick_monotonic).
  - destruct (start_game_last_tick now s) as [->| ->]; [done|by eexists].
  - by rewrite (frame_stop_game _last_tick_monotonic).
  - by rewrite (frame_host_submit_answer normalize_text _last_tick_monotonic).
  - by rewrite (frame_host_pass _last_tick_monotonic).
  - by rewrite (frame_unmark_answer _last_tick_monotonic).
  - destruct (tick_last_tick_cases now s) as [->| ->]; [done|by eexists].
  - by rewrite (frame_reorder _last_tick_monotonic).
  - by rewrite (frame_move_player normalize_text _last_tick_monotonic).
  - by rewrite (frame_forfeit_player normalize_text _last_tick_monotonic).
  - by rewrite (frame_skip_player normalize_text _last_tick_monotonic).
Qed.

Lemma exec_ready (o : op) (s : t) : ready s -> ready (exec normalize_text o s).
Proof.
  intros Hready Hrun.
  assert (Hcase : (exists now, o = StartGame now) \/ forall now, o <> StartGame now).
  { destruct o; first [left; by eexists|right; done]. }
  destruct Hcase as [[now ->]|Hno].
  - cbn [exec] in *. rewrite start_game_closed in *.
    destruct (answer_list s) as [al|] eqn:Hal; [|by apply Hready].
    destruct (players s) as [|p0 ps]; [by apply Hready|].
    cbn. split; by eexists.
  - assert (Hrun0 : is_running s = true).
    { by apply (exec_is_running o). }
    destruct (Hready Hrun0) as [Hal Hlt].
    split; [by apply exec_answer_list|by apply exec_last_tick].
Qed.

(** X15: in every state reached from a fresh controller, a running game
    has a catalog loaded and a clock reference set: [tick] never finds
    the reference missing, and no operation unloads the catalog. *)
Theorem running_game_is_ready (ops : list op) :
  ready (run normalize_text ops init).
Proof.
  induction ops as [|o ops IH] using rev_ind; [done|].
  rewrite run_snoc. by apply exec_ready.
Qed.

(** X16: as long as no file is loaded that gives one display key to two
    entries, the chronology of answers never names a key twice and names
    only keys that the catalog holds as used. *)
Theorem chronology_of_distinct_loads (ops : list op) :
  Forall (Spec.loads_distinct_items normalize_text) ops ->
  Spec.chronology_ok (run normalize_text ops init).
Proof.
  induction ops as [|o ops IH] using rev_ind; intros Hloads.
  - split; [constructor|]. intros d Hd. by apply elem_of_nil in Hd.
  - apply Forall_app in Hloads as [Hops [Ho _]%Forall_cons].
    rewrite run_snoc. apply exec_chronology_ok; auto.
Qed.

(** ** Adding and removing players *)

(** X17: removing a player by the name under which [add_player] has
    just accepted them gives back the roster as it was. *)
Theorem add_then_remove_player (pid name : str) (b pl wl : Z) (s : t) :
  ~ Spec.name_refused normalize_text name s ->
  players (remove_player normalize_text name
             (add_player normalize_text pid name b pl wl s))
  = players s.
Proof.
  intros Hacc. rewrite remove_player_players.
  destruct (add_player_players pid name b pl wl s) as [Heq|(_ & _ & Hex & ->)].
  - exfalso. unfold add_player in Heq.
    destruct (negb (Text.truthy name) || (60 <? length name)%nat) eqn:Hlen.
    { apply Hacc. apply orb_true_iff in Hlen as [Hl|Hl].
      - left. by destruct name.
      - right; left. by apply Nat.ltb_lt in Hl. }
    destruct (_name_exists normalize_text name s) eqn:Hex.
    { apply Hacc. right; right. by apply name_exists_iff. }
    rewrite emit_current_player_players in Heq. cbn in Heq.
    apply (f_equal length) in Heq. rewrite length_app in Heq. cbn in Heq. lia.
  - rewrite filter_app, filter_cons_False, filter_nil, app_nil_r by (cbn; auto).
    apply AnswerListFacts.filter_all. intros p Hp Heq.
    assert (Hyes : _name_exists normalize_text name s = true).
    { apply name_exists_iff. by exists p. }
    congruence.
Qed.

(** X18: [remove_player] removes every player whose name equals the
    given one up to normalization and keeps the others in their order.
    When there is no such player the roster is unchanged and the host
    gets an error notification; otherwise an info notification gives the
    number of players removed. *)
Theorem remove_player_result (name : str) (s : t) :
  let s' := remove_player normalize_text name s in
  let named p := normalize_text (Player.name p) = normalize_text name in
  players s' = filter (fun p => ~ named p) (players s)
  /\ ((forall p, p ∈ players s -> ~ named p) ->
      players s' = players s
      /\ Notification error (msg_player_not_found name) ∈ events s')
  /\ ((exists p, p ∈ players s /\ named p) ->
      (length (players s') < length (players s))%nat
      /\ Notification info
           (msg_players_removed
              (Z.of_nat (length (players s)) - Z.of_nat (length (players s'))))
         ∈ events s').
Proof.
  cbv zeta. pose proof (remove_player_players name s) as Hps. rewrite Hps.
  set (ps' := filter _ (players s)) in *.
  assert (Hle : (length ps' <= length (players s))%nat) by apply length_filter.
  assert (Hev : forall ev,
            (if 0 <? Z.of_nat (length (players s)) - Z.of_nat (length ps')
             then ev = Notification info
                         (msg_players_removed
                            (Z.of_nat (length (players s)) - Z.of_nat (length ps')))
             else ev = Notification error (msg_player_not_found name)) ->
            ev ∈ events (remove_player normalize_text name s)).
  { intros ev Hev. unfold remove_player. cbv zeta.
    match goal with |- context [_emit_current_player ?y] =>
      destruct (events_emit_current_player y) as [cp ->] end.
    fold ps'. cbn [with_players players].
    destruct (0 <? _); subst ev; cbn; set_solver. }
  split; [done|]. split.
  - intros Hnone.
    assert (Hsame : ps' = players s) by (by apply AnswerListFacts.filter_all).
    split; [done|]. apply Hev. rewrite Hsame.
    by replace (Z.of_nat (length (players s)) - Z.of_nat (length (players s)))
      with 0 by lia.
  - intros (p & Hp & Hnamed).
    assert (Hlt : (length ps' < length (players s))%nat).
    { apply (length_filter_lt _ _ p Hp). by intros Hn. }
    split; [done|]. apply Hev.
    destruct (Z.ltb_spec 0 (Z.of_nat (length (players s)) - Z.of_nat (length ps')));
      [done|lia].
Qed.

(** ** Skipping *)

(** X19: [skip_player] costs nothing: whoever is named, every player
    keeps the remaining passes and wrong answers, the elimination flag and
    the history; the catalog and the chronology are not touched
    either. *)
Theorem skip_player_keeps_standing (name : str) (s : t) :
  let s' := skip_player normalize_text name s in
  standing <$> players s' = standing <$> players s
  /\ answer_list s' = answer_list s
  /\ _answered_order s' = _answered_order s.
Proof.
  cbv zeta. split; [|split].
  - symmetry. apply Forall2_same_image.
    apply (steps_skip_player (fun p q => standing p = standing q)); try done.
    intros p q r. congruence.
  - by apply (frame_skip_player normalize_text answer_list).
  - by apply (frame_skip_player normalize_text _answered_order).
Qed.

(** ** Turns *)

Lemma goes_on_not_finished (s : t) :
  goes_on s -> _end_if_finished s = (false, s).
Proof.
  intros [(p & Hp & Hel) Hrem]. unfold _end_if_finished.
  destruct (forallb Player.eliminated (players s)) eqn:Hall.
  { rewrite forallb_forall in Hall.
    rewrite (Hall p) in Hel; [done|]. by apply list_elem_of_In. }
  rewrite andb_false_r. destruct (answer_list s) as [al|]; [|done].
  specialize (Hrem al eq_refl). unfold AnswerList.remaining_count.
  destruct (AnswerList.remaining al); [done|]. by cbn.
Qed.

(** A turn that ends while the game goes on: the turn passes to the
    next active player, whose countdown is set to the base time. *)
Lemma advance_turn (r : reason) (s : t) :
  goes_on s ->
  exists j np,
    next_active (players s) (current_idx s) j
    /\ players s !! j = Some np
    /\ Player.eliminated np = false
    /\ _advance_turn_after_event r s =
       let np' := Player.set_remaining_ms (Player.base_seconds np * 1000) np in
       let ps := <[j := np']> (players s) in
       mk ps (answer_list s) (Z.of_nat j) (is_running s)
          (_last_tick_monotonic s) (_answered_order s) (_last_answered_class s)
          (events s ++
           [PlayerState (Player.name np) (Player.base_seconds np * 1000)
              (Player.remaining_passes np) (Player.remaining_wrong_answers np)
              false;
            AllPlayers ps; CurrentPlayer (Some (Player.name np))]).
Proof.
  intros Hgo. unfold _advance_turn_after_event.
  rewrite (goes_on_not_finished s Hgo).
  destruct Hgo as [(p & Hp & Hel) _].
  destruct (length (players s)) as [|n'] eqn:Hn.
  { apply length_zero_iff_nil in Hn. rewrite Hn in Hp. by apply elem_of_nil in Hp. }
  rewrite <- Hn. set (n := length (players s)) in *.
  assert (Hpos : 0 < Z.of_nat n) by lia.
  cbv zeta.
  destruct (List.find _ (seqZ 1 (Z.of_nat n))) as [i|] eqn:Hfind.
  2:{ exfalso. pose proof (find_seqZ_none _ _ _ Hfind) as Hnone.
      assert (Hall : forall q, q ∈ players s -> Player.eliminated q = true).
      { apply (active_at_false_all (players s) (current_idx s + 1)).
        intros j Hj. fold n. unfold scan_idx.
        replace (current_idx s + 1 + j) with (current_idx s + (j + 1)) by lia.
        apply Hnone. lia. }
      rewrite (Hall p Hp) in Hel. done. }
  apply find_seqZ_some in Hfind as (Hi & Hact & Hbefore).
  unfold scan_idx in *. set (cand := (current_idx s + i) mod Z.of_nat n) in *.
  assert (Hcand : 0 <= cand < Z.of_nat n) by (apply Z.mod_pos_bound; lia).
  unfold active_at in Hact.
  destruct (players s !! Z.to_nat cand) as [np|] eqn:Hnp; [|done].
  apply negb_true_iff in Hact.
  exists (Z.to_nat cand), np. split; [|split; [done|split; [done|]]].
  { exists i. fold n. fold cand. split; [lia|]. split; [lia|].
    split; [by exists np|]. intros k Hk. specialize (Hbefore k ltac:(lia)).
    unfold active_at in Hbefore.
    assert (0 <= (current_idx s + k) mod Z.of_nat n < Z.of_nat n)
      by (apply Z.mod_pos_bound; lia).
    destruct (players s !! Z.to_nat ((current_idx s + k) mod Z.of_nat n))
      as [q|] eqn:Hq.
    - exists q. split; [done|]. by apply negb_false_iff.
    - apply lookup_ge_None in Hq. lia. }
  erewrite (current_player_stable (with_current_idx cand s) np); [|by cbn; lia|done..].
  cbn [current_idx with_current_idx].
  unfold _emit_player_state, update_player.
  cbn [players with_players with_current_idx].
  rewrite (alter_as_insert _ _ _ _ Hnp).
  rewrite list_lookup_insert_eq by (by eapply lookup_lt_Some).
  rewrite (emit_current_player_stable _
             (Player.set_remaining_ms (Player.base_seconds np * 1000) np)).
  - cbv zeta. unfold _emit_all_players, emit. cbn. rewrite Z2Nat.id, Hact by lia.
    by rewrite <- !app_assoc.
  - cbn. lia.
  - cbn. apply list_lookup_insert_eq. by eapply lookup_lt_Some.
  - done.
Qed.

(** A turn that ends when the game is over: the game is stopped. *)
Lemma advance_over (r : reason) (s : t) :
  (players s <> [] /\ forall p, p ∈ players s -> Player.eliminated p = true)
  \/ (exists al, answer_list s = Some al /\ AnswerList.remaining al = []) ->
  _advance_turn_after_event r s = stop_game s.
Proof.
  intros Hover. unfold _advance_turn_after_event, _end_if_finished.
  destruct (negb _ && _) eqn:Hall; [done|].
  destruct Hover as [[Hne Hel]|(al & Hal & Hrem)].
  - exfalso. rewrite bool_decide_false in Hall by done. cbn in Hall.
    assert (forallb Player.eliminated (players s) = true); [|congruence].
    apply forallb_forall. intros p Hp. apply Hel. by apply list_elem_of_In.
  - rewrite Hal. unfold AnswerList.remaining_count. by rewrite Hrem.
Qed.

Lemma next_active_ext (ps ps' : list Player.t) (cur : Z) (j : nat) :
  Player.eliminated <$> ps = Player.eliminated <$> ps' ->
  next_active ps cur j -> next_active ps' cur j.
Proof.
  intros Heq (i & Hi & Hj & (p & Hp & Hel) & Hbefore).
  assert (Hlen : length ps' = length ps).
  { apply (f_equal length) in Heq. by rewrite !length_fmap in Heq. }
  assert (Hlook : forall k q, ps !! k = Some q ->
            exists q', ps' !! k = Some q' /\ Player.eliminated q' = Player.eliminated q).
  { intros k q Hq.
    assert (H : (Player.eliminated <$> ps') !! k = Some (Player.eliminated q))
      by (by rewrite <- Heq, list_lookup_fmap, Hq).
    rewrite list_lookup_fmap in H. destruct (ps' !! k) as [q'|]; [|done].
    exists q'. split; [done|]. cbn in H. congruence. }
  exists i. unfold next_active. rewrite Hlen. split; [done|]. split; [done|]. split.
  - destruct (Hlook j p Hp) as (p' & Hp' & He). exists p'. split; [done|]. congruence.
  - intros k Hk. destruct (Hbefore k Hk) as (q & Hq & He).
    destruct (Hlook _ q Hq) as (q' & Hq' & He'). exists q'. split; [done|]. congruence.
Qed.

Lemma stop_game_ended (s : t) : GameEnded ∈ events (stop_game s).
Proof.
  unfold stop_game. cbv zeta.
  match goal with |- context [_emit_current_player ?x] =>
    destruct (events_emit_current_player x) as [cp Hev] end.
  cbn [_emit_running_state emit events]. rewrite Hev. cbn. set_solver.
Qed.

(** The end of an operation that ends a turn: [_advance_turn_after_event]
    followed by the two emissions. *)
Lemma turn_end (r : reason) (x : t) :
  goes_on x ->
  let s' := _emit_current_player (_emit_all_players (_advance_turn_after_event r x)) in
  exists j np,
    next_active (players x) (current_idx x) j
    /\ players x !! j = Some np
    /\ Player.eliminated np = false
    /\ players s' =
       <[j := Player.set_remaining_ms (Player.base_seconds np * 1000) np]> (players x)
    /\ current_idx s' = Z.of_nat j
    /\ is_running s' = is_running x.
Proof.
  intros Hgo. cbv zeta.
  destruct (advance_turn r x Hgo) as (j & np & Hnext & Hnp & Hel & ->).
  exists j, np. split; [done|]. split; [done|]. split; [done|]. cbv zeta.
  rewrite (emit_current_player_stable _
             (Player.set_remaining_ms (Player.base_seconds np * 1000) np)).
  - done.
  - cbn. lia.
  - cbn. rewrite Nat2Z.id. apply list_lookup_insert_eq. by eapply lookup_lt_Some.
  - done.
Qed.

Lemma turn_over (r : reason) (x : t) :
  (players x <> [] /\ forall p, p ∈ players x -> Player.eliminated p = true)
  \/ (exists al, answer_list x = Some al /\ AnswerList.remaining al = []) ->
  let s' := _emit_current_player (_emit_all_players (_advance_turn_after_event r x)) in
  is_running s' = false /\ GameEnded ∈ events s' /\ players s' = players x.
Proof.
  intros Hover. cbv zeta. rewrite (advance_over r x Hover).
  match goal with |- context [_emit_current_player ?y] =>
    destruct (events_emit_current_player y) as [cp Hev];
    rewrite (frame_emit_current_player is_running) by done;
    rewrite emit_current_player_players, Hev end.
  cbn [_emit_all_players emit is_running events players].
  destruct (stop_game_shape x) as (idx & evs & Heq).
  pose proof (stop_game_ended x) as Hend. rewrite Heq in *. cbn in *.
  split; [done|]. split; [set_solver|done].
Qed.

Lemma current_player_reads (s s2 : t) :
  players s2 = players s -> current_idx s2 = current_idx s ->
  fst (current_player s2) = fst (current_player s)
  /\ current_idx (snd (current_player s2)) = current_idx (snd (current_player s)).
Proof.
  intros Hps Hidx. unfold current_player. rewrite Hps, Hidx.
  destruct (length (players s)); [done|].
  destruct (List.find _ _); cbn; by rewrite ?Hps, ?Hidx.
Qed.

(** ** Passing and forfeiting *)

(** X20: [host_pass] for a current player [p].  Without a pass left, no
    player changes and the turn stays where it is; the host is told by
    an info notification.  With a pass left, that player's remaining
    passes drop by one and the other players keep their standing; and,
    while the game goes on, the turn passes to the next player in cyclic
    order who is not eliminated. *)
Theorem host_pass_result (s s1 : t) (p : Player.t) :
  current_player s = (Some p, s1) ->
  let s' := host_pass s in
  let i := Z.to_nat (current_idx s1) in
  (Player.can_pass p = false ->
     players s' = players s
     /\ current_idx s' = current_idx s1
     /\ Notification info msg_no_pass_left ∈ events s')
  /\ (Player.can_pass p = true ->
      (exists q,
         players s' !! i = Some q
         /\ Player.remaining_passes q = Player.remaining_passes p - 1
         /\ Player.remaining_wrong_answers q = Player.remaining_wrong_answers p
         /\ Player.eliminated q = false)
      /\ (forall k, k <> i ->
            standing <$> players s' !! k = standing <$> players s !! k)
      /\ (goes_on s ->
          exists j, next_active (players s) (current_idx s1) j
                    /\ current_idx s' = Z.of_nat j)).
Proof.
  intros Hcp. cbv zeta. unfold host_pass. rewrite Hcp.
  apply current_player_some in Hcp as (idx & Hidx & -> & Hp & Hel).
  cbn [current_idx with_current_idx players] in *.
  unfold Player.consume_pass. split; intros Hcan; rewrite Hcan.
  - rewrite (emit_current_player_stable _ p); [|by cbn; lia|done..].
    cbn. split; [done|]. split; [done|]. set_solver.
  - cbv zeta.
    set (p' := Player.mk _ _ _ _ _ _ _ _ _ _ _).
    match goal with |- context [_advance_turn_after_event pass ?y] => set (x := y) end.
    assert (Hx : players x = <[Z.to_nat idx := p']> (players s)).
    { subst x. rewrite (frame_emit_player_state players) by done. cbn.
      by rewrite (alter_as_insert _ _ _ _ Hp). }
    assert (Hxi : current_idx x = idx).
    { subst x. by rewrite (frame_emit_player_state current_idx). }
    assert (Hxa : answer_list x = answer_list s).
    { subst x. by rewrite (frame_emit_player_state answer_list). }
    assert (Hlt : (Z.to_nat idx < length (players s))%nat) by (by eapply lookup_lt_Some).
    rewrite emit_current_player_players. cbn [_emit_all_players emit players].
    assert (Hst : forall k,
              standing <$> players (_advance_turn_after_event pass x) !! k
              = standing <$> <[Z.to_nat idx := p']> (players s) !! k).
    { intros k. rewrite <- Hx, <- !list_lookup_fmap. f_equal. symmetry.
      apply Forall2_same_image.
      apply (steps_advance (fun p q => standing p = standing q)); try done. }
    split; [|split].
    + specialize (Hst (Z.to_nat idx)).
      rewrite list_lookup_insert_eq in Hst by done.
      destruct (players (_advance_turn_after_event pass x) !! Z.to_nat idx)
        as [q|]; [|done].
      exists q. split; [done|]. cbn in Hst. unfold standing in Hst.
      injection Hst as H1 H2 H3 _ _. subst p'. cbn in *. by rewrite H1, H2, H3.
    + intros k Hk. rewrite Hst. by rewrite list_lookup_insert_ne.
    + intros Hgo.
      assert (Hgo' : goes_on x).
      { split.
        - exists p'. split; [|done]. rewrite Hx.
          apply (list_elem_of_lookup_2 _ (Z.to_nat idx)).
          by apply list_lookup_insert_eq.
        - rewrite Hxa. apply Hgo. }
      destruct (turn_end pass x Hgo') as (j & np & Hnext & _ & _ & _ & Hci & _).
      exists j. split; [|exact Hci].
      rewrite Hx, Hxi in Hnext. eapply next_active_ext; [|exact Hnext].
      rewrite list_fmap_insert. apply list_insert_id.
      by rewrite list_lookup_fmap, Hp.
Qed.

(** X21: [forfeit_player].  A name that no player has gives one error
    notification and nothing else.  Otherwise the first player with that
    name, up to normalization, is eliminated, whether or not it is that
    player's turn, and keeps everything else; if every other player was
    eliminated already, the game is stopped. *)
Theorem forfeit_player_result (name : str) (s : t) :
  let s' := forfeit_player normalize_text name s in
  match list_find (fun p => normalize_text (Player.name p) = normalize_text name)
                  (players s) with
  | None => s' = emit (Notification error (msg_player_not_found name)) s
  | Some (i, p) =>
    players s' !! i = Some (Player.eliminate p)
    /\ ((forall k q, k <> i -> players s !! k = Some q -> Player.eliminated q = true) ->
        is_running s' = false /\ GameEnded ∈ events s')
  end.
Proof.
  cbv zeta. unfold forfeit_player.
  destruct (list_find _ _) as [[i p]|] eqn:Hfind; [|done].
  apply list_find_Some in Hfind as (Hp & _ & _). cbv zeta.
  match goal with |- context [_advance_turn_after_event forfeit ?y] => set (x := y) end.
  assert (Hx : players x = <[i := Player.eliminate p]> (players s)).
  { subst x. rewrite (frame_emit_player_state players) by done. cbn.
    by apply alter_as_insert. }
  assert (Hlt : (i < length (players s))%nat) by (by eapply lookup_lt_Some).
  split.
  - rewrite emit_current_player_players.
    cbn [_emit_all_players emit players].
    destruct (advance_shape forfeit x) as (ps & idx & run & evs & -> & Hps).
    cbn [players]. destruct Hps as [->|(j & np & Hj & Hnel & -> & _)].
    + rewrite Hx. by apply list_lookup_insert_eq.
    + rewrite Hx in *. destruct (decide (j = i)) as [->|Hne].
      * rewrite list_lookup_insert_eq in Hj by done. injection Hj as <-. done.
      * rewrite list_lookup_insert_ne by done. by apply list_lookup_insert_eq.
  - intros Hothers.
    assert (Hover : players x <> []
                    /\ forall q, q ∈ players x -> Player.eliminated q = true).
    { rewrite Hx. split.
      - intros Hnil. apply (f_equal length) in Hnil.
        rewrite length_insert in Hnil. cbn in Hnil. lia.
      - intros q [k Hk]%list_elem_of_lookup. destruct (decide (k = i)) as [->|Hne].
        + rewrite list_lookup_insert_eq in Hk by done. by injection Hk as <-.
        + rewrite list_lookup_insert_ne in Hk by done. by apply (Hothers k). }
    by destruct (turn_over forfeit x (or_introl Hover)) as (Hrun & Hend & _).
Qed.

(** ** The clock *)

Lemma current_player_moved (s s2 : t) (p : Player.t) (s1 : t) :
  players s2 = players s -> current_idx s2 = current_idx s ->
  current_player s = (Some p, s1) ->
  current_player s2 = (Some p, with_current_idx (current_idx s1) s2).
Proof.
  intros Hps Hidx Hcp.
  destruct (current_player_reads s s2 Hps Hidx) as [Hf Hi].
  pose proof (current_player_state s2) as Hst.
  rewrite Hcp in Hf, Hi. cbn in Hf, Hi.
  destruct (current_player s2) as [cp s2']. cbn in *. by rewrite Hf, Hst, Hi.
Qed.

(** X22: one [tick] of a running game whose clock reference is set, for
    a current player [p]: the reference becomes the reading taken and
    [p]'s countdown drops by [int((now - last) * 1000)] milliseconds,
    computed in binary64 arithmetic, but not below zero.  A countdown
    that stays above zero changes nothing else: no other player changes
    and the turn stays.  A countdown that reaches zero eliminates [p],
    and stops the game if every other player was eliminated already.
    When the product is a NaN or an infinity, [int] raises: the call
    ends with the reference overwritten and nothing else changed. *)
Theorem tick_countdown (now last : Float.t) (s s1 : t) (p : Player.t) :
  is_running s = true ->
  _last_tick_monotonic s = Some last ->
  current_player s = (Some p, s1) ->
  let i := Z.to_nat (current_idx s1) in
  let s' := state_of (tick now s) in
  _last_tick_monotonic s' = Some now
  /\ match Float.to_int (Float.mul (Float.sub now last) (Float.of_int 1000)) with
     | Float.Int elapsed_ms =>
       let ms := Z.max 0 (Player.remaining_ms p - elapsed_ms) in
       tick now s = Returned s'
       /\ (ms <> 0 ->
           players s' = <[i := Player.set_remaining_ms ms p]> (players s)
           /\ current_idx s' = current_idx s1
           /\ is_running s' = true)
       /\ (ms = 0 ->
           players s' !! i = Some (Player.eliminate (Player.set_remaining_ms 0 p))
           /\ ((forall k q, k <> i -> players s !! k = Some q ->
                            Player.eliminated q = true) ->
               is_running s' = false /\ GameEnded ∈ events s'))
     | Float.ValueError =>
       tick now s = Raised_ValueError (with_last_tick (Some now) s1)
     | Float.OverflowError =>
       tick now s = Raised_OverflowError (with_last_tick (Some now) s1)
     end.
Proof.
  intros Hrun Hlast Hcp. cbv zeta. split; [by apply tick_last_tick|].
  unfold tick. rewrite Hrun, Hlast. cbn [negb]. cbv zeta.
  rewrite (current_player_moved s (with_last_tick (Some now) s) p s1) by done.
  apply current_player_some in Hcp as (idx & Hidx & -> & Hp & Hel).
  cbn [current_idx with_current_idx] in *.
  assert (Hlt : (Z.to_nat idx < length (players s))%nat) by (by eapply lookup_lt_Some).
  destruct (Float.to_int _) as [e| |]; [|done..]. cbn [state_of].
  set (ms := Z.max 0 (Player.remaining_ms p - e)).
  split; [done|]. split; intros Hms.
  - destruct (Z.eqb_spec ms 0) as [|_]; [done|].
    rewrite (emit_current_player_stable _ (Player.set_remaining_ms ms p)).
    + cbn. rewrite (frame_emit_player_state players),
        (frame_emit_player_state current_idx),
        (frame_emit_player_state is_running) by done.
      cbn. by rewrite (alter_as_insert _ _ _ _ Hp).
    + cbn. rewrite (frame_emit_player_state current_idx) by done. cbn. lia.
    + cbn. rewrite (frame_emit_player_state players),
        (frame_emit_player_state current_idx) by done.
      cbn. rewrite list_lookup_alter_eq, Hp. done.
    + done.
  - rewrite Hms. cbn [Z.eqb].
    match goal with |- context [_advance_turn_after_event timeout ?y] => set (x := y) end.
    assert (Hx : players x
                 = <[Z.to_nat idx := Player.eliminate (Player.set_remaining_ms 0 p)]>
                     (players s)).
    { subst x. rewrite (frame_emit_player_state players) by done. cbn.
      rewrite (alter_as_insert _ _ _ _ Hp).
      rewrite (alter_as_insert _ _ _ (Player.set_remaining_ms 0 p))
        by (by apply list_lookup_insert_eq).
      by rewrite list_insert_insert_eq. }
    split.
    + rewrite emit_current_player_players. cbn [_emit_all_players emit players].
      destruct (advance_shape timeout x) as (ps & idx' & run & evs & -> & Hps).
      cbn [players]. destruct Hps as [->|(j & np & Hj & Hnel & -> & _)].
      * rewrite Hx. by apply list_lookup_insert_eq.
      * rewrite Hx in *. destruct (decide (j = Z.to_nat idx)) as [->|Hne].
        -- rewrite list_lookup_insert_eq in Hj by done. injection Hj as <-. done.
        -- rewrite list_lookup_insert_ne by done. by apply list_lookup_insert_eq.
    + intros Hothers.
      assert (Hover : players x <> []
                      /\ forall q, q ∈ players x -> Player.eliminated q = true).
      { rewrite Hx. split.
        - intros Hnil. apply (f_equal length) in Hnil.
          rewrite length_insert in Hnil. cbn in Hnil. lia.
        - intros q [k Hk]%list_elem_of_lookup.
          destruct (decide (k = Z.to_nat idx)) as [->|Hne].
          + rewrite list_lookup_insert_eq in Hk by done. by injection Hk as <-.
          + rewrite list_lookup_insert_ne in Hk by done. by apply (Hothers k). }
      by destruct (turn_over timeout x (or_introl Hover)) as (Hr & Hend & _).
Qed.

(** ** Correct answers *)

Lemma accept_answer_shape (i : nat) (al : AnswerList.t) (text answer_text : str)
    (prev : option str) (d : str) (s : t) :
  AnswerList.find_match normalize_text al answer_text prev = Some d ->
  d <> [] ->
  let al' := AnswerList.mk (AnswerList.items al) ({[d]} ∪ AnswerList.used al)
               (AnswerList._match_map al) (AnswerList._class_map al)
               (AnswerList._element_map al) (AnswerList._display_map al) in
  let order' := if bool_decide (d ∈ _answered_order s) then _answered_order s
                else _answered_order s ++ [d] in
  exists cls evs,
    accept_answer normalize_text i al text answer_text prev (Some d) s =
    _advance_turn_after_event correct
      (mk (alter Player.reset_wrong_answers i (players s)) (Some al')
          (current_idx s) (is_running s) (_last_tick_monotonic s) order' cls evs)
    /\ (d ∉ _answered_order s ->
        cls = match AnswerList._class_map al !! d with
              | Some (c :: cs) => Some (c :: cs)
              | _ => _last_answered_class s
              end).
Proof.
  intros Hfind Hne. cbv zeta. unfold accept_answer, AnswerList.mark_used.
  rewrite Hfind. destruct d as [|c0 d0]; [done|]. cbn [Text.truthy]. cbv zeta.
  set (d := c0 :: d0) in *.
  set (al' := AnswerList.mk _ _ _ _ _ _).
  cbn [_answered_order with_answer_list].
  destruct (bool_decide (d ∈ _answered_order s)) eqn:Hin;
    unfold _emit_answers_updated;
    cbn [answer_list with_answer_list with_answered_order];
    cbn [_answered_order update_player with_players emit with_answer_list
         with_answered_order].
  - apply bool_decide_eq_true in Hin.
    destruct (last (_answered_order s)) as [d1|];
      [destruct (AnswerList._class_map al' !! d1) as [[|??]|]|];
      match goal with |- context [_emit_player_state ?i ?y] =>
        destruct (emit_player_state_shape i y) as [evs ->] end;
      eexists _, _; (split; [reflexivity|done]).
  - rewrite last_snoc. cbn [AnswerList._class_map al'].
    destruct (AnswerList._class_map al !! d) as [[|??]|];
      match goal with |- context [_emit_player_state ?i ?y] =>
        destruct (emit_player_state_shape i y) as [evs ->] end;
      eexists _, _; (split; [reflexivity|done]).
Qed.

Lemma find_match_unused (al : AnswerList.t) (text : str) (prev : option str) (d : str) :
  AnswerList.find_match normalize_text al text prev = Some d ->
  d ∈ AnswerList.items al /\ d ∉ AnswerList.used al.
Proof.
  intros Hfind.
  pose proof (AnswerListFacts.find_match_loop_first normalize_text al
                (normalize_text text) prev (AnswerList.items al)) as Hfirst.
  unfold AnswerList.find_match in Hfind. rewrite Hfind in Hfirst.
  destruct Hfirst as (l1 & l2 & Hitems & [Hunused _] & _).
  split; [|done]. rewrite Hitems. set_solver.
Qed.

(** What [host_submit_answer] leaves behind when the text matches an
    entry. *)
Lemma host_submit_answer_accepts (text : str) (s s1 : t) (p : Player.t)
    (al : AnswerList.t) (d : str) :
  current_player s = (Some p, s1) ->
  answer_list s = Some al ->
  AnswerList.find_match normalize_text al (extract_answer_text text)
    (_last_answered_class s) = Some d ->
  d <> [] ->
  (d ∉ _answered_order s) ->
  let s' := host_submit_answer normalize_text text s in
  let i := Z.to_nat (current_idx s1) in
  let al' := AnswerList.mk (AnswerList.items al) ({[d]} ∪ AnswerList.used al)
               (AnswerList._match_map al) (AnswerList._class_map al)
               (AnswerList._element_map al) (AnswerList._display_map al) in
  answer_list s' = Some al'
  /\ _answered_order s' = _answered_order s ++ [d]
  /\ _last_answered_class s' =
     match AnswerList._class_map al !! d with
     | Some (c :: cs) => Some (c :: cs)
     | _ => _last_answered_class s
     end
  /\ (exists q, players s' !! i = Some q
        /\ standing q =
           (Player.remaining_passes p, Player.wrong_answer_limit p, false,
            Player.correct_answers p
              ++ [Player.mk_record (normalize_text text) true],
            Player.wrong_answers p))
  /\ ((forall x, x ∈ AnswerList.remaining al -> x = d) ->
      is_running s' = false /\ GameEnded ∈ events s').
Proof.
  intros Hcp Hal Hfind Hne Hnew. cbv zeta. unfold host_submit_answer. rewrite Hcp.
  apply current_player_some in Hcp as (idx & Hidx & -> & Hp & Hel).
  cbn [answer_list with_current_idx current_idx _last_answered_class].
  rewrite Hal. cbv zeta. rewrite Hfind.
  rewrite bool_decide_true by (by eexists).
  assert (Hlt : (Z.to_nat idx < length (players s))%nat) by (by eapply lookup_lt_Some).
  match goal with |- context [remember_class ?a ?m ?t ?y] => set (x0 := remember_class a m t y) end.
  assert (Hx0 : exists cls0,
            x0 = with_last_answered_class cls0
                   (update_player (Z.to_nat idx)
                      (Player.record_answer normalize_text text true)
                      (with_current_idx idx s))
            /\ match AnswerList._class_map al !! d with
               | Some (c :: cs) => Some (c :: cs)
               | _ => cls0
               end
               = match AnswerList._class_map al !! d with
                 | Some (c :: cs) => Some (c :: cs)
                 | _ => _last_answered_class s
                 end).
  { subst x0. unfold remember_class. destruct d as [|c0 d0]; [done|].
    destruct (AnswerList._class_map al !! (c0 :: d0)) as [[|c cs]|] eqn:Hcls.
    - exists (_last_answered_class s). split; [|done]. by destruct s.
    - by eexists.
    - exists (_last_answered_class s). split; [|done]. by destruct s. }
  destruct Hx0 as (cls0 & Hx0 & Hcls0). clearbody x0. subst x0.
  destruct (accept_answer_shape (Z.to_nat idx) al text (extract_answer_text text)
              (_last_answered_class s) d
              (with_last_answered_class cls0
                 (update_player (Z.to_nat idx)
                    (Player.record_answer normalize_text text true)
                    (with_current_idx idx s))) Hfind Hne)
    as (cls & evs & Hacc & Hcls).
  cbv zeta in Hacc, Hcls.
  cbn [_answered_order with_last_answered_class update_player with_players
       with_current_idx players current_idx is_running _last_tick_monotonic
       _last_answered_class] in Hacc, Hcls.
  rewrite bool_decide_false in Hacc by done.
  specialize (Hcls Hnew). rewrite Hcls0 in Hcls.
  rewrite Hacc. clear Hacc.
  match goal with |- context [_advance_turn_after_event correct ?y] => set (x := y) end.
  set (p' := Player.reset_wrong_answers (Player.record_answer normalize_text text true p)).
  assert (Hx : players x = <[Z.to_nat idx := p']> (players s)).
  { subst x. cbn [players]. rewrite (alter_as_insert _ _ _ _ Hp).
    rewrite (alter_as_insert _ _ _ (Player.record_answer normalize_text text true p))
      by (by apply list_lookup_insert_eq).
    by rewrite list_insert_insert_eq. }
  split; [|split; [|split; [|split]]].
  - rewrite (frame_emit_current_player answer_list) by done.
    cbn [_emit_all_players emit answer_list].
    by rewrite (frame_advance answer_list).
  - rewrite (frame_emit_current_player _answered_order) by done.
    cbn [_emit_all_players emit _answered_order].
    by rewrite (frame_advance _answered_order).
  - rewrite (frame_emit_current_player _last_answered_class) by done.
    cbn [_emit_all_players emit _last_answered_class].
    rewrite (frame_advance _last_answered_class) by done. by subst x.
  - rewrite emit_current_player_players. cbn [_emit_all_players emit players].
    destruct (advance_shape correct x) as (ps & idx' & run & evs' & -> & Hps).
    cbn [players]. rewrite Hx in Hps.
    destruct Hps as [->|(j & np & Hj & Hnel & -> & _)].
    + exists p'. split; [by apply list_lookup_insert_eq|]. subst p'.
      unfold standing. cbn. by rewrite Hel.
    + destruct (decide (j = Z.to_nat idx)) as [->|Hnej].
      * rewrite list_lookup_insert_eq in Hj by done. injection Hj as <-.
        eexists. split; [apply list_lookup_insert_eq; by rewrite length_insert|].
        subst p'. unfold standing. cbn. by rewrite Hel.
      * exists p'. split.
        -- rewrite list_lookup_insert_ne by done. by apply list_lookup_insert_eq.
        -- subst p'. unfold standing. cbn. by rewrite Hel.
  - intros Hlast.
    assert (Hover : exists al0, answer_list x = Some al0
                                /\ AnswerList.remaining al0 = []).
    { eexists. split; [by subst x|]. unfold AnswerList.remaining. cbn.
      apply AnswerListFacts.filter_none. intros y Hy Hny.
      assert (y = d); [|set_solver].
      apply Hlast. unfold AnswerList.remaining. apply list_elem_of_filter.
      set_solver. }
    by destruct (turn_over correct x (or_intror Hover)) as (Hrun & Hend & _).
Qed.

(** X23: [host_submit_answer] with a text that matches the entry [d]
    (not yet in the chronology): [d] joins the used set, nothing else
    about the catalog changes, and [d] is appended to the chronology; the
    remembered category becomes that of [d], unless [d] has none or an
    empty one; the current player gets the wrong-answer budget back at
    its limit and the submission, normalized, at the end of the list of
    correct answers, and keeps passes and wrong-answer history; if no
    other entry remained, the game is stopped. *)
Theorem host_submit_answer_correct (text : str) (s s1 : t) (p : Player.t)
    (al : AnswerList.t) (d : str) :
  current_player s = (Some p, s1) ->
  answer_list s = Some al ->
  AnswerList.find_match normalize_text al (extract_answer_text text)
    (_last_answered_class s) = Some d ->
  d <> [] ->
  (d ∉ _answered_order s) ->
  let s' := host_submit_answer normalize_text text s in
  let i := Z.to_nat (current_idx s1) in
  let al' := AnswerList.mk (AnswerList.items al) ({[d]} ∪ AnswerList.used al)
               (AnswerList._match_map al) (AnswerList._class_map al)
               (AnswerList._element_map al) (AnswerList._display_map al) in
  answer_list s' = Some al'
  /\ _answered_order s' = _answered_order s ++ [d]
  /\ _last_answered_class s' =
     match AnswerList._class_map al !! d with
     | Some (c :: cs) => Some (c :: cs)
     | _ => _last_answered_class s
     end
  /\ (exists q, players s' !! i = Some q
        /\ standing q =
           (Player.remaining_passes p, Player.wrong_answer_limit p, false,
            Player.correct_answers p
              ++ [Player.mk_record (normalize_text text) true],
            Player.wrong_answers p))
  /\ ((forall x, x ∈ AnswerList.remaining al -> x = d) ->
      is_running s' = false /\ GameEnded ∈ events s').
Proof. apply host_submit_answer_accepts. Qed.

Lemma remove_first_snoc (d : str) (l : list str) :
  d ∉ l -> remove_first d (l ++ [d]) = l.
Proof.
  induction l as [|x l IH]; intros Hd; cbn.
  - by rewrite bool_decide_true.
  - apply not_elem_of_cons in Hd as [Hne Hd].
    rewrite bool_decide_false by done. by rewrite IH.
Qed.

(** X24: taking back the answer that has just been accepted:
    [unmark_answer] applied to the key [host_submit_answer] has marked
    succeeds and gives back the catalog and the chronology as they were
    before the submission. *)
Theorem unmark_after_correct_answer (text : str) (s s1 : t) (p : Player.t)
    (al : AnswerList.t) (d : str) :
  current_player s = (Some p, s1) ->
  answer_list s = Some al ->
  AnswerList.find_match normalize_text al (extract_answer_text text)
    (_last_answered_class s) = Some d ->
  d <> [] ->
  (d ∉ _answered_order s) ->
  let r := unmark_answer d (host_submit_answer normalize_text text s) in
  fst r = true
  /\ answer_list (snd r) = Some al
  /\ _answered_order (snd r) = _answered_order s.
Proof.
  intros Hcp Hal Hfind Hne Hnew. cbv zeta.
  destruct (host_submit_answer_accepts text s s1 p al d Hcp Hal Hfind Hne Hnew)
    as (Ha & Ho & _).
  destruct (find_match_unused al _ _ d Hfind) as [_ Hunused].
  unfold unmark_answer. rewrite Ha. cbn [AnswerList.used].
  rewrite bool_decide_true by set_solver. cbv zeta.
  cbn [fst snd _notify emit answer_list _answered_order with_answer_list].
  rewrite (frame_emit_answers_updated answer_list),
    (frame_emit_answers_updated _answered_order) by done.
  cbn [with_answer_list _answered_order]. rewrite Ho.
  rewrite bool_decide_true by set_solver.
  cbn [with_answered_order answer_list _answered_order].
  split; [done|]. split; [|by apply remove_first_snoc].
  unfold AnswerList.discard_used. cbn. clear -Hunused.
  destruct al as [its us mm cm em dm]. cbn in *. do 2 f_equal. set_solver.
Qed.

(** X25: [skip_player], called with the name of the current player
    while the game goes on, hands the turn to the next player in cyclic
    order who is not eliminated and sets that player's countdown to
    [base_seconds * 1000]; nothing else about any player changes. *)
Theorem skip_player_passes_turn (name : str) (s s1 : t) (p : Player.t) :
  current_player s = (Some p, s1) ->
  goes_on s ->
  normalize_text (Player.name p) = normalize_text name ->
  let s' := skip_player normalize_text name s in
  exists j np,
    next_active (players s) (current_idx s1) j
    /\ players s !! j = Some np
    /\ players s' =
       <[j := Player.set_remaining_ms (Player.base_seconds np * 1000) np]>
         (players s)
    /\ current_idx s' = Z.of_nat j.
Proof.
  intros Hcp Hgo Hname. cbv zeta. unfold skip_player. rewrite Hcp.
  apply current_player_some in Hcp as (idx & Hidx & -> & Hp & Hel).
  rewrite bool_decide_true by done.
  destruct (advance_turn skip
              (_notify info (msg_skipped (Player.name p)) (with_current_idx idx s)))
    as (j & np & Hnext & Hnp & _ & ->); [done|].
  exists j, np. done.
Qed.

(** ** What the UI has been told *)

Lemma current_player_again (s : t) :
  fst (current_player (snd (current_player s))) = fst (current_player s).
Proof.
  pose proof (current_player_cases s) as H. cbv zeta in H.
  destruct (current_player s) as [[p|] s1] eqn:Hcp; cbn.
  - destruct H as (i & Hi & Hp & Hel & _ & ->).
    rewrite (current_player_stable _ p); [done|..|done|done].
    cbn. pose proof (Z.mod_pos_bound (current_idx s + i)
                       (Z.of_nat (length (players s))) ltac:(lia)). lia.
  - destruct H as [-> _]. by rewrite Hcp.
Qed.

Lemma roster_shown_emit (e : event) (x : t) :
  (forall ps, e <> AllPlayers ps) -> roster_shown x -> roster_shown (emit e x).
Proof.
  unfold roster_shown, last_roster. cbn. rewrite foldl_app. cbn.
  intros He ->. destruct e; try done. by destruct (He ps).
Qed.

Lemma roster_shown_same (x s' : t) :
  players s' = players x -> events s' = events x ->
  roster_shown x -> roster_shown s'.
Proof. unfold roster_shown. by intros -> ->. Qed.

Lemma roster_shown_all (x : t) : roster_shown (_emit_all_players x).
Proof. unfold roster_shown, last_roster. cbn. by rewrite foldl_app. Qed.

Lemma roster_shown_emit_current_player (x : t) :
  roster_shown x -> roster_shown (_emit_current_player x).
Proof.
  destruct (emit_current_player_state x) as (idx & cp & ->). intros H.
  apply roster_shown_emit; [done|]. by apply (roster_shown_same x).
Qed.

Lemma roster_shown_emit_player_state (i : nat) (x : t) :
  roster_shown x -> roster_shown (_emit_player_state i x).
Proof.
  unfold _emit_player_state. destruct (players x !! i); [|done].
  by apply roster_shown_emit.
Qed.

Lemma roster_shown_emit_answers_updated (x : t) :
  roster_shown x -> roster_shown (_emit_answers_updated x).
Proof.
  unfold _emit_answers_updated. destruct (answer_list x); [|done].
  by apply roster_shown_emit.
Qed.

Lemma roster_shown_current_player (x : t) :
  roster_shown x -> roster_shown (snd (current_player x)).
Proof.
  destruct (current_player_idx x) as [idx ->]. by apply roster_shown_same.
Qed.

Lemma roster_shown_remember_class (al : AnswerList.t) (m : option str) (t_norm : str)
    (x : t) :
  roster_shown x -> roster_shown (remember_class al m t_norm x).
Proof.
  destruct (remember_class_roster al m t_norm x) as [c ->]. by apply roster_shown_same.
Qed.

Lemma current_shown_emit (e : event) (x : t) :
  (forall n, e <> CurrentPlayer n) -> current_shown x -> current_shown (emit e x).
Proof.
  unfold current_shown, last_current. cbn. rewrite foldl_app. cbn.
  intros He Hx. destruct (current_player_reads x (emit e x) eq_refl eq_refl) as [-> _].
  rewrite <- Hx. destruct e; try done. by destruct (He name).
Qed.

Lemma current_shown_same (x s' : t) :
  players s' = players x -> current_idx s' = current_idx x ->
  events s' = events x ->
  current_shown x -> current_shown s'.
Proof.
  unfold current_shown. intros Hps Hidx Hev Hx. rewrite Hev, Hx.
  by destruct (current_player_reads x s' Hps Hidx) as [-> _].
Qed.

Lemma current_shown_current (x : t) : current_shown (_emit_current_player x).
Proof.
  unfold _emit_current_player. rewrite (surjective_pairing (current_player x)).
  unfold current_shown, last_current. cbn. rewrite foldl_app. cbn.
  destruct (current_player_reads (snd (current_player x))
              (emit (CurrentPlayer (Player.name <$> fst (current_player x)))
                    (snd (current_player x))) eq_refl eq_refl) as [-> _].
  by rewrite current_player_again.
Qed.

Lemma current_shown_emit_player_state (i : nat) (x : t) :
  current_shown x -> current_shown (_emit_player_state i x).
Proof.
  unfold _emit_player_state. destruct (players x !! i); [|done].
  by apply current_shown_emit.
Qed.

Lemma current_shown_emit_answers_updated (x : t) :
  current_shown x -> current_shown (_emit_answers_updated x).
Proof.
  unfold _emit_answers_updated. destruct (answer_list x); [|done].
  by apply current_shown_emit.
Qed.

Lemma current_shown_current_player (x : t) :
  current_shown x -> current_shown (snd (current_player x)).
Proof.
  unfold current_shown. intros Hx.
  rewrite current_player_again, <- Hx.
  by destruct (current_player_idx x) as [idx ->].
Qed.

Lemma current_shown_remember_class (al : AnswerList.t) (m : option str) (t_norm : str)
    (x : t) :
  current_shown x -> current_shown (remember_class al m t_norm x).
Proof.
  destruct (remember_class_roster al m t_norm x) as [c ->]. by apply current_shown_same.
Qed.

Lemma running_shown_emit (e : event) (x : t) :
  (forall b, e <> RunningState b) -> running_shown x -> running_shown (emit e x).
Proof.
  unfold running_shown, last_running. cbn. rewrite foldl_app. cbn.
  intros He ->. destruct e; try done. by destruct (He running).
Qed.

Lemma running_shown_same (x s' : t) :
  is_running s' = is_running x -> events s' = events x ->
  running_shown x -> running_shown s'.
Proof. unfold running_shown. by intros -> ->. Qed.

Lemma running_shown_running (x : t) : running_shown (_emit_running_state x).
Proof. unfold running_shown, last_running. cbn. by rewrite foldl_app. Qed.

Lemma running_shown_emit_current_player (x : t) :
  running_shown x -> running_shown (_emit_current_player x).
Proof.
  destruct (emit_current_player_state x) as (idx & cp & ->). intros H.
  apply running_shown_emit; [done|]. by apply (running_shown_same x).
Qed.

Lemma running_shown_emit_player_state (i : nat) (x : t) :
  running_shown x -> running_shown (_emit_player_state i x).
Proof.
  unfold _emit_player_state. destruct (players x !! i); [|done].
  by apply running_shown_emit.
Qed.

Lemma running_shown_emit_answers_updated (x : t) :
  running_shown x -> running_shown (_emit_answers_updated x).
Proof.
  unfold _emit_answers_updated. destruct (answer_list x); [|done].
  by apply running_shown_emit.
Qed.

Lemma running_shown_current_player (x : t) :
  running_shown x -> running_shown (snd (current_player x)).
Proof.
  destruct (current_player_idx x) as [idx ->]. by apply running_shown_same.
Qed.

Lemma running_shown_remember_class (al : AnswerList.t) (m : option str) (t_norm : str)
    (x : t) :
  running_shown x -> running_shown (remember_class al m t_norm x).
Proof.
  destruct (remember_class_roster al m t_norm x) as [c ->]. by apply running_shown_same.
Qed.

(** Peels the outermost call off the state of a goal about what the UI
    has been told; the emission that settles the goal ends the
    peeling. *)
Ltac shown_peel :=
  lazymatch goal with
  | |- roster_shown (_emit_all_players _) => apply roster_shown_all
  | |- roster_shown (_emit_current_player _) => apply roster_shown_emit_current_player
  | |- roster_shown (_emit_player_state _ _) => apply roster_shown_emit_player_state
  | |- roster_shown (_emit_answers_updated _) => apply roster_shown_emit_answers_updated
  | |- roster_shown (remember_class _ _ _ _) => apply roster_shown_remember_class
  | |- roster_shown (snd (current_player _)) => apply roster_shown_current_player
  | |- roster_shown (_emit_running_state _) => apply roster_shown_emit; [done|]
  | |- roster_shown (_notify _ _ _) => apply roster_shown_emit; [done|]
  | |- roster_shown (emit _ _) => apply roster_shown_emit; [done|]
  | |- roster_shown (with_current_idx _ ?x) => apply (roster_shown_same x); [done..|]
  | |- roster_shown (with_is_running _ ?x) => apply (roster_shown_same x); [done..|]
  | |- roster_shown (with_last_tick _ ?x) => apply (roster_shown_same x); [done..|]
  | |- roster_shown (with_last_answered_class _ ?x) =>
    apply (roster_shown_same x); [done..|]
  | |- roster_shown (with_answer_list _ ?x) => apply (roster_shown_same x); [done..|]
  | |- roster_shown (with_answered_order _ ?x) => apply (roster_shown_same x); [done..|]
  | |- current_shown (_emit_current_player _) => apply current_shown_current
  | |- current_shown (_emit_player_state _ _) => apply current_shown_emit_player_state
  | |- current_shown (_emit_answers_updated _) => apply current_shown_emit_answers_updated
  | |- current_shown (remember_class _ _ _ _) => apply current_shown_remember_class
  | |- current_shown (snd (current_player _)) => apply current_shown_current_player
  | |- current_shown (_emit_all_players _) => apply current_shown_emit; [done|]
  | |- current_shown (_emit_running_state _) => apply current_shown_emit; [done|]
  | |- current_shown (_notify _ _ _) => apply current_shown_emit; [done|]
  | |- current_shown (emit _ _) => apply current_shown_emit; [done|]
  | |- current_shown (with_is_running _ ?x) => apply (current_shown_same x); [done..|]
  | |- current_shown (with_last_tick _ ?x) => apply (current_shown_same x); [done..|]
  | |- current_shown (with_last_answered_class _ ?x) =>
    apply (current_shown_same x); [done..|]
  | |- current_shown (with_answer_list _ ?x) => apply (current_shown_same x); [done..|]
  | |- current_shown (with_answered_order _ ?x) => apply (current_shown_same x); [done..|]
  | |- running_shown (_emit_running_state _) => apply running_shown_running
  | |- running_shown (_emit_current_player _) => apply running_shown_emit_current_player
  | |- running_shown (_emit_player_state _ _) => apply running_shown_emit_player_state
  | |- running_shown (_emit_answers_updated _) => apply running_shown_emit_answers_updated
  | |- running_shown (remember_class _ _ _ _) => apply running_shown_remember_class
  | |- running_shown (snd (current_player _)) => apply running_shown_current_player
  | |- running_shown (_emit_all_players _) => apply running_shown_emit; [done|]
  | |- running_shown (_notify _ _ _) => apply running_shown_emit; [done|]
  | |- running_shown (emit _ _) => apply running_shown_emit; [done|]
  | |- running_shown (update_player _ _ ?x) => apply (running_shown_same x); [done..|]
  | |- running_shown (with_players _ ?x) => apply (running_shown_same x); [done..|]
  | |- running_shown (with_current_idx _ ?x) => apply (running_shown_same x); [done..|]
  | |- running_shown (with_last_tick _ ?x) => apply (running_shown_same x); [done..|]
  | |- running_shown (with_last_answered_class _ ?x) =>
    apply (running_shown_same x); [done..|]
  | |- running_shown (with_answer_list _ ?x) => apply (running_shown_same x); [done..|]
  | |- running_shown (with_answered_order _ ?x) => apply (running_shown_same x); [done..|]
  end.

Ltac shown := cbv zeta; repeat shown_peel; try done.

Lemma in_sync_stop_game (x : t) :
  roster_shown (stop_game x) /\ current_shown (stop_game x)
  /\ running_shown (stop_game x).
Proof. unfold stop_game. repeat split; shown. Qed.

Ltac shown_advance :=
  unfold _advance_turn_after_event, _end_if_finished;
  destruct (_ && _); [apply in_sync_stop_game|];
  (destruct (answer_list _);
   [destruct (_ =? 0); [apply in_sync_stop_game|]|]);
  (destruct (length (players _)); [shown|]);
  cbv zeta; pair_current_player;
  match goal with cp : option Player.t |- _ => destruct cp end; shown;
  destruct (List.find _ _); shown.

Lemma roster_shown_advance (r : reason) (x : t) :
  roster_shown x -> roster_shown (_advance_turn_after_event r x).
Proof. intros Hx. shown_advance. Qed.

Lemma current_shown_advance (r : reason) (x : t) :
  current_shown x -> current_shown (_advance_turn_after_event r x).
Proof. intros Hx. shown_advance. Qed.

Lemma running_shown_advance (r : reason) (x : t) :
  running_shown x -> running_shown (_advance_turn_after_event r x).
Proof. intros Hx. shown_advance. Qed.

Ltac shown_more :=
  cbv zeta;
  repeat first
    [ shown_peel
    | apply roster_shown_advance
    | apply current_shown_advance
    | apply running_shown_advance
    | apply in_sync_stop_game ];
  try done.

Lemma exec_in_sync (o : op) (s : t) :
  in_sync s -> in_sync (exec normalize_text o s).
Proof.
  intros (HR & HC & HN). destruct o; cbn [exec].
  - unfold load_csv. destruct rows; repeat split; shown_more.
  - unfold add_player. destruct (_ || _); [repeat split; shown_more|].
    destruct (_name_exists _ _ _); repeat split; shown_more.
  - unfold remove_player. repeat split; shown_more.
    all: destruct (0 <? _); shown_more.
  - unfold start_game. destruct (answer_list s); [|repeat split; shown_more].
    destruct (players s) as [|p0 ps] eqn:Hps; [repeat split; shown_more|].
    cbv zeta. pair_current_player. destruct cp; repeat split; shown_more.
  - apply in_sync_stop_game.
  - unfold host_submit_answer. pair_current_player.
    destruct cp; [|repeat split; shown_more].
    destruct (answer_list _); [|repeat split; shown_more]. cbv zeta.
    repeat split; shown_more.
    case_bool_decide.
    + unfold accept_answer.
      destruct (AnswerList.mark_used _ _ _ _) as [ud al']. shown_more.
      match goal with
      | |- running_shown match last (_answered_order ?y) with _ => _ end =>
        assert (running_shown y) as Hy;
        [|revert Hy; generalize y; intros y0 Hy;
          destruct (last _) as [d|]; [|done];
          destruct (AnswerList._class_map al' !! d) as [[|??]|]; shown_more]
      end.
      shown_more.
      destruct (match ud with Some d => Some d | None => _ end) as [[|c d]|];
        shown_more. case_bool_decide; shown_more.
    + unfold reject_answer. destruct (players _ !! _); [|shown_more].
      destruct (Player.consume_wrong_answer _) as [[] p']; shown_more.
  - unfold host_pass. pair_current_player.
    destruct cp as [p|]; [|repeat split; shown_more].
    destruct (Player.consume_pass p) as [[] p']; repeat split; shown_more.
  - unfold unmark_answer. destruct (answer_list s); cbn [snd];
      [|repeat split; shown_more].
    case_bool_decide; cbn [snd]; [|repeat split; shown_more].
    repeat split; shown_more. all: case_bool_decide; shown_more.
  - unfold tick. destruct (is_running s) eqn:Hrun; [|done]. cbn [negb].
    destruct (_last_tick_monotonic s); cbn [state_of];
      [|repeat split; shown_more].
    cbv zeta. pair_current_player. destruct cp.
    + destruct (Float.to_int _); cbn [state_of]; [|repeat split; shown_more..].
      repeat split; shown_more. destruct (_ =? 0); shown_more.
    + rewrite (surjective_pairing (_end_if_finished _)). cbn [state_of].
      repeat split; shown_more.
      unfold _end_if_finished. destruct (_ && _); [apply in_sync_stop_game|].
      cbn [answer_list _notify emit].
      destruct (answer_list _);
        [destruct (_ =? 0); [apply in_sync_stop_game|]|]; cbn [snd]; shown_more.
  - unfold reorder_players_by_name. destruct names, (players s); done.
  - unfold move_player. destruct (list_find _ _) as [[orig p]|];
      [|repeat split; shown_more].
    cbv zeta. destruct (_ =? Z.of_nat orig); [done|]. repeat split; shown_more.
  - unfold forfeit_player. destruct (list_find _ _) as [[i p]|];
      repeat split; shown_more.
  - unfold skip_player. pair_current_player. destruct cp; [|repeat split; shown_more].
    case_bool_decide; repeat split; shown_more.
Qed.

(** X26: with every callback registered, in every state reached from a
    fresh controller the UI has been told the truth: the roster last
    handed to [on_all_players] is the roster as it is, player for player,
    the name last handed to [on_current_player] is the name of the current
    player (none when there is none), and the flag last handed to
    [on_running_state] is [is_running]. *)
Theorem ui_in_sync (ops : list op) :
  in_sync (run normalize_text ops init).
Proof.
  induction ops as [|o ops IH] using rev_ind; [done|].
  rewrite run_snoc. by apply exec_in_sync.
Qed.

(** ** The previous category handed to the catalog *)

Lemma class_named_same (s s' : t) :
  class_named s -> _last_answered_class s' = _last_answered_class s -> class_named s'.
Proof. unfold class_named. by intros ? ->. Qed.

Lemma class_named_remember_class (al : AnswerList.t) (m : option str)
    (t_norm : str) (s : t) :
  class_named s -> class_named (remember_class al m t_norm s).
Proof.
  intros Hs. unfold remember_class.
  destruct m as [[|c d]|].
  - destruct (List.find _ _) as [cv|] eqn:Hf; [|done].
    apply find_some in Hf as [_ [Hcv _]%andb_true_iff]. by destruct cv.
  - by destruct (AnswerList._class_map al !! (c :: d)) as [[|c' cls]|].
  - destruct (List.find _ _) as [cv|] eqn:Hf; [|done].
    apply find_some in Hf as [_ [Hcv _]%andb_true_iff]. by destruct cv.
Qed.

Lemma class_named_accept_answer (i : nat) (al : AnswerList.t)
    (text answer_text : str) (prev m : option str) (s : t) :
  class_named s ->
  class_named (accept_answer normalize_text i al text answer_text prev m s).
Proof.
  intros Hs. unfold accept_answer.
  destruct (AnswerList.mark_used _ _ _ _) as [ud al']. cbv zeta.
  unfold class_named.
  rewrite (frame_advance _last_answered_class),
    (frame_emit_player_state _last_answered_class) by done.
  cbn [_notify emit _last_answered_class].
  match goal with
  | |- _last_answered_class match last (_answered_order ?y) with _ => _ end <> _ =>
    assert (class_named y) as Hy;
    [|revert Hy; generalize y; intros y0 Hy;
      destruct (last _) as [d|]; [|done];
      by destruct (AnswerList._class_map al' !! d) as [[|??]|]]
  end.
  unfold class_named. cbn [update_player with_players emit _last_answered_class].
  rewrite (frame_emit_answers_updated _last_answered_class) by done.
  destruct (match ud with Some d => Some d | None => _ end) as [[|c d]|];
    try done. by case_bool_decide.
Qed.

Lemma exec_class_named (o : op) (s : t) :
  class_named s -> class_named (exec normalize_text o s).
Proof.
  intros Hs. destruct o; cbn [exec].
  - by apply (class_named_same s _ Hs), (frame_load_csv normalize_text _last_answered_class).
  - by apply (class_named_same s _ Hs), (frame_add_player normalize_text _last_answered_class).
  - by apply (class_named_same s _ Hs),
      (frame_remove_player normalize_text _last_answered_class).
  - by apply (class_named_same s _ Hs), (frame_start_game _last_answered_class).
  - by apply (class_named_same s _ Hs), (frame_stop_game _last_answered_class).
  - unfold host_submit_answer.
    pose proof (frame_current_player _last_answered_class ltac:(done) s) as Hcp.
    destruct (current_player s) as [[p|] s1]; cbn [snd] in Hcp;
      [|by apply (class_named_same s _ Hs)].
    destruct (answer_list s1) as [al|]; [|by apply (class_named_same s _ Hs)].
    cbv zeta.
    unfold class_named.
    rewrite (frame_emit_current_player _last_answered_class) by done.
    cbn [_emit_all_players emit _last_answered_class].
    assert (Hr : class_named
              (remember_class al
                 (AnswerList.find_match normalize_text al (extract_answer_text text)
                    (_last_answered_class s1))
                 (normalize_text (extract_answer_text text))
                 (update_player (Z.to_nat (current_idx s1))
                    (Player.record_answer normalize_text text
                       (bool_decide (is_Some
                          (AnswerList.find_match normalize_text al
                             (extract_answer_text text) (_last_answered_class s1)))))
                    s1))).
    { apply class_named_remember_class. unfold class_named. cbn. by rewrite Hcp. }
    case_bool_decide.
    + by apply class_named_accept_answer.
    + by rewrite (frame_reject_answer _last_answered_class).
  - by apply (class_named_same s _ Hs), (frame_host_pass _last_answered_class).
  - by apply (class_named_same s _ Hs), (frame_unmark_answer _last_answered_class).
  - by apply (class_named_same s _ Hs), (frame_tick _last_answered_class).
  - by apply (class_named_same s _ Hs), (frame_reorder _last_answered_class).
  - by apply (class_named_same s _ Hs),
      (frame_move_player normalize_text _last_answered_class).
  - by apply (class_named_same s _ Hs),
      (frame_forfeit_player normalize_text _last_answered_class).
  - by apply (class_named_same s _ Hs),
      (frame_skip_player normalize_text _last_answered_class).
Qed.

Lemma run_class_named (ops : list op) :
  class_named (run normalize_text ops init).
Proof.
  induction ops as [|o ops IH] using rev_ind; [done|].
  rewrite run_snoc. by apply exec_class_named.
Qed.

(** X27: what [host_submit_answer] hands to [find_match] as previous
    category is never the empty string: in every state reached from a
    fresh controller [_last_answered_class] is [None] or a non-empty
    category.  For the catalog the controller holds and any text,
    [find_match] with that previous category therefore returns the first
    entry, in [items] order, that is not in [used] and satisfies the
    full-form rule or the short-form rule exactly as the specification
    states them, and nothing when no entry does. *)
Theorem find_match_in_game (ops : list op) (al : AnswerList.t) (text : str) :
  let s := run normalize_text ops init in
  answer_list s = Some al ->
  _last_answered_class s <> Some []
  /\ Spec.is_first
       (Spec.candidate Spec.short_form_spec al (normalize_text text)
          (_last_answered_class s))
       (AnswerList.items al)
       (AnswerList.find_match normalize_text al text (_last_answered_class s)).
Proof.
  intros s _. split; [apply run_class_named|].
  apply AnswerListFacts.find_match_first. left. apply run_class_named.
Qed.

End WithNormalizer.

Lemma chronology_of_distinct_loads_witness :
  Forall (Spec.loads_distinct_items Text.normalize_ascii) Spec.sample_setup
  /\ Spec.chronology_ok Spec.sample_game.
Proof.
  assert (H : Forall (Spec.loads_distinct_items Text.normalize_ascii)
                Spec.sample_setup).
  { apply Forall_cons. split.
    - refine (bool_decide_unpack _ _). vm_compute. exact I.
    - repeat (apply Forall_cons; split; [exact I|]). apply Forall_nil_2. }
  split; [exact H|].
  exact (chronology_of_distinct_loads Text.normalize_ascii Spec.sample_setup H).
Defined.

Lemma tick_countdown_witness :
  let s := Spec.sample_game_0_6 in
  let p := Player.set_remaining_ms 29400 Spec.sample_active in
  let s' := state_of (tick Spec.float_0_7 s) in
  is_running s = true
  /\ _last_tick_monotonic s = Some Spec.float_0_6
  /\ current_player s = (Some p, s)
  /\ Float.to_int (Float.mul (Float.sub Spec.float_0_7 Spec.float_0_6)
                     (Float.of_int 1000)) = Float.Int 99
  /\ _last_tick_monotonic s' = Some Spec.float_0_7
  /\ players s' = <[0%nat := Player.set_remaining_ms 29301 p]> (players s)
  /\ current_idx s' = 0
  /\ is_running s' = true.
Proof.
  intros s p s'.
  assert (H1 : is_running s = true) by reflexivity.
  assert (H2 : _last_tick_monotonic s = Some Spec.float_0_6) by reflexivity.
  assert (H3 : current_player s = (Some p, s)) by (vm_compute; reflexivity).
  assert (H4 : Float.to_int (Float.mul (Float.sub Spec.float_0_7 Spec.float_0_6)
                               (Float.of_int 1000)) = Float.Int 99)
    by (vm_compute; reflexivity).
  split; [exact H1|]. split; [exact H2|]. split; [exact H3|]. split; [exact H4|].
  destruct (tick_countdown Spec.float_0_7 Spec.float_0_6 s s p H1 H2 H3)
    as [Hlast Hcases].
  split; [exact Hlast|]. rewrite H4 in Hcases.
  destruct Hcases as (_ & Hleft & _). apply Hleft. vm_compute. discriminate.
Defined.

Lemma host_submit_answer_correct_witness :
  current_player Spec.sample_game = (Some Spec.sample_active, Spec.sample_game)
  /\ answer_list Spec.sample_game = Some Spec.sample_catalog
  /\ AnswerList.find_match Text.normalize_ascii Spec.sample_catalog
       (extract_answer_text (Text.lit "Hyogo (hyogokobe)"))
       (_last_answered_class Spec.sample_game)
     = Some (Text.lit "hyogo-kobe")
  /\ _answered_order
       (host_submit_answer Text.normalize_ascii (Text.lit "Hyogo (hyogokobe)")
          Spec.sample_game)
     = _answered_order Spec.sample_game ++ [Text.lit "hyogo-kobe"].
Proof.
  assert (H1 : current_player Spec.sample_game
               = (Some Spec.sample_active, Spec.sample_game))
    by (vm_compute; reflexivity).
  assert (H2 : answer_list Spec.sample_game = Some Spec.sample_catalog)
    by reflexivity.
  assert (H3 : AnswerList.find_match Text.normalize_ascii Spec.sample_catalog
                 (extract_answer_text (Text.lit "Hyogo (hyogokobe)"))
                 (_last_answered_class Spec.sample_game)
               = Some (Text.lit "hyogo-kobe")) by (vm_compute; reflexivity).
  assert (H4 : Text.lit "hyogo-kobe" <> []) by discriminate.
  assert (H5 : Text.lit "hyogo-kobe" ∉ _answered_order Spec.sample_game).
  { refine (bool_decide_unpack _ _). vm_compute. exact I. }
  split; [exact H1|]. split; [exact H2|]. split; [exact H3|].
  exact (proj1 (proj2 (host_submit_answer_correct Text.normalize_ascii
                         (Text.lit "Hyogo (hyogokobe)") Spec.sample_game
                         Spec.sample_game Spec.sample_active Spec.sample_catalog
                         (Text.lit "hyogo-kobe") H1 H2 H3 H4 H5))).
Defined.

Lemma unmark_after_correct_answer_witness :
  current_player Spec.sample_game = (Some Spec.sample_active, Spec.sample_game)
  /\ answer_list Spec.sample_game = Some Spec.sample_catalog
  /\ AnswerList.find_match Text.normalize_ascii Spec.sample_catalog
       (extract_answer_text (Text.lit "Hyogo (hyogokobe)"))
       (_last_answered_class Spec.sample_game)
     = Some (Text.lit "hyogo-kobe")
  /\ answer_list
       (snd (unmark_answer (Text.lit "hyogo-kobe")
               (host_submit_answer Text.normalize_ascii
                  (Text.lit "Hyogo (hyogokobe)") Spec.sample_game)))
     = Some Spec.sample_catalog.
Proof.
  assert (H1 : current_player Spec.sample_game
               = (Some Spec.sample_active, Spec.sample_game))
    by (vm_compute; reflexivity).
  assert (H2 : answer_list Spec.sample_game = Some Spec.sample_catalog)
    by reflexivity.
  assert (H3 : AnswerList.find_match Text.normalize_ascii Spec.sample_catalog
                 (extract_answer_text (Text.lit "Hyogo (hyogokobe)"))
                 (_last_answered_class Spec.sample_game)
               = Some (Text.lit "hyogo-kobe")) by (vm_compute; reflexivity).
  assert (H4 : Text.lit "hyogo-kobe" <> []) by discriminate.
  assert (H5 : Text.lit "hyogo-kobe" ∉ _answered_order Spec.sample_game).
  { refine (bool_decide_unpack _ _). vm_compute. exact I. }
  split; [exact H1|]. split; [exact H2|]. split; [exact H3|].
  exact (proj1 (proj2 (unmark_after_correct_answer Text.normalize_ascii
                         (Text.lit "Hyogo (hyogokobe)") Spec.sample_game
                         Spec.sample_game Spec.sample_active Spec.sample_catalog
                         (Text.lit "hyogo-kobe") H1 H2 H3 H4 H5))).
Defined.

Lemma host_pass_result_witness :
  let s := Spec.pass_game in
  let s' := host_pass s in
  let i := Z.to_nat (current_idx s) in
  current_player s = (Some Spec.pass_active, s)
  /\ Player.can_pass Spec.pass_active = true
  /\ goes_on s
  /\ (exists q,
        players s' !! i = Some q
        /\ Player.remaining_passes q = Player.remaining_passes Spec.pass_active - 1
        /\ Player.remaining_wrong_answers q
           = Player.remaining_wrong_answers Spec.pass_active
        /\ Player.eliminated q = false)
  /\ (forall k, k <> i ->
        standing <$> players s' !! k = standing <$> players s !! k)
  /\ exists j, next_active (players s) (current_idx s) j
               /\ current_idx s' = Z.of_nat j.
Proof.
  intros s s' i.
  assert (Hcp : current_player s = (Some Spec.pass_active, s))
    by (vm_compute; reflexivity).
  assert (Hcan : Player.can_pass Spec.pass_active = true) by reflexivity.
  assert (Hgo : goes_on s).
  { split.
    - exists Spec.pass_active. split; [|reflexivity].
      apply (list_elem_of_lookup_2 _ 0). vm_compute. reflexivity.
    - intros al [= <-]. vm_compute. discriminate. }
  split; [exact Hcp|]. split; [exact Hcan|]. split; [exact Hgo|].
  destruct (host_pass_result s s Spec.pass_active Hcp) as [_ Hpass].
  destruct (Hpass Hcan) as (Hq & Hothers & Hturn).
  split; [exact Hq|]. split; [exact Hothers|]. exact (Hturn Hgo).
Defined.

Lemma skip_player_passes_turn_witness :
  current_player Spec.sample_game = (Some Spec.sample_active, Spec.sample_game)
  /\ goes_on Spec.sample_game
  /\ exists j np,
       next_active (players Spec.sample_game) (current_idx Spec.sample_game) j
       /\ players Spec.sample_game !! j = Some np
       /\ players (skip_player Text.normalize_ascii (Text.lit "p1") Spec.sample_game) =
          <[j := Player.set_remaining_ms (Player.base_seconds np * 1000) np]>
            (players Spec.sample_game)
       /\ current_idx (skip_player Text.normalize_ascii (Text.lit "p1") Spec.sample_game)
          = Z.of_nat j.
Proof.
  assert (Hcp : current_player Spec.sample_game
                = (Some Spec.sample_active, Spec.sample_game))
    by (vm_compute; reflexivity).
  assert (Hgo : goes_on Spec.sample_game).
  { split.
    - exists Spec.sample_active. split; [|reflexivity].
      apply (list_elem_of_lookup_2 _ 0). vm_compute. reflexivity.
    - intros al [= <-]. vm_compute. discriminate. }
  split; [exact Hcp|]. split; [exact Hgo|].
  apply (skip_player_passes_turn Text.normalize_ascii (Text.lit "p1")
           Spec.sample_game Spec.sample_game Spec.sample_active Hcp Hgo).
  vm_compute. reflexivity.
Defined.

Lemma add_then_remove_player_witness :
  ~ Spec.name_refused Text.normalize_ascii (Text.lit "P3") Spec.sample_game
  /\ players (remove_player Text.normalize_ascii (Text.lit "P3")
                (add_player Text.normalize_ascii (Text.lit "id3") (Text.lit "P3")
                   30 0 1 Spec.sample_game))
     = players Spec.sample_game.
Proof.
  assert (H : ~ Spec.name_refused Text.normalize_ascii (Text.lit "P3")
                  Spec.sample_game).
  { intros [Hn|[Hn|(p & Hp & Hn)]].
    - discriminate Hn.
    - vm_compute in Hn. lia.
    - assert (Hex : _name_exists Text.normalize_ascii (Text.lit "P3")
                      Spec.sample_game = true)
        by (apply name_exists_iff; by exists p).
      vm_compute in Hex. discriminate Hex. }
  split; [exact H|].
  exact (add_then_remove_player Text.normalize_ascii (Text.lit "id3")
           (Text.lit "P3") 30 0 1 Spec.sample_game H).
Defined.

Lemma budgets_in_range_witness :
  Forall limits_ok Spec.sample_setup
  /\ Forall budgets_ok (players Spec.sample_game).
Proof.
  assert (H : Forall limits_ok Spec.sample_setup).
  { repeat (apply Forall_cons; split; [simpl; lia|]). apply Forall_nil_2. }
  split; [exact H|].
  exact (budgets_in_range Text.normalize_ascii Spec.sample_setup H).
Defined.

Lemma exec_keeps_config_witness :
  edits_roster (Tick Spec.float_1_0) = false
  /\ config <$> players (exec Text.normalize_ascii (Tick Spec.float_1_0) Spec.sample_game)
     = config <$> players Spec.sample_game.
Proof.
  split; [reflexivity|].
  exact (exec_keeps_config Text.normalize_ascii (Tick Spec.float_1_0) Spec.sample_game eq_refl).
Defined.

Lemma find_match_in_game_witness :
  answer_list (run Text.normalize_ascii Spec.sample_setup init)
  = Some Spec.sample_catalog
  /\ _last_answered_class (run Text.normalize_ascii Spec.sample_setup init) <> Some []
  /\ Spec.is_first
       (Spec.candidate Spec.short_form_spec Spec.sample_catalog
          (Text.normalize_ascii (Text.lit "Kobe"))
          (_last_answered_class (run Text.normalize_ascii Spec.sample_setup init)))
       (AnswerList.items Spec.sample_catalog)
       (AnswerList.find_match Text.normalize_ascii Spec.sample_catalog
          (Text.lit "Kobe")
          (_last_answered_class (run Text.normalize_ascii Spec.sample_setup init))).
Proof.
  assert (H : answer_list (run Text.normalize_ascii Spec.sample_setup init)
              = Some Spec.sample_catalog) by (vm_compute; reflexivity).
  split; [exact H|].
  exact (find_match_in_game Text.normalize_ascii Spec.sample_setup
           Spec.sample_catalog (Text.lit "Kobe") H).
Defined.

End GameControllerProps.
